(** * code-server: command line and configuration resolution (src/node/cli.ts)

    A shallow embedding of [parse], [setDefaults], [copyOldMacOSDataDir],
    [readConfigFile], [parseBindAddr], [bindAddrFromArgs],
    [bindAddrFromAllSources], [shouldRunVsCodeCli] and
    [shouldOpenInExistingInstance], with the properties of the resolution
    pipeline stated and proved over it.

    Conventions of the embedding.
    - A JavaScript string is a [string]: a sequence of code units below 256.
    - A JavaScript number that holds a port or a parsed integer is a [number]:
      [NaN] or an exact integer.  The integers are exact, so the model agrees
      with IEEE doubles for magnitudes below 2^53, and the sign of zero is not
      represented.  A statement that names the number read from a text of any
      length is therefore made for a value in that range ([is_safe_number]).
    - An [Args] object is a finite map from property names to values; the
      TypeScript interface [Args] fixes the type of each property, and the
      typed accessors below read a property of another type as unset.  Where
      objects are shared and written to ([setDefaults]), they live on a heap
      and are passed by reference; a string list inside an object is held by
      value, since no function of the module writes into the list of an
      object it was given.
    - Exceptions are the [Throw] results of the [result] type. *)

From Stdlib Require Import ZArith NArith Lia Ascii String List.
From stdpp Require Import base option gmap strings list fin_maps.

Local Open Scope Z_scope.

(** ** Results and errors *)

(** The messages of the [Error]s that the module throws, by kind. *)
Inductive error_kind : Type :=
  | UnknownOptionError (arg : string)      (* `Unknown option ${arg}` *)
  | MissingValueError (key : string)       (* `--${key} requires a value` *)
  | InvalidNumberError (key : string)      (* `--${key} must be a number` *)
  | InvalidEnumValueError (key : string).  (* `--${key} valid values: [...]` *)

Inductive error : Type :=
  | ParseError (configFile : option string) (k : error_kind)
      (* built by the local [error] function of [parse]: the message is
         prefixed with `error reading ${configFile}: ` in config context *)
  | RestrictedOptionError
      (* "--password can only be set in the config file or passed in via $PASSWORD" *)
  | InvalidConfigError                     (* `invalid config: ${config}` *)
  | TypeError                              (* thrown by the runtime itself *)
  | IOError (code : string).               (* a rejected file system call *)

Inductive result (A : Type) : Type :=
  | Return (a : A)
  | Throw (e : error).
Arguments Return {A} a.
Arguments Throw {A} e.

Global Instance result_ret : MRet result := fun A a => Return a.

Global Instance result_bind : MBind result := fun A B k r =>
  match r with
  | Return a => k a
  | Throw e => Throw e
  end.

(** ** Strings *)

Module Str.

Definition eqb (a b : string) : bool := bool_decide (a = b).

(** [s.startsWith(p)] *)
Fixpoint startsWith (s p : string) {struct p} : bool :=
  match p with
  | EmptyString => true
  | String c p' =>
      match s with
      | String d s' => Ascii.eqb d c && startsWith s' p'
      | EmptyString => false
      end
  end.

(** [!s] on a string: only the empty string is falsy. *)
Definition truthy (s : string) : bool :=
  match s with
  | EmptyString => false
  | String _ _ => true
  end.

Fixpoint drop (n : nat) (s : string) : string :=
  match n, s with
  | O, _ => s
  | S n', String _ s' => drop n' s'
  | S _, EmptyString => EmptyString
  end.

(** [s.split(sep)] for a one character separator: every piece, in order. *)
Fixpoint split (sep : ascii) (s : string) : list string :=
  match s with
  | EmptyString => [EmptyString]
  | String c s' =>
      if bool_decide (c = sep) then EmptyString :: split sep s'
      else match split sep s' with
           | piece :: pieces => String c piece :: pieces
           | [] => [String c EmptyString]
           end
  end.

(** [s.split(sep, limit)]: the limit truncates the array of all pieces; the
    text after the last kept piece is dropped, not kept in it. *)
Definition split_limit (sep : ascii) (limit : nat) (s : string) : list string :=
  take limit (split sep s).

Fixpoint contains (c : ascii) (s : string) : bool :=
  match s with
  | EmptyString => false
  | String d s' => bool_decide (d = c) || contains c s'
  end.

Fixpoint rev_onto (s acc : string) : string :=
  match s with
  | EmptyString => acc
  | String c s' => rev_onto s' (String c acc)
  end.

Definition rev (s : string) : string := rev_onto s EmptyString.

Fixpoint drop_while (p : ascii -> bool) (s : string) : string :=
  match s with
  | EmptyString => EmptyString
  | String c s' => if p c then drop_while p s' else s
  end.

Fixpoint take_while (p : ascii -> bool) (s : string) : string :=
  match s with
  | EmptyString => EmptyString
  | String c s' => if p c then String c (take_while p s') else EmptyString
  end.

Fixpoint filter (p : ascii -> bool) (s : string) : string :=
  match s with
  | EmptyString => EmptyString
  | String c s' => if p c then String c (filter p s') else filter p s'
  end.

Fixpoint forallb (p : ascii -> bool) (s : string) : bool :=
  match s with
  | EmptyString => true
  | String c s' => p c && forallb p s'
  end.

(** [l.join(sep)] *)
Fixpoint join (sep : string) (l : list string) : string :=
  match l with
  | [] => EmptyString
  | [x] => x
  | x :: l' => x +:+ sep +:+ join sep l'
  end.

End Str.

(** ** Numbers *)

Inductive number : Type :=
  | NaN
  | Int (z : Z).

Global Instance number_eq_dec : EqDecision number.
Proof. solve_decision. Defined.

Definition isNaN (n : number) : bool :=
  match n with
  | NaN => true
  | Int _ => false
  end.

Module Num.

Definition code (c : ascii) : N := N_of_ascii c.

Definition is_digit (c : ascii) : bool :=
  (48 <=? code c)%N && (code c <=? 57)%N.

Definition digit_value (c : ascii) : N := (code c - 48)%N.

Definition digit_char (d : N) : ascii := ascii_of_N (48 + d).

(** White space that [parseInt] skips (StrWhiteSpaceChar below 256). *)
Definition is_white_space (c : ascii) : bool :=
  let n := code c in
  (n =? 9)%N || (n =? 10)%N || (n =? 11)%N || (n =? 12)%N || (n =? 13)%N
  || (n =? 32)%N || (n =? 160)%N.

(** The value of the longest prefix of decimal digits, continuing [acc]. *)
Fixpoint read_digits (s : string) (acc : N) : N :=
  match s with
  | EmptyString => acc
  | String c s' =>
      if is_digit c then read_digits s' (10 * acc + digit_value c)%N else acc
  end.

Definition starts_with_digit (s : string) : bool :=
  match s with
  | EmptyString => false
  | String c _ => is_digit c
  end.

(** [parseInt(s, 10)] *)
Definition parseInt (s : string) : number :=
  let s1 := Str.drop_while is_white_space s in
  let '(negative, s2) :=
    match s1 with
    | String "-" rest => (true, rest)
    | String "+" rest => (false, rest)
    | _ => (false, s1)
    end in
  if starts_with_digit s2
  then let v := Z.of_N (read_digits s2 0) in
       Int (if negative then - v else v)
  else NaN.

(** Decimal digits of [n], most significant first, in front of [acc]. *)
Fixpoint to_digits (fuel : nat) (n : N) (acc : string) : string :=
  match fuel with
  | O => acc
  | S fuel' =>
      let acc' := String (digit_char (n mod 10)) acc in
      if (n / 10 =? 0)%N then acc' else to_digits fuel' (n / 10) acc'
  end.

Definition string_of_N (n : N) : string :=
  to_digits (S (N.to_nat (N.log2 n))) n EmptyString.

Definition string_of_Z (z : Z) : string :=
  if z <? 0 then String "-" (string_of_N (Z.abs_N z))
  else string_of_N (Z.to_N z).

(** [String(n)] / [`${n}`] *)
Definition to_string (n : number) : string :=
  match n with
  | NaN => "NaN"
  | Int z => string_of_Z z
  end.

End Num.

(** ** The URL constructor

    [parseBindAddr] calls [new URL(`http://${bindAddr}`)] and reads the
    [hostname] and [port] of the result.  [URL] belongs to the platform; it is
    modelled after the WHATWG URL standard for inputs that start with
    [http://]: the states that find the authority, the credentials, the host
    and the port are written out, and the host parser itself (percent
    decoding, IDNA, IPv4 and IPv6 syntax) is a variable.  The path, query and
    fragment states never fail and are not read. *)

Module URL.

Record t : Type := mk { hostname : string; port : string }.

Definition is_c0_control_or_space (c : ascii) : bool := (Num.code c <=? 32)%N.

Definition is_tab_or_newline (c : ascii) : bool :=
  let n := Num.code c in (n =? 9)%N || (n =? 10)%N || (n =? 13)%N.

(** End of the authority of a special URL: [/], [?], [#] or [\]. *)
Definition is_authority_end (c : ascii) : bool :=
  let n := Num.code c in (n =? 47)%N || (n =? 63)%N || (n =? 35)%N || (n =? 92)%N.

Definition is_slash (c : ascii) : bool :=
  let n := Num.code c in (n =? 47)%N || (n =? 92)%N.

(** Trailing C0 controls and spaces are removed, then every tab and newline.
    (The input starts with [h], so nothing is removed in front.) *)
Definition preprocess (rest : string) : string :=
  Str.filter (fun c => negb (is_tab_or_newline c))
    (Str.rev (Str.drop_while is_c0_control_or_space (Str.rev rest))).

(** Special authority ignore slashes state, then the extent that the
    authority state scans. *)
Definition authority (input : string) : string :=
  Str.take_while (fun c => negb (is_authority_end c))
    (Str.drop_while is_slash input).

(** Authority state: what follows the last [@], if there is one. *)
Fixpoint after_last_at (s : string) : option string :=
  match s with
  | EmptyString => None
  | String c s' =>
      match after_last_at s' with
      | Some r => Some r
      | None => if bool_decide (c = "@"%char) then Some s' else None
      end
  end.

(** Host state: the buffer up to the first [:] outside brackets, and the
    text after that [:] when there is one. *)
Fixpoint split_host (insideBrackets : bool) (s : string) : string * option string :=
  match s with
  | EmptyString => (EmptyString, None)
  | String c s' =>
      if bool_decide (c = ":"%char) && negb insideBrackets then (EmptyString, Some s')
      else
        let inside :=
          if bool_decide (c = "["%char) then true
          else if bool_decide (c = "]"%char) then false
          else insideBrackets in
        let '(h, p) := split_host inside s' in
        (String c h, p)
  end.

(** Port state: [None] is failure; [Some None] is the null port (no digits,
    or the default port of the scheme, 80). *)
Definition parse_port (buffer : string) : option (option N) :=
  if Str.forallb Num.is_digit buffer then
    match buffer with
    | EmptyString => Some None
    | _ =>
        let p := Num.read_digits buffer 0 in
        if (65535 <? p)%N then None
        else Some (if (p =? 80)%N then None else Some p)
    end
  else None.

(** The host buffer and, after a colon, the text that the port state reads;
    [None] when the credentials are followed by nothing. *)
Definition host_and_port (rest : string) : option (string * option string) :=
  let a := authority (preprocess rest) in
  hostport ← match after_last_at a with
             | None => Some a
             | Some EmptyString => None
             | Some r => Some r
             end;
  Some (split_host false hostport).

Section Parse.

(** The host parser followed by the host serializer: [None] is failure. *)
Variable host_parse : string -> option string.

(** [new URL(`http://${rest}`)]; [None] stands for the TypeError. *)
Definition parse_http (rest : string) : option t :=
  '(buffer, after_colon) ← host_and_port rest;
  match buffer with
  | EmptyString => None
  | _ =>
      h ← host_parse buffer;
      p ← match after_colon with
          | None => Some None
          | Some digits => parse_port digits
          end;
      Some {| hostname := h;
              port := match p with
                      | None => EmptyString
                      | Some n => Num.string_of_N n
                      end |}
  end.

End Parse.

(** An instance of the host parser, to evaluate the model on concrete
    addresses: on a lower-case ASCII domain whose last label is not a
    number, and on a dotted decimal IPv4 address without leading zeros, the
    host parser returns its input.  Other hosts are outside this instance. *)
Definition is_domain_char (c : ascii) : bool :=
  let n := Num.code c in
  ((97 <=? n)%N && (n <=? 122)%N) || Num.is_digit c || (n =? 45)%N || (n =? 46)%N.

Definition last_label_has_letter (s : string) : bool :=
  match last (Str.split "."%char s) with
  | Some l => negb (Str.forallb (fun c => Num.is_digit c || (Num.code c =? 45)%N) l)
  | None => false
  end.

Definition is_ipv4_part (s : string) : bool :=
  Str.forallb Num.is_digit s && Str.truthy s
  && (Num.read_digits s 0 <=? 255)%N
  && bool_decide (Num.string_of_N (Num.read_digits s 0) = s).

Definition is_ipv4 (s : string) : bool :=
  let parts := Str.split "."%char s in
  bool_decide (length parts = 4%nat) && forallb is_ipv4_part parts.

Definition simple_host_parse (s : string) : option string :=
  if (Str.forallb is_domain_char s && last_label_has_letter s) || is_ipv4 s
  then Some s else None.

End URL.

(** ** Values and records *)

(** A property value of an [Args] object.  [VOptionalString v] is an
    [OptionalString] instance whose [value] is [v]. *)
Inductive Value : Type :=
  | VBoolean (b : bool)
  | VString (s : string)
  | VStringList (l : list string)
  | VNumber (n : number)
  | VOptionalString (value : option string).

Global Instance Value_eq_dec : EqDecision Value.
Proof. solve_decision. Defined.

Abbreviation Args := (gmap string Value).

Module Args.

Definition get_string (args : Args) (key : string) : option string :=
  match args !! key with
  | Some (VString s) => Some s
  | _ => None
  end.

Definition get_number (args : Args) (key : string) : option number :=
  match args !! key with
  | Some (VNumber n) => Some n
  | _ => None
  end.

Definition get_list (args : Args) (key : string) : option (list string) :=
  match args !! key with
  | Some (VStringList l) => Some l
  | _ => None
  end.

(** [!!args[key]] *)
Definition truthy (args : Args) (key : string) : bool :=
  match args !! key with
  | None => false
  | Some (VBoolean b) => b
  | Some (VString s) => Str.truthy s
  | Some (VNumber NaN) => false
  | Some (VNumber (Int z)) => negb (z =? 0)
  | Some (VStringList _) => true
  | Some (VOptionalString _) => true
  end.

(** [args[key].push(v)], after [args[key] = []] when the list is missing. *)
Definition push (key v : string) (args : Args) : Args :=
  <[key := VStringList (default [] (get_list args key) ++ [v])]> args.

End Args.

(** [type] of an option.  The two enumerations are [TEnum] with their
    values ([Object.values] of the enum object). *)
Inductive OptionType : Type :=
  | TBoolean
  | TString
  | TStringList
  | TNumber
  | TOptionalString
  | TEnum (values : list string).

(** An entry of [options]; [description] and [beta] only matter to the help
    text and are left out. *)
Record Option : Type := mkOption {
  type : OptionType;
  short : option string;
  path : bool
}.

Definition LogLevel : list string := ["trace"; "debug"; "info"; "warn"; "error"].

(** ** Config documents *)

(** The value that [yaml.safeLoad] returns for a document.  The entries of a
    mapping are listed in the order in which [Object.entries] enumerates
    them. *)
#[warnings="-register-all"]
Inductive yaml : Type :=
  | YUndefined
  | YNull
  | YBoolean (b : bool)
  | YNumber (n : number)
  | YString (s : string)
  | YSequence (items : list yaml)
  | YMapping (entries : list (string * yaml)).

Module Yaml.

(** [`${y}`] *)
Fixpoint to_string (y : yaml) : string :=
  match y with
  | YUndefined => "undefined"
  | YNull => "null"
  | YBoolean true => "true"
  | YBoolean false => "false"
  | YNumber n => Num.to_string n
  | YString s => s
  | YSequence items =>
      Str.join ","
        (map (fun e => match e with
                       | YUndefined | YNull => EmptyString
                       | _ => to_string e
                       end) items)
  | YMapping _ => "[object Object]"
  end.

(** [!!y] *)
Definition truthy (y : yaml) : bool :=
  match y with
  | YUndefined | YNull => false
  | YBoolean b => b
  | YNumber NaN => false
  | YNumber (Int z) => negb (z =? 0)
  | YString s => Str.truthy s
  | YSequence _ | YMapping _ => true
  end.

Definition is_string (y : yaml) : bool :=
  match y with
  | YString _ => true
  | _ => false
  end.

(** [Object.entries(y)] for a truthy [y] that is not a string. *)
Definition entries (y : yaml) : list (string * yaml) :=
  match y with
  | YMapping es => es
  | YSequence items =>
      imap (fun i e => (Num.string_of_N (N.of_nat i), e)) items
  | _ => []
  end.

End Yaml.

(** ** The world outside the module *)

Inductive node : Type :=
  | File (content : string)
  | Directory
  | Failing (code : string).   (* reading the path rejects with this code *)

Inductive Level : Type := Trace | Debug | Info | Warning | Error.

Abbreviation loc := positive.

(** [heap] holds the [Args] objects by reference, [env] is [process.env],
    [fs] the file system by path, [logger_level] is [logger.level], and
    [probes] lists the sockets to which a connection was attempted. *)
Record World : Type := mkWorld {
  heap : gmap loc Args;
  env : gmap string string;
  fs : gmap string node;
  logger_level : Level;
  probes : list string
}.

(** A computation that reads and writes the world and may throw; the world
    is returned in both cases. *)
Definition IO (A : Type) : Type := World -> result A * World.

Global Instance IO_ret : MRet IO := fun A a w => (Return a, w).

Global Instance IO_bind : MBind IO := fun A B k m w =>
  match m w with
  | (Return a, w') => k a w'
  | (Throw e, w') => (Throw e, w')
  end.

Module World.

Definition lift {A : Type} (r : result A) : IO A := fun w => (r, w).

(** The object behind a reference. *)
Definition read (r : loc) : IO Args :=
  fun w => (Return (default ∅ (heap w !! r)), w).

(** [r[key] = v] *)
Definition set_prop (r : loc) (key : string) (v : Value) : IO unit :=
  fun w => (Return tt,
            mkWorld (alter (insert key v) r (heap w)) (env w) (fs w)
              (logger_level w) (probes w)).

(** A new object with the properties [o]. *)
Definition alloc (o : Args) : IO loc :=
  fun w => let r := fresh (dom (heap w)) in
           (Return r,
            mkWorld (<[r := o]> (heap w)) (env w) (fs w) (logger_level w) (probes w)).

(** [process.env[key]], when it is truthy. *)
Definition env_truthy (key : string) (w : World) : option string :=
  match env w !! key with
  | Some v => if Str.truthy v then Some v else None
  | None => None
  end.

Definition getenv (key : string) : IO (option string) :=
  fun w => (Return (env_truthy key w), w).

(** [process.env[key] = value] *)
Definition setenv (key value : string) : IO unit :=
  fun w => (Return tt,
            mkWorld (heap w) (<[key := value]> (env w)) (fs w) (logger_level w)
              (probes w)).

(** [logger.level = l] *)
Definition set_logger_level (l : Level) : IO unit :=
  fun w => (Return tt, mkWorld (heap w) (env w) (fs w) l (probes w)).

(** [fs.pathExists(p)] *)
Definition pathExists (p : string) : IO bool :=
  fun w => (Return (bool_decide (is_Some (fs w !! p))), w).

(** [fs.readFile(p)] *)
Definition readFile (p : string) : IO string :=
  fun w => (match fs w !! p with
            | Some (File content) => Return content
            | Some Directory => Throw (IOError "EISDIR")
            | Some (Failing code) => Throw (IOError code)
            | None => Throw (IOError "ENOENT")
            end, w).

(** A primitive that only acts on the file system. *)
Definition on_fs (f : gmap string node -> result unit * gmap string node) : IO unit :=
  fun w => let '(r, fs') := f (fs w) in
           (r, mkWorld (heap w) (env w) fs' (logger_level w) (probes w)).

(** A connection attempt to [p] whose outcome is [up]. *)
Definition probe (up : bool) (p : string) : IO bool :=
  fun w => (Return up,
            mkWorld (heap w) (env w) (fs w) (logger_level w) (probes w ++ [p])).

End World.

(** ** The option catalog and the parser *)

(** Names that every object literal inherits from [Object.prototype]:
    [options[key]] is truthy for them although they are not options, and the
    inherited value has neither [type] nor [path]. *)
Definition object_prototype_names : list string :=
  ["constructor"; "__defineGetter__"; "__defineSetter__"; "hasOwnProperty";
   "__lookupGetter__"; "__lookupSetter__"; "isPrototypeOf";
   "propertyIsEnumerable"; "toString"; "valueOf"; "__proto__"; "toLocaleString"].

Inductive Property : Type :=
  | Own (o : Option)
  | Inherited
  | Undefined.

Global Instance OptionType_eq_dec : EqDecision OptionType.
Proof. solve_decision. Defined.

Global Instance Option_eq_dec : EqDecision Option.
Proof. solve_decision. Defined.

Global Instance Property_eq_dec : EqDecision Property.
Proof. solve_decision. Defined.

Section Cli.

(** [Object.values(AuthType)], from ./http. *)
Variable AuthType : list string.

(** [path.resolve], which depends on the working directory. *)
Variable path_resolve : string -> string.

Definition opt (t : OptionType) : Option := mkOption t None false.
Definition opt_short (t : OptionType) (s : string) : Option := mkOption t (Some s) false.
Definition opt_path (t : OptionType) : Option := mkOption t None true.

(** The catalog, in the order of the source. *)
Definition options : list (string * Option) :=
  [ ("auth", opt (TEnum AuthType));
    ("password", opt TString);
    ("cert", opt_path TOptionalString);
    ("cert-host", opt TString);
    ("cert-key", opt_path TString);
    ("disable-telemetry", opt TBoolean);
    ("help", opt_short TBoolean "h");
    ("json", opt TBoolean);
    ("open", opt TBoolean);
    ("bind-addr", opt TString);
    ("config", opt TString);
    ("host", opt TString);
    ("port", opt TNumber);
    ("socket", opt_path TString);
    ("version", opt_short TBoolean "v");
    ("_", opt TStringList);
    ("user-data-dir", opt_path TString);
    ("extensions-dir", opt_path TString);
    ("builtin-extensions-dir", opt_path TString);
    ("extra-extensions-dir", opt_path TStringList);
    ("extra-builtin-extensions-dir", opt_path TStringList);
    ("list-extensions", opt TBoolean);
    ("force", opt TBoolean);
    ("install-extension", opt TStringList);
    ("enable-proposed-api", opt TStringList);
    ("uninstall-extension", opt TStringList);
    ("show-versions", opt TBoolean);
    ("proxy-domain", opt TStringList);
    ("new-window", opt_short TBoolean "n");
    ("reuse-window", opt_short TBoolean "r");
    ("locale", opt TString);
    ("log", opt (TEnum LogLevel));
    ("verbose", opt_short TBoolean "vvv");
    ("link", opt TOptionalString) ].

(** [options[key]] *)
Definition options_get (key : string) : Property :=
  match list_find (fun kv => fst kv = key) options with
  | Some (_, (_, o)) => Own o
  | None =>
      if bool_decide (key ∈ object_prototype_names) then Inherited else Undefined
  end.

(** [Object.entries(options).find(([, v]) => v.short === short)] *)
Definition options_find_short (s : string) : option string :=
  match list_find (fun kv => short (snd kv) = Some s) options with
  | Some (_, (k, _)) => Some k
  | None => None
  end.

(** [opts?.configFile], when it is truthy. *)
Definition configFile (opts : option string) : option string :=
  match opts with
  | Some f => if Str.truthy f then Some f else None
  | None => None
  end.

(** The local [error] function of [parse]. *)
Definition parse_error (opts : option string) (k : error_kind) : error :=
  ParseError (configFile opts) k.

(** The [switch (option.type)] that stores a captured value. *)
Definition store (opts : option string) (key : string) (t : OptionType)
    (value : string) (args : Args) : result Args :=
  match t with
  | TBoolean => Return args (* not reached: booleans are stored before *)
  | TString => Return (<[key := VString value]> args)
  | TStringList => Return (Args.push key value args)
  | TNumber =>
      let n := Num.parseInt value in
      if isNaN n then Throw (parse_error opts (InvalidNumberError key))
      else Return (<[key := VNumber n]> args)
  | TOptionalString => Return (<[key := VOptionalString (Some value)]> args)
  | TEnum values =>
      if bool_decide (value ∈ values) then Return (<[key := VString value]> args)
      else Throw (parse_error opts (InvalidEnumValueError key))
  end.

(** The key and the inline value of an option token. *)
Definition key_value (arg : string) : option string * option string :=
  if Str.startsWith arg "--" then
    let split := Str.split_limit "="%char 2 (Str.drop 2 arg) in
    (split !! 0%nat, split !! 1%nat)
  else
    (options_find_short (Str.drop 1 arg), None).

(** [option.type] and [option.path]; both are undefined on an inherited
    property. *)
Definition property_type (p : Property) : option OptionType :=
  match p with
  | Own o => Some (type o)
  | _ => None
  end.

Definition property_path (p : Property) : bool :=
  match p with
  | Own o => path o
  | _ => false
  end.

Definition is_boolean (t : option OptionType) : bool :=
  match t with
  | Some TBoolean => true
  | _ => false
  end.

Definition is_optional_string (t : option OptionType) : bool :=
  match t with
  | Some TOptionalString => true
  | _ => false
  end.

(** The value of a non-boolean option: the inline one, or else the next
    token when it exists, is not empty and does not start with a dash.  The
    boolean tells whether the next token was consumed ([++i]). *)
Definition capture (inline next : option string) : option string * bool :=
  match inline with
  | Some v => (Some v, false)
  | None =>
      match next with
      | Some n =>
          if Str.truthy n && negb (Str.startsWith n "-")
          then (Some n, true) else (None, false)
      | None => (None, false)
      end
  end.

(** What the loop does with the captured [value] of a non-boolean option. *)
Definition assign (opts : option string) (key : string) (p : Property)
    (value : option string) (args : Args) : result Args :=
  let t := property_type p in
  match value with
  | Some (String c v') =>
      let v := String c v' in
      if is_optional_string t && Str.eqb v "false" then Return args
      else
        let v := if property_path p then path_resolve v else v in
        match t with
        | Some t => store opts key t v args
        | None => Throw TypeError (* [Object.values(undefined)] *)
        end
  | _ =>
      if is_optional_string t then Return (<[key := VOptionalString value]> args)
      else Throw (parse_error opts (MissingValueError key))
  end.

(** The body of the loop for a token that starts with a dash, before option
    parsing has ended.  [next] is [argv[i + 1]]; the boolean of the result
    tells whether it was consumed. *)
Definition parse_option (opts : option string) (arg : string)
    (next : option string) (args : Args) : result (Args * bool) :=
  let '(key, inline) := key_value arg in
  let key := default EmptyString key in
  let p := options_get key in
  if negb (Str.truthy key) || bool_decide (p = Undefined)
  then Throw (parse_error opts (UnknownOptionError arg))
  else if Str.eqb key "password" && negb (bool_decide (is_Some (configFile opts)))
  then Throw RestrictedOptionError
  else if is_boolean (property_type p)
  then Return (<[key := VBoolean true]> args, false)
  else
    let '(value, consumed) := capture inline next in
    args' ← assign opts key p value args;
    Return (args', consumed).

(** The [for] loop of [parse], from index [i] on: [argv] is what is left of
    the tokens. *)
Fixpoint parse_loop (opts : option string) (argv : list string) (ended : bool)
    (args : Args) : result Args :=
  match argv with
  | [] => Return args
  | arg :: rest =>
      if negb ended && Str.eqb arg "--" then parse_loop opts rest true args
      else if negb ended && Str.startsWith arg "-" then
        match parse_option opts arg (head rest) args with
        | Throw e => Throw e
        | Return (args', consumed) =>
            match rest with
            | _ :: rest' =>
                if consumed then parse_loop opts rest' ended args'
                else parse_loop opts rest ended args'
            | [] => parse_loop opts rest ended args'
            end
        end
      else parse_loop opts rest ended (Args.push "_" arg args)
  end.

(** [parse(argv, opts)]; [opts] is the [configFile] when it is given.  The
    debug trace of the result is not modelled. *)
Definition parse (argv : list string) (opts : option string) : result Args :=
  parse_loop opts argv false {[ "_" := VStringList [] ]}.

(** ** Defaults *)

(** [paths.data] and [paths.config] from ./util, [path.join], [os.platform()],
    [os.homedir()], [os.tmpdir()] and [fs.copy] belong to the platform. *)
Variable paths_data : string.
Variable paths_config : string.
Variable path_join : list string -> string.
Variable os_platform : string.
Variable os_homedir : string.
Variable os_tmpdir : string.
Variable fs_copy :
  string -> string -> gmap string node -> result unit * gmap string node.

Definition copyOldMacOSDataDir : IO unit :=
  if negb (Str.eqb os_platform "darwin") then mret tt
  else
    exists_data ← World.pathExists paths_data;
    if (exists_data : bool) then mret tt
    else
      let oldDataDir :=
        path_join [os_homedir; "Library/Application Support"; "code-server"] in
      exists_old ← World.pathExists oldDataDir;
      if (exists_old : bool) then World.on_fs (fs_copy oldDataDir paths_data)
      else mret tt.

(** The [switch (args.log)] of [setDefaults]: the level of the logger and the
    value of [args.verbose], for the five values of [LogLevel]. *)
Definition log_case (log : option string) : option (Level * bool) :=
  match log with
  | Some "trace" => Some (Trace, true)
  | Some "debug" => Some (Debug, false)
  | Some "info" => Some (Info, false)
  | Some "warn" => Some (Warning, false)
  | Some "error" => Some (Error, false)
  | _ => None
  end.

(** [setDefaults(args)]: the argument and the result are references into the
    heap of the world. *)
Definition setDefaults (args : loc) : IO loc :=
  (* args = { ...args } *)
  o ← World.read args;
  args ← World.alloc o;
  o ← World.read args;
  (if negb (Args.truthy o "user-data-dir")
   then copyOldMacOSDataDir;;
        World.set_prop args "user-data-dir" (VString paths_data)
   else mret tt);;
  o ← World.read args;
  (if negb (Args.truthy o "extensions-dir")
   then
     let dir := default EmptyString (Args.get_string o "user-data-dir") in
     World.set_prop args "extensions-dir" (VString (path_join [dir; "extensions"]))
   else mret tt);;
  o ← World.read args;
  LOG_LEVEL ← World.getenv "LOG_LEVEL";
  (if Args.truthy o "verbose"
   then World.set_prop args "log" (VString "trace")
   else
     match LOG_LEVEL with
     | Some level =>
         if negb (Args.truthy o "log") && bool_decide (level ∈ LogLevel)
         then World.set_prop args "log" (VString level)
         else mret tt
     | None => mret tt
     end);;
  o ← World.read args;
  (if Args.truthy o "log"
   then World.setenv "LOG_LEVEL" (default EmptyString (Args.get_string o "log"))
   else mret tt);;
  match log_case (Args.get_string o "log") with
  | Some (level, verbose) =>
      World.set_logger_level level;;
      World.set_prop args "verbose" (VBoolean verbose)
  | None => mret tt
  end;;
  mret args.

(** ** The config file *)

(** [yaml.safeLoad] and the outcome of [generatePassword()]; and
    [fs.outputFile], which like [fs.copy] belongs to the platform: it may
    create directories on the way to the file, and it may fail. *)
Variable yaml_safeLoad : string -> result yaml.
Variable generatePassword : string.
Variable fs_outputFile :
  string -> string -> gmap string node -> result unit * gmap string node.

Definition newline : string := String (ascii_of_N 10) EmptyString.

Definition defaultConfigFile : string :=
  "bind-addr: 127.0.0.1:8080" +:+ newline +:+
  "auth: password" +:+ newline +:+
  "password: " +:+ generatePassword +:+ newline +:+
  "cert: false" +:+ newline.

(** The flags that the entries of the config document become. *)
Definition configFileArgv (config : yaml) : list string :=
  map (fun entry : string * yaml =>
         let '(optName, o) := entry in
         match o with
         | YBoolean true => "--" +:+ optName
         | _ => "--" +:+ optName +:+ "=" +:+ Yaml.to_string o
         end)
      (Yaml.entries config).

(** [readConfigFile] from the loaded document on. *)
Definition argsFromConfig (configPath : string) (config : yaml) : result Args :=
  if negb (Yaml.truthy config) || Yaml.is_string config
  then Throw InvalidConfigError
  else
    args ← parse (configFileArgv config) (Some configPath);
    Return (<["config" := VString configPath]> args).

(** [readConfigFile(configPath)].  The [logger.info] line is not modelled. *)
Definition readConfigFile (configPath : option string) : IO Args :=
  CODE_SERVER_CONFIG ← World.getenv "CODE_SERVER_CONFIG";
  let configPath :=
    match configPath with
    | Some (String c p) => String c p
    | _ => default (path_join [paths_config; "config.yaml"]) CODE_SERVER_CONFIG
    end in
  file_exists ← World.pathExists configPath;
  (if (file_exists : bool) then mret tt
   else World.on_fs (fs_outputFile configPath defaultConfigFile));;
  configFile ← World.readFile configPath;
  config ← World.lift (yaml_safeLoad configFile);
  World.lift (argsFromConfig configPath config).

(** ** The bind address *)

Variable host_parse : string -> option string.

Definition parseBindAddr (bindAddr : string) : result (string * number) :=
  match URL.parse_http host_parse bindAddr with
  | None => Throw TypeError
  | Some u =>
      Return (URL.hostname u,
              if Str.truthy (URL.port u) then Num.parseInt (URL.port u) else Int 80)
  end.

Record Addr : Type := mkAddr { host : string; port : number }.

(** [process.env] is only read here: the world is a plain argument. *)
Definition bindAddrFromArgs (w : World) (addr : Addr) (args : Args) : result Addr :=
  addr ← match Args.get_string args "bind-addr" with
         | Some (String c s) =>
             hp ← parseBindAddr (String c s);
             Return (mkAddr hp.1 hp.2)
         | _ => Return addr
         end;
  let addr :=
    match Args.get_string args "host" with
    | Some (String c s) => mkAddr (String c s) (port addr)
    | _ => addr
    end in
  let addr :=
    match World.env_truthy "PORT" w with
    | Some p => mkAddr (host addr) (Num.parseInt p)
    | None => addr
    end in
  let addr :=
    match Args.get_number args "port" with
    | Some p => mkAddr (host addr) p
    | None => addr
    end in
  Return addr.

Definition bindAddrFromAllSources (w : World) (cliArgs configArgs : Args)
    : result (string * number) :=
  let addr := mkAddr "localhost" (Int 8080) in
  addr ← bindAddrFromArgs w addr configArgs;
  addr ← bindAddrFromArgs w addr cliArgs;
  Return (host addr, port addr).

(** ** Existing instances *)

(** [canConnect] from ./util: whether a connection to the socket succeeds. *)
Variable canConnect : string -> bool.

Definition readSocketPath : IO (option string) :=
  fun w =>
    match World.readFile (path_join [os_tmpdir; "vscode-ipc"]) w with
    | (Return content, w') => (Return (Some content), w')
    | (Throw (IOError "ENOENT"), w') => (Return None, w')
    | (Throw e, w') => (Throw e, w')
    end.

Definition shouldRunVsCodeCli (args : Args) : bool :=
  Args.truthy args "list-extensions" || Args.truthy args "install-extension"
  || Args.truthy args "uninstall-extension".

(** [args._.length]; a TypeError when [_] is missing. *)
Definition positional_length (args : Args) : result nat :=
  match args !! "_" with
  | Some (VStringList positional) => Return (length positional)
  | _ => Throw TypeError
  end.

Definition shouldOpenInExistingInstance (args : Args) : IO (option string) :=
  hook ← World.getenv "VSCODE_IPC_HOOK_CLI";
  match hook with
  | Some hook => mret (Some hook)
  | None =>
      let openInFlagCount :=
        foldl (fun prev cur => if Args.truthy args cur then S prev else prev)
          O ["reuse-window"; "new-window"] in
      if bool_decide (0 < openInFlagCount)%nat then readSocketPath
      else if bool_decide (size args = 1%nat) then
        n ← World.lift (positional_length args);
        if bool_decide (0 < n)%nat then
          socketPath ← readSocketPath;
          match socketPath with
          | Some (String c s) =>
              up ← World.probe (canConnect (String c s)) (String c s);
              mret (if (up : bool) then Some (String c s) else None)
          | _ => mret None
          end
        else mret None
      else mret None
  end.

End Cli.

(** ** Notions used in the statements *)

(** A port number in the sense of the specification's [Addr]. *)
Definition port_in_range (n : number) : Prop :=
  exists z : Z, n = Int z /\ 0 <= z <= 65535.

(** A number that JavaScript holds exactly: [NaN], or an integer of magnitude
    below 2^53.  On a text whose leading integer is such a number,
    [Num.parseInt] is the [parseInt] of JavaScript; beyond it, [parseInt]
    rounds (and ends at [Infinity]), which the model does not. *)
Definition is_safe_number (n : number) : bool :=
  match n with
  | NaN => true
  | Int z => (-9007199254740991 <=? z) && (z <=? 9007199254740991)
  end.

(** The [bind-addr] of a record, when it has a truthy one, is accepted by the
    URL parser. *)
Definition bind_addr_parses (host_parse : string -> option string) (args : Args) : Prop :=
  match Args.get_string args "bind-addr" with
  | Some (String c s) => is_Some (URL.parse_http host_parse (String c s))
  | _ => True
  end.

(** The text of an inline value that the parser keeps: the piece up to the
    next [=], since [split("=", 2)] drops what follows. *)
Definition inline_value (v : string) : string :=
  default EmptyString (head (Str.split "="%char v)).

(** A numeral in the everyday sense: an optional sign and then decimal
    digits, at least one, and nothing else. *)
Definition is_decimal_numeral (s : string) : bool :=
  let digits :=
    match s with
    | String "-" rest => rest
    | String "+" rest => rest
    | _ => s
    end in
  Str.truthy digits && Str.forallb Num.is_digit digits.

(** The value of a record property agrees with the type of its option:
    a boolean is [true], a number is not [NaN], an enumeration holds one of
    its values. *)
Definition value_has_type (t : OptionType) (v : Value) : bool :=
  match t, v with
  | TBoolean, VBoolean b => b
  | TString, VString _ => true
  | TStringList, VStringList _ => true
  | TNumber, VNumber n => negb (isNaN n)
  | TOptionalString, VOptionalString _ => true
  | TEnum values, VString s => bool_decide (s ∈ values)
  | _, _ => false
  end.

(** Every key of the record is in the catalog, with a value of its type. *)
Definition well_typed (AuthType : list string) (args : Args) : Prop :=
  map_Forall (fun k v => exists o : Option,
                options_get AuthType k = Own o /\ value_has_type (type o) v = true)
    args.

(** A property of records that survives every assignment of a value of the
    right type to an option of the catalog. *)
Definition typed_insert_closed (AuthType : list string) (I : Args -> Prop) : Prop :=
  forall (key : string) (o : Option) (v : Value) (args : Args),
    options_get AuthType key = Own o -> value_has_type (type o) v = true ->
    I args -> I (<[key := v]> args).

(** The fields that [setDefaults] may layer onto the copy of its argument. *)
Definition default_fields : list string :=
  ["user-data-dir"; "extensions-dir"; "log"; "verbose"].

(** Between the worlds [w] and [w'], the heap has only changed at the
    reference [r], and there only in the properties [fields]. *)
Definition heap_frame (r : loc) (fields : list string) (w w' : World) : Prop :=
  (forall l, l <> r -> heap w' !! l = heap w !! l)
  /\ (forall o, heap w !! r = Some o ->
       exists o', heap w' !! r = Some o'
                  /\ forall k, k ∉ fields -> o' !! k = o !! k).

(** The computation [m] respects that frame, from any world, and what it
    returns satisfies [Q]. *)
Definition keeps_frame {A : Type} (r : loc) (fields : list string)
    (Q : A -> Prop) (m : IO A) : Prop :=
  forall w, heap_frame r fields w (m w).2
            /\ forall a, (m w).1 = Return a -> Q a.

(** The token of a config entry. *)
Definition config_token (entry : string * yaml) : string :=
  match entry.2 with
  | YBoolean true => "--" +:+ entry.1
  | _ => "--" +:+ entry.1 +:+ "=" +:+ Yaml.to_string entry.2
  end.

(** The re-serialization of the round-trip property, which the source does
    not have, after the words of the specification: one [--key=value] token
    per stored scalar and per list element, a bare [--key] for a boolean (and
    for an OptionalString without payload), and the positional arguments
    after [--]. *)
Definition serialize_property (key : string) (v : Value) : list string :=
  match v with
  | VBoolean true => ["--" +:+ key]
  | VBoolean false => []
  | VString s => ["--" +:+ key +:+ "=" +:+ s]
  | VStringList l => map (fun e => "--" +:+ key +:+ "=" +:+ e) l
  | VNumber n => ["--" +:+ key +:+ "=" +:+ Num.to_string n]
  | VOptionalString (Some s) => ["--" +:+ key +:+ "=" +:+ s]
  | VOptionalString None => ["--" +:+ key]
  end.

Definition serialize (args : Args) : list string :=
  concat (map (fun kv : string * Value => serialize_property kv.1 kv.2)
            (map_to_list (delete "_" args)))
  ++ "--" :: default [] (Args.get_list args "_").

(** What the parser stores for an option: a captured string is not empty,
    and is a resolved path when the option is a path. *)
Definition stored_string (path_resolve : string -> string) (o : Option)
    (s : string) : Prop :=
  Str.truthy s = true /\ (path o = true -> path_resolve s = s).

Definition stored_value (path_resolve : string -> string) (key : string)
    (o : Option) (v : Value) : Prop :=
  match type o, v with
  | TBoolean, VBoolean b => b = true
  | TString, VString s => stored_string path_resolve o s
  | TStringList, VStringList l =>
      key = "_" \/ (l <> [] /\ Forall (stored_string path_resolve o) l)
  | TNumber, VNumber n => n <> NaN
  | TOptionalString, VOptionalString None => True
  | TOptionalString, VOptionalString (Some s) =>
      s = EmptyString \/ (stored_string path_resolve o s /\ s <> "false")
  | TEnum values, VString s => s ∈ values /\ Str.truthy s = true
  | _, _ => False
  end.

(** The records that [parse] can return in the context [opts]. *)
Definition parsed_record (AuthType : list string) (path_resolve : string -> string)
    (opts : option string) (args : Args) : Prop :=
  (exists l, args !! "_" = Some (VStringList l))
  /\ map_Forall (fun k v => exists o : Option,
                   options_get AuthType k = Own o
                   /\ stored_value path_resolve k o v
                   /\ (k = "password" -> is_Some (configFile opts)))
       args.

(** No string stored under an option holds an equals sign. *)
Definition value_without_equals (v : Value) : Prop :=
  match v with
  | VString s => Str.contains "=" s = false
  | VStringList l => Forall (fun s => Str.contains "=" s = false) l
  | VOptionalString (Some s) => Str.contains "=" s = false
  | _ => True
  end.

(** There is a next token, and it starts with a dash. *)
Definition dash_head (argv : list string) : Prop :=
  exists n, head argv = Some n /\ Str.startsWith n "-" = true.

(** ** Instances of the platform, to run the model on concrete inputs *)

Module Example.

Definition AuthType : list string := ["password"; "none"].

(** [path.resolve] in the root directory, on paths that need no normalizing. *)
Definition path_resolve (s : string) : string :=
  if Str.startsWith s "/" then s else "/" +:+ s.

Definition path_join (parts : list string) : string := Str.join "/" parts.

Definition fs_copy (src dest : string) (f : gmap string node)
    : result unit * gmap string node :=
  (Return tt, match f !! src with Some n => <[dest := n]> f | None => f end).

(** A world with the given environment and files, and nothing else. *)
Definition world (e : gmap string string) (f : gmap string node) : World :=
  mkWorld ∅ e f Info [].

Definition parse : list string -> option string -> result Args :=
  parse AuthType path_resolve.

Definition argsFromConfig : string -> yaml -> result Args :=
  argsFromConfig AuthType path_resolve.

Definition bindAddrFromAllSources : World -> Args -> Args -> result (string * number) :=
  bindAddrFromAllSources URL.simple_host_parse.

(** A loader for a few one-line documents: the number [42], the boolean
    [true], the empty document; any other line is taken as a string scalar. *)
Definition yaml_safeLoad (text : string) : result yaml :=
  if Str.eqb text "42" then Return (YNumber (Int 42))
  else if Str.eqb text "true" then Return (YBoolean true)
  else if Str.eqb text "" then Return YUndefined
  else Return (YString text).

(** A write that succeeds and creates the one file. *)
Definition fs_outputFile (p content : string) (f : gmap string node)
    : result unit * gmap string node :=
  (Return tt, <[p := File content]> f).

Definition readConfigFile : option string -> IO Args :=
  readConfigFile AuthType path_resolve "/config" path_join yaml_safeLoad "secret"
    fs_outputFile.

End Example.

(** ** Notions used in the further statements *)

(** The first candidate that is there, or else the default. *)
Fixpoint first_of {A : Type} (candidates : list (option A)) (d : A) : A :=
  match candidates with
  | [] => d
  | Some a :: _ => a
  | None :: rest => first_of rest d
  end.

(** [args[key]] when it is a non-empty string. *)
Definition truthy_string (args : Args) (key : string) : option string :=
  match Args.get_string args key with
  | Some (String c s) => Some (String c s)
  | _ => None
  end.

(** The host and the port that the [bind-addr] of a record gives, when the
    record has one and it parses. *)
Definition bind_addr_of (host_parse : string -> option string) (args : Args)
    : option (string * number) :=
  match truthy_string args "bind-addr" with
  | Some s =>
      match parseBindAddr host_parse s with
      | Return hp => Some hp
      | Throw _ => None
      end
  | None => None
  end.

(** A host text without any character that the URL parser treats specially:
    no control character or space, and none of [: @ / ? # \ [ ]]. *)
Definition is_plain_host_char (c : ascii) : bool :=
  let n := Num.code c in
  (32 <? n)%N
  && negb ((n =? 58)%N || (n =? 64)%N || (n =? 47)%N || (n =? 63)%N
           || (n =? 35)%N || (n =? 92)%N || (n =? 91)%N || (n =? 93)%N).

Definition is_plain_host (b : string) : bool :=
  Str.truthy b && Str.forallb is_plain_host_char b.

(** The path that [readConfigFile] settles on: the argument when it is not
    empty, or else [CODE_SERVER_CONFIG] when it is not empty, or else the
    default. *)
Definition config_path (paths_config : string) (path_join : list string -> string)
    (configPath : option string) (w : World) : string :=
  first_of [match configPath with
            | Some (String c p) => Some (String c p)
            | _ => None
            end;
            World.env_truthy "CODE_SERVER_CONFIG" w]
    (path_join [paths_config; "config.yaml"]).

(** One entry of a config document on its own: its flag, handled as a token
    with no token after it. *)
Definition config_entry (AuthType : list string) (path_resolve : string -> string)
    (configPath : string) (args : result Args) (entry : string * yaml) : result Args :=
  args ← args;
  r ← parse_option AuthType path_resolve (Some configPath) (config_token entry) None args;
  Return r.1.

(** ** The defaults, layer by layer

    What each block of [setDefaults] makes of the properties of the copy. *)

Definition with_user_data_dir (paths_data : string) (o : Args) : Args :=
  if Args.truthy o "user-data-dir" then o
  else <["user-data-dir" := VString paths_data]> o.

Definition with_extensions_dir (path_join : list string -> string) (o : Args) : Args :=
  if Args.truthy o "extensions-dir" then o
  else <["extensions-dir" :=
           VString (path_join [default EmptyString (Args.get_string o "user-data-dir");
                               "extensions"])]> o.

Definition with_log (w : World) (o : Args) : Args :=
  if Args.truthy o "verbose" then <["log" := VString "trace"]> o
  else
    match World.env_truthy "LOG_LEVEL" w with
    | Some level =>
        if negb (Args.truthy o "log") && bool_decide (level ∈ LogLevel)
        then <["log" := VString level]> o
        else o
    | None => o
    end.

Definition with_verbose (o : Args) : Args :=
  match log_case (Args.get_string o "log") with
  | Some (_, verbose) => <["verbose" := VBoolean verbose]> o
  | None => o
  end.

(** Whether [setDefaults] copies the old macOS data directory: there is no
    [user-data-dir], the platform is macOS, nothing is at [paths.data], and
    the old directory exists. *)
Definition migrates (paths_data : string) (path_join : list string -> string)
    (os_platform os_homedir : string) (o : Args) (w : World) : bool :=
  negb (Args.truthy o "user-data-dir")
  && Str.eqb os_platform "darwin"
  && negb (bool_decide (is_Some (fs w !! paths_data)))
  && bool_decide
       (is_Some (fs w !! path_join [os_homedir; "Library/Application Support";
                                    "code-server"])).

(** A macOS setting for the defaults, and a world with one record, at the
    reference [1], that gives a data directory and asks for [--verbose]. *)
Module ExampleDefaults.

Definition setDefaults : loc -> IO loc :=
  setDefaults "/data" Example.path_join "darwin" "/home/u" Example.fs_copy.

Definition world : World :=
  mkWorld
    {[ 1%positive := <["user-data-dir" := VString "/d"]>
                       (<["verbose" := VBoolean true]> {[ "_" := VStringList [] ]}) ]}
    {[ "LOG_LEVEL" := "debug" ]} ∅ Info [].

End ExampleDefaults.

(** * Properties *)

(** ** Decimal numerals *)

Lemma digit_char_is_digit (d : N) :
  (d < 10)%N -> Num.is_digit (Num.digit_char d) = true.
Proof.
  intros Hd. unfold Num.is_digit, Num.digit_char, Num.code.
  rewrite N_ascii_embedding by lia.
  apply andb_true_intro; split; apply N.leb_le; lia.
Qed.

Lemma digit_value_char (d : N) :
  (d < 10)%N -> Num.digit_value (Num.digit_char d) = d.
Proof.
  intros Hd. unfold Num.digit_value, Num.digit_char, Num.code.
  rewrite N_ascii_embedding by lia. lia.
Qed.

Lemma read_digits_to_digits (fuel : nat) :
  forall (n : N) (acc : string),
    (n < 2 ^ N.of_nat fuel)%N ->
    exists k : N, forall a : N,
      Num.read_digits (Num.to_digits fuel n acc) a
      = Num.read_digits acc (a * 10 ^ k + n)%N.
Proof.
  induction fuel as [|fuel IH]; intros n acc Hn.
  - exists 0%N. intros a. simpl in *. f_equal. lia.
  - assert (Hmod : (n mod 10 < 10)%N) by (apply N.mod_lt; lia).
    cbn [Num.to_digits]. destruct (N.eqb_spec (n / 10) 0) as [Hz|Hnz].
    + exists 1%N. intros a. cbn [Num.read_digits].
      rewrite digit_char_is_digit, digit_value_char by assumption.
      f_equal. pose proof (N.div_mod n 10). lia.
    + destruct (IH (n / 10)%N (String (Num.digit_char (n mod 10)) acc)) as [k Hk].
      { rewrite Nnat.Nat2N.inj_succ, N.pow_succ_r' in Hn.
        apply N.Div0.div_lt_upper_bound. lia. }
      exists (N.succ k). intros a. rewrite Hk. cbn [Num.read_digits].
      rewrite digit_char_is_digit, digit_value_char by assumption.
      f_equal. rewrite N.pow_succ_r'. pose proof (N.div_mod n 10). lia.
Qed.

Lemma read_digits_string_of_N (n : N) :
  Num.read_digits (Num.string_of_N n) 0 = n.
Proof.
  unfold Num.string_of_N.
  destruct (read_digits_to_digits (S (N.to_nat (N.log2 n))) n EmptyString) as [k Hk].
  - rewrite Nnat.Nat2N.inj_succ, Nnat.N2Nat.id.
    destruct n as [|p]; [reflexivity|]. apply N.log2_spec. lia.
  - rewrite Hk. simpl. lia.
Qed.

Lemma to_digits_starts_with_digit (fuel : nat) :
  forall (n : N) (acc : string),
    Num.starts_with_digit acc = true ->
    Num.starts_with_digit (Num.to_digits fuel n acc) = true.
Proof.
  induction fuel as [|fuel IH]; intros n acc Hacc; [exact Hacc|].
  cbn [Num.to_digits].
  assert (Hd : Num.starts_with_digit (String (Num.digit_char (n mod 10)) acc) = true).
  { simpl. apply digit_char_is_digit, N.mod_lt. lia. }
  destruct (n / 10 =? 0)%N; [exact Hd|]. apply IH, Hd.
Qed.

Lemma string_of_N_starts_with_digit (n : N) :
  Num.starts_with_digit (Num.string_of_N n) = true.
Proof.
  unfold Num.string_of_N. cbn [Num.to_digits].
  assert (Hd : Num.starts_with_digit (String (Num.digit_char (n mod 10)) EmptyString) = true).
  { simpl. apply digit_char_is_digit, N.mod_lt. lia. }
  destruct (n / 10 =? 0)%N; [exact Hd|]. apply to_digits_starts_with_digit, Hd.
Qed.

Lemma starts_with_digit_truthy (s : string) :
  Num.starts_with_digit s = true -> Str.truthy s = true.
Proof. destruct s; [discriminate|reflexivity]. Qed.

(** A string that starts with a digit is read by [parseInt] as the value of
    its leading digits. *)
Lemma parseInt_starts_with_digit (s : string) :
  Num.starts_with_digit s = true ->
  Num.parseInt s = Int (Z.of_N (Num.read_digits s 0)).
Proof.
  destruct s as [|c s]; [discriminate|].
  intros Hc. simpl in Hc.
  destruct c as [[] [] [] [] [] [] [] []]; try discriminate Hc;
    unfold Num.parseInt; simpl Str.drop_while; cbv iota beta;
    (change (Num.starts_with_digit (String _ s)) with true); reflexivity.
Qed.

Lemma parseInt_string_of_N (n : N) :
  Num.parseInt (Num.string_of_N n) = Int (Z.of_N n).
Proof.
  rewrite parseInt_starts_with_digit by apply string_of_N_starts_with_digit.
  by rewrite read_digits_string_of_N.
Qed.

(** ** The URL model and [parseBindAddr] *)

Lemma contains_rev_onto (c : ascii) (s acc : string) :
  Str.contains c (Str.rev_onto s acc) = Str.contains c s || Str.contains c acc.
Proof.
  revert acc. induction s as [|d s IH]; intros acc; simpl; [reflexivity|].
  rewrite IH. simpl. destruct (bool_decide (d = c)), (Str.contains c s); reflexivity.
Qed.

Lemma contains_drop_while (c : ascii) (p : ascii -> bool) (s : string) :
  Str.contains c s = false -> Str.contains c (Str.drop_while p s) = false.
Proof.
  induction s as [|d s IH]; simpl; [reflexivity|].
  intros H. destruct (p d); [|exact H].
  apply IH. by apply orb_false_elim in H as [_ H].
Qed.

Lemma contains_take_while (c : ascii) (p : ascii -> bool) (s : string) :
  Str.contains c s = false -> Str.contains c (Str.take_while p s) = false.
Proof.
  induction s as [|d s IH]; simpl; [reflexivity|].
  intros H. apply orb_false_elim in H as [Hd H].
  destruct (p d); [|reflexivity]. simpl. by rewrite Hd, IH.
Qed.

Lemma contains_filter (c : ascii) (p : ascii -> bool) (s : string) :
  Str.contains c s = false -> Str.contains c (Str.filter p s) = false.
Proof.
  induction s as [|d s IH]; simpl; [reflexivity|].
  intros H. apply orb_false_elim in H as [Hd H].
  destruct (p d); simpl; [by rewrite Hd, IH|by apply IH].
Qed.

Lemma contains_authority (c : ascii) (s : string) :
  Str.contains c s = false ->
  Str.contains c (URL.authority (URL.preprocess s)) = false.
Proof.
  intros H. unfold URL.authority, URL.preprocess.
  apply contains_take_while, contains_drop_while, contains_filter.
  unfold Str.rev. rewrite contains_rev_onto. simpl. rewrite orb_false_r.
  apply contains_drop_while. rewrite contains_rev_onto. simpl.
  by rewrite orb_false_r.
Qed.

Lemma contains_after_last_at (c : ascii) (s r : string) :
  Str.contains c s = false -> URL.after_last_at s = Some r ->
  Str.contains c r = false.
Proof.
  revert r. induction s as [|d s IH]; intros r H Hr; simpl in *; [discriminate|].
  apply orb_false_elim in H as [_ H].
  destruct (URL.after_last_at s) as [r'|].
  - injection Hr as <-. by apply IH.
  - destruct (bool_decide (d = "@"%char)); [|discriminate].
    by injection Hr as <-.
Qed.

Lemma split_host_without_colon (s : string) :
  Str.contains ":" s = false ->
  forall inside : bool, (URL.split_host inside s).2 = None.
Proof.
  induction s as [|d s IH]; intros H inside; simpl in *; [reflexivity|].
  apply orb_false_elim in H as [Hd H]. rewrite Hd. simpl.
  specialize (IH H).
  match goal with |- context [URL.split_host ?i s] =>
    specialize (IH i); destruct (URL.split_host i s) as [h p] end.
  exact IH.
Qed.

(** Without a colon in the address the port state is never entered. *)
Lemma host_and_port_without_colon (s : string) (b : string) (p : option string) :
  Str.contains ":" s = false -> URL.host_and_port s = Some (b, p) -> p = None.
Proof.
  intros H. unfold URL.host_and_port.
  pose proof (contains_authority ":" s H) as Ha.
  destruct (URL.after_last_at _) as [r|] eqn:Hr.
  - pose proof (contains_after_last_at _ _ _ Ha Hr) as Hc.
    destruct r as [|c r]; [discriminate|].
    cbn -[URL.split_host]. intros [= Hs].
    change p with (b, p).2. rewrite <- Hs.
    exact (split_host_without_colon _ Hc false).
  - cbn -[URL.split_host]. intros [= Hs].
    change p with (b, p).2. rewrite <- Hs.
    exact (split_host_without_colon _ Ha false).
Qed.

Lemma parse_port_range (digits : string) (n : N) :
  URL.parse_port digits = Some (Some n) -> (n <= 65535)%N.
Proof.
  unfold URL.parse_port. destruct (Str.forallb _ _); [|discriminate].
  destruct digits as [|c s]; [discriminate|].
  destruct (N.ltb_spec 65535 (Num.read_digits (String c s) 0)); [discriminate|].
  destruct (_ =? 80)%N; [discriminate|]. intros [= <-]. assumption.
Qed.

(** The [port] of a parsed URL is empty or the numeral of a 16 bit number. *)
Lemma parse_http_port (host_parse : string -> option string) (s : string) (u : URL.t) :
  URL.parse_http host_parse s = Some u ->
  URL.port u = EmptyString
  \/ exists n : N, (n <= 65535)%N /\ URL.port u = Num.string_of_N n.
Proof.
  unfold URL.parse_http.
  destruct (URL.host_and_port s) as [[buffer after_colon]|]; [simpl|discriminate].
  destruct buffer as [|c b]; [discriminate|].
  destruct (host_parse _) as [h|]; [simpl|discriminate].
  destruct after_colon as [digits|]; simpl.
  - destruct (URL.parse_port digits) as [[n|]|] eqn:Hp; simpl; try discriminate.
    + intros [= <-]. right. exists n. split; [|reflexivity].
      by apply parse_port_range with digits.
    + intros [= <-]. by left.
  - intros [= <-]. by left.
Qed.

(** Every port that [parseBindAddr] returns is a 16 bit number. *)
Lemma parseBindAddr_port_range (host_parse : string -> option string)
    (s h : string) (p : number) :
  parseBindAddr host_parse s = Return (h, p) ->
  exists z : Z, p = Int z /\ 0 <= z <= 65535.
Proof.
  unfold parseBindAddr.
  destruct (URL.parse_http host_parse s) as [u|] eqn:Hu; [|discriminate].
  intros [= _ <-].
  destruct (parse_http_port _ _ _ Hu) as [->|(n & Hn & ->)].
  - exists 80. simpl. split; [reflexivity|lia].
  - rewrite (starts_with_digit_truthy _ (string_of_N_starts_with_digit n)).
    rewrite parseInt_string_of_N. exists (Z.of_N n). split; [reflexivity|lia].
Qed.

(** C7. For every bind address that holds a host and no port component (no
    colon at all, or no colon after the host, or nothing after that colon),
    [parseBindAddr] returns that host with port 80, not 8080. *)
Theorem parseBindAddr_without_port (host_parse : string -> option string)
    (bindAddr h : string) :
  URL.hostname <$> URL.parse_http host_parse bindAddr = Some h ->
  (Str.contains ":" bindAddr = false
   \/ (exists b, URL.host_and_port bindAddr = Some (b, None))
   \/ (exists b, URL.host_and_port bindAddr = Some (b, Some EmptyString))) ->
  parseBindAddr host_parse bindAddr = Return (h, Int 80).
Proof.
  intros Hh Hport. unfold parseBindAddr.
  destruct (URL.parse_http host_parse bindAddr) as [u|] eqn:Hu; [|discriminate].
  injection Hh as <-.
  assert (Hp : URL.port u = EmptyString); [|by rewrite Hp].
  revert Hu. unfold URL.parse_http.
  destruct (URL.host_and_port bindAddr) as [[buffer after_colon]|] eqn:Hhp;
    [simpl|discriminate].
  assert (Hc : after_colon = None \/ after_colon = Some EmptyString).
  { destruct Hport as [Hno|[[b Hb]|[b Hb]]].
    - left. by eapply host_and_port_without_colon.
    - left. congruence.
    - right. congruence. }
  destruct buffer as [|c b]; [discriminate|].
  destruct (host_parse _) as [h|]; [simpl|discriminate].
  destruct Hc as [-> | ->]; simpl; by intros [= <-].
Qed.

(** The address of the specification, on the instance of the host parser. *)
Lemma parseBindAddr_without_port_witness :
  parseBindAddr URL.simple_host_parse "example.com" = Return ("example.com", Int 80).
Proof.
  apply parseBindAddr_without_port; [reflexivity|]. left. reflexivity.
Defined.

(** ** Bind address resolution *)

Section BindAddr.

Variable host_parse : string -> option string.

(** One application of [bindAddrFromArgs]: it returns when the [bind-addr]
    parses, and its port is, in this order, the [port] of the record, the
    value of [PORT], the port of the [bind-addr], the port it started from. *)
Lemma bindAddrFromArgs_port (w : World) (addr : Addr) (args : Args) :
  bind_addr_parses host_parse args ->
  exists a : Addr,
    bindAddrFromArgs host_parse w addr args = Return a
    /\ (forall q, Args.get_number args "port" = Some q -> port a = q)
    /\ (forall p, Args.get_number args "port" = None ->
                  World.env_truthy "PORT" w = Some p -> port a = Num.parseInt p)
    /\ (Args.get_number args "port" = None ->
        World.env_truthy "PORT" w = None ->
        port a = port addr \/ port_in_range (port a)).
Proof.
  unfold bind_addr_parses, bindAddrFromArgs. intros Hparse.
  assert (Hstep : exists a0 : Addr,
    match Args.get_string args "bind-addr" with
    | Some (String c s) =>
        hp ← parseBindAddr host_parse (String c s); Return (mkAddr hp.1 hp.2)
    | _ => Return addr
    end = Return a0 /\ (port a0 = port addr \/ port_in_range (port a0))).
  { destruct (Args.get_string args "bind-addr") as [[|c s]|];
      try (exists addr; split; [reflexivity|by left]).
    destruct (parseBindAddr host_parse (String c s)) as [[h p]|e] eqn:Hp.
    - exists (mkAddr h p). split; [reflexivity|]. right.
      by eapply parseBindAddr_port_range.
    - exfalso. unfold parseBindAddr in Hp. destruct Hparse as [u Hu].
      by rewrite Hu in Hp. }
  destruct Hstep as (a0 & -> & Ha0). cbn [mbind result_bind].
  eexists. split; [reflexivity|].
  destruct (Args.get_number args "port") as [q|]; simpl.
  - repeat split; [by intros ? [= ->]|done|done].
  - split; [done|]. split.
    + intros p _ ->. reflexivity.
    + intros _ ->. simpl.
      destruct (Args.get_string args "host") as [[|c s]|]; exact Ha0.
Qed.

Lemma bind_addr_of_parses (args : Args) :
  bind_addr_parses host_parse args ->
  match truthy_string args "bind-addr" with
  | Some s => exists hp, parseBindAddr host_parse s = Return hp
                         /\ bind_addr_of host_parse args = Some hp
  | None => bind_addr_of host_parse args = None
  end.
Proof.
  unfold bind_addr_parses, bind_addr_of, truthy_string.
  destruct (Args.get_string args "bind-addr") as [[|c s]|]; try done.
  intros [u Hu]. unfold parseBindAddr. rewrite Hu. by eexists.
Qed.

(** One application of [bindAddrFromArgs] when the [bind-addr] parses. *)
Lemma bindAddrFromArgs_resolved (w : World) (addr : Addr) (args : Args) :
  bind_addr_parses host_parse args ->
  bindAddrFromArgs host_parse w addr args
  = Return (mkAddr
              (first_of [truthy_string args "host";
                         fst <$> bind_addr_of host_parse args] (host addr))
              (first_of [Args.get_number args "port";
                         Num.parseInt <$> World.env_truthy "PORT" w;
                         snd <$> bind_addr_of host_parse args] (port addr))).
Proof.
  intros Hparse. apply bind_addr_of_parses in Hparse.
  unfold bindAddrFromArgs. unfold truthy_string in *. destruct addr as [h0 p0].
  destruct (Args.get_string args "bind-addr") as [[|c s]|];
    [|destruct Hparse as ([h p] & -> & Hparse)|]; rewrite Hparse;
    destruct (Args.get_string args "host") as [[|c' s']|],
      (World.env_truthy "PORT" w), (Args.get_number args "port");
    reflexivity.
Qed.

(** C1, as the code has it.  When [PORT] is set (to a non-empty value) and
    both bind addresses parse, the resolved port is the [port] field of the
    CLI record if it has one, and otherwise the value of [PORT] as [parseInt]
    reads it: [PORT] wins over both [bind-addr] and over the [port] of the
    config record, but not over the [port] of the CLI record.  It never wins
    over a host: the resolved host is the [host] of the CLI record, else the
    host of its [bind-addr], else the [host] of the config record, else the
    host of its [bind-addr], else [localhost], whatever [PORT] holds. *)
Theorem env_port_wins_except_over_cli_port (w : World) (cliArgs configArgs : Args)
    (p : string) :
  World.env_truthy "PORT" w = Some p ->
  (Args.get_number cliArgs "port" = None -> is_safe_number (Num.parseInt p) = true) ->
  bind_addr_parses host_parse configArgs ->
  bind_addr_parses host_parse cliArgs ->
  bindAddrFromAllSources host_parse w cliArgs configArgs
  = Return (first_of [truthy_string cliArgs "host";
                      fst <$> bind_addr_of host_parse cliArgs;
                      truthy_string configArgs "host";
                      fst <$> bind_addr_of host_parse configArgs] "localhost",
            default (Num.parseInt p) (Args.get_number cliArgs "port")).
Proof.
  intros Henv _ Hcfg Hcli. unfold bindAddrFromAllSources.
  rewrite (bindAddrFromArgs_resolved w _ _ Hcfg). cbn [mbind result_bind].
  rewrite (bindAddrFromArgs_resolved w _ _ Hcli). cbn [mbind result_bind host port].
  rewrite Henv. cbn [fmap option_fmap option_map first_of].
  by destruct (Args.get_number cliArgs "port").
Qed.

(** C4, as the code has it.  The resolved port is an integer from 0 to 65535
    provided that the [port] fields of the two records and the value of
    [PORT], where present, are themselves in that range: these are stored
    unchecked, while a port taken from a [bind-addr] or from the default is
    always in range. *)
Theorem resolved_port_in_range (w : World) (cliArgs configArgs : Args) :
  (forall q, Args.get_number cliArgs "port" = Some q -> port_in_range q) ->
  (forall q, Args.get_number configArgs "port" = Some q -> port_in_range q) ->
  (forall p, World.env_truthy "PORT" w = Some p -> port_in_range (Num.parseInt p)) ->
  bind_addr_parses host_parse configArgs ->
  bind_addr_parses host_parse cliArgs ->
  exists (h : string) (q : number),
    bindAddrFromAllSources host_parse w cliArgs configArgs = Return (h, q)
    /\ port_in_range q.
Proof.
  intros Hcliport Hcfgport Henv Hcfg Hcli. unfold bindAddrFromAllSources.
  assert (Hone : forall addr args,
    port_in_range (port addr) ->
    (forall q, Args.get_number args "port" = Some q -> port_in_range q) ->
    bind_addr_parses host_parse args ->
    exists a, bindAddrFromArgs host_parse w addr args = Return a
              /\ port_in_range (port a)).
  { intros addr args Haddr Hport Hparse.
    destruct (bindAddrFromArgs_port w addr args Hparse) as (a & Ha & Hq & Hp & Hd).
    exists a. split; [exact Ha|].
    destruct (Args.get_number args "port") as [q|] eqn:Eq.
    - rewrite (Hq q eq_refl). by apply Hport.
    - destruct (World.env_truthy "PORT" w) as [p|] eqn:Ep.
      + rewrite (Hp p eq_refl eq_refl). by apply Henv.
      + destruct (Hd eq_refl eq_refl) as [-> | Hr]; assumption. }
  destruct (Hone (mkAddr "localhost" (Int 8080)) configArgs) as (a1 & -> & Ha1);
    [exists 8080; split; [reflexivity|lia] | assumption | assumption |].
  cbn [mbind result_bind].
  destruct (Hone a1 cliArgs) as (a2 & -> & Ha2); [assumption..|].
  cbn [mbind result_bind]. by exists (host a2), (port a2).
Qed.

End BindAddr.

(** C1 fails as stated: with the config file [bind-addr: 0.0.0.0:9000], the
    command line [--port=9999] and [PORT=7777], the resolved port is 9999. *)
Lemma env_port_does_not_win_over_cli_port :
  let w := Example.world {[ "PORT" := "7777" ]} ∅ in
  env w !! "PORT" = Some "7777"
  /\ Num.parseInt "7777" = Int 7777
  /\ (cliArgs ← Example.parse ["--port=9999"] None;
      configArgs ← Example.argsFromConfig "config.yaml"
                     (YMapping [("bind-addr", YString "0.0.0.0:9000")]);
      Example.bindAddrFromAllSources w cliArgs configArgs)
     = Return ("0.0.0.0", Int 9999).
Proof. repeat split; vm_compute; reflexivity. Qed.

Lemma env_port_wins_except_over_cli_port_witness :
  Example.bindAddrFromAllSources (Example.world {[ "PORT" := "7777" ]} ∅)
    {[ "_" := VStringList [] ]}
    {[ "_" := VStringList []; "bind-addr" := VString "0.0.0.0:9000";
       "port" := VNumber (Int 9999) ]}
  = Return ("0.0.0.0", Int 7777).
Proof.
  etrans.
  - apply (env_port_wins_except_over_cli_port URL.simple_host_parse
             (Example.world {[ "PORT" := "7777" ]} ∅)
             {[ "_" := VStringList [] ]}
             {[ "_" := VStringList []; "bind-addr" := VString "0.0.0.0:9000";
                "port" := VNumber (Int 9999) ]} "7777").
    + reflexivity.
    + intros _. reflexivity.
    + vm_compute. eexists. reflexivity.
    + vm_compute. exact I.
  - vm_compute. reflexivity.
Defined.

(** C4 fails as stated: [--port=70000] resolves to port 70000, and so does
    [PORT=70000]. *)
Lemma resolved_port_out_of_range :
  (cliArgs ← Example.parse ["--port=70000"] None;
   Example.bindAddrFromAllSources (Example.world ∅ ∅) cliArgs {[ "_" := VStringList [] ]})
  = Return ("localhost", Int 70000)
  /\ Example.bindAddrFromAllSources (Example.world {[ "PORT" := "70000" ]} ∅)
       {[ "_" := VStringList [] ]} {[ "_" := VStringList [] ]}
     = Return ("localhost", Int 70000)
  /\ ~ port_in_range (Int 70000).
Proof.
  split; [vm_compute; reflexivity|]. split; [vm_compute; reflexivity|].
  intros (z & [= <-] & Hz). lia.
Qed.

Lemma resolved_port_in_range_witness :
  exists (h : string) (q : number),
    Example.bindAddrFromAllSources (Example.world {[ "PORT" := "7777" ]} ∅)
      {[ "_" := VStringList []; "port" := VNumber (Int 9999) ]}
      {[ "_" := VStringList []; "bind-addr" := VString "0.0.0.0:9000" ]}
    = Return (h, q) /\ port_in_range q.
Proof.
  destruct (resolved_port_in_range URL.simple_host_parse
              (Example.world {[ "PORT" := "7777" ]} ∅)
              {[ "_" := VStringList []; "port" := VNumber (Int 9999) ]}
              {[ "_" := VStringList []; "bind-addr" := VString "0.0.0.0:9000" ]})
    as (h & q & Hq & Hr).
  - intros q Hq. vm_compute in Hq. injection Hq as <-.
    exists 9999. split; [reflexivity|lia].
  - intros q Hq. vm_compute in Hq. discriminate Hq.
  - intros p Hp. vm_compute in Hp. injection Hp as <-.
    exists 7777. split; [reflexivity|lia].
  - vm_compute. eexists. reflexivity.
  - vm_compute. exact I.
  - exists h, q. split; [exact Hq|exact Hr].
Defined.

(** ** The parser, token by token *)

Lemma split_without_sep (sep : ascii) (s : string) :
  Str.contains sep s = false -> Str.split sep s = [s].
Proof.
  induction s as [|c s IH]; simpl; [reflexivity|].
  intros H. apply orb_false_elim in H as [Hc H].
  rewrite Hc, (IH H). reflexivity.
Qed.

Lemma split_app_sep (sep : ascii) (k v : string) :
  Str.contains sep k = false ->
  Str.split sep (k +:+ String sep v) = k :: Str.split sep v.
Proof.
  induction k as [|c k IH]; intros H.
  - change (EmptyString +:+ String sep v) with (String sep v).
    simpl. by rewrite bool_decide_eq_true_2.
  - simpl in H. apply orb_false_elim in H as [Hc H].
    change (String c k +:+ String sep v) with (String c (k +:+ String sep v)).
    simpl. rewrite Hc, (IH H). reflexivity.
Qed.

Lemma split_nonempty (sep : ascii) (s : string) : Str.split sep s <> [].
Proof.
  destruct s as [|c s]; simpl; [discriminate|].
  destruct (bool_decide (c = sep)); [discriminate|].
  destruct (Str.split sep s); discriminate.
Qed.

Lemma inline_value_without_eq (v : string) :
  Str.contains "=" v = false -> inline_value v = v.
Proof. intros H. unfold inline_value. by rewrite split_without_sep. Qed.

Section Parser.

Variable AuthType : list string.
Variable path_resolve : string -> string.

(** Every name of the catalog is non-empty and free of [=]. *)
Lemma option_names_plain :
  Forall (fun kv : string * Option =>
            Str.truthy kv.1 = true /\ Str.contains "=" kv.1 = false) (options AuthType).
Proof. repeat (constructor; [split; reflexivity|]). constructor. Qed.

Lemma options_get_Own (key : string) (o : Option) :
  options_get AuthType key = Own o -> (key, o) ∈ (options AuthType).
Proof.
  unfold options_get.
  destruct (list_find _ _) as [[i [k o']]|] eqn:Hf.
  - intros [= <-]. apply list_find_Some in Hf as (Hi & Hk & _).
    simpl in Hk. subst k. by eapply list_elem_of_lookup_2.
  - by destruct (bool_decide _).
Qed.

Lemma option_key_plain (key : string) (o : Option) :
  options_get AuthType key = Own o ->
  Str.truthy key = true /\ Str.contains "=" key = false.
Proof.
  intros H%options_get_Own.
  pose proof option_names_plain as Hall.
  rewrite Forall_forall in Hall. exact (Hall _ H).
Qed.

Lemma startsWith_dashes (s : string) : Str.startsWith ("--" +:+ s) "--" = true.
Proof. reflexivity. Qed.

Lemma startsWith_dash (s : string) : Str.startsWith ("--" +:+ s) "-" = true.
Proof. reflexivity. Qed.

Lemma key_value_bare (key : string) :
  Str.contains "=" key = false ->
  key_value AuthType ("--" +:+ key) = (Some key, None).
Proof.
  intros H. unfold key_value. rewrite startsWith_dashes.
  change (Str.drop 2 ("--" +:+ key)) with key.
  unfold Str.split_limit. by rewrite split_without_sep.
Qed.

Lemma key_value_inline (key v : string) :
  Str.contains "=" key = false ->
  key_value AuthType ("--" +:+ key +:+ "=" +:+ v)
  = (Some key, Some (inline_value v)).
Proof.
  intros H. unfold key_value. rewrite startsWith_dashes.
  change (Str.drop 2 ("--" +:+ key +:+ "=" +:+ v)) with (key +:+ String "=" v).
  unfold Str.split_limit, inline_value. rewrite split_app_sep by assumption.
  pose proof (split_nonempty "=" v).
  destruct (Str.split "=" v) as [|piece pieces]; [done|reflexivity].
Qed.

(** A token that is not the separator and starts with a dash is handed to
    [parse_option], and the loop goes on after it. *)
Lemma parse_loop_option (opts : option string) (arg : string) (rest : list string)
    (args : Args) :
  Str.startsWith arg "-" = true -> arg <> "--" ->
  parse_loop AuthType path_resolve opts (arg :: rest) false args
  = match parse_option AuthType path_resolve opts arg (head rest) args with
    | Throw e => Throw e
    | Return (args', consumed) =>
        parse_loop AuthType path_resolve opts (if consumed then tail rest else rest) false args'
    end.
Proof.
  intros Hdash Hsep. cbn [parse_loop].
  unfold Str.eqb. rewrite bool_decide_eq_false_2 by assumption.
  rewrite Hdash. cbn [negb andb].
  destruct (parse_option AuthType path_resolve opts arg (head rest) args) as [[args' consumed]|e];
    [|reflexivity].
  destruct rest as [|next rest]; by destruct consumed.
Qed.

Lemma long_flag_not_separator (key suffix : string) :
  Str.truthy key = true -> "--" +:+ key +:+ suffix <> "--".
Proof. destruct key; [discriminate|]. intros _ [=]. Qed.

(** What [parse_option] does with a long flag of a catalog entry. *)
Lemma parse_option_long (opts : option string) (arg key : string) (o : Option)
    (inline next : option string) (args : Args) :
  options_get AuthType key = Own o ->
  key_value AuthType arg = (Some key, inline) ->
  parse_option AuthType path_resolve opts arg next args
  = if Str.eqb key "password" && negb (bool_decide (is_Some (configFile opts)))
    then Throw RestrictedOptionError
    else if is_boolean (Some (type o))
    then Return (<[key := VBoolean true]> args, false)
    else
      args' ← assign path_resolve opts key (Own o) (capture inline next).1 args;
      Return (args', (capture inline next).2).
Proof.
  intros Hget Hkv. unfold parse_option. rewrite Hkv.
  cbv beta iota zeta. cbn [default from_option]. unfold id.
  destruct (option_key_plain _ _ Hget) as [-> _]. rewrite Hget.
  rewrite bool_decide_eq_false_2 by discriminate. cbn [negb orb property_type].
  destruct (_ && _); [reflexivity|].
  destruct (is_boolean _); [reflexivity|].
  by destruct (capture inline next).
Qed.

End Parser.

(** ** Invariants of the parsed record *)

Section Invariant.

Variable AuthType : list string.
Variable path_resolve : string -> string.

Lemma store_closed (I : Args -> Prop) (opts : option string) (key v : string)
    (o : Option) (args args' : Args) :
  typed_insert_closed AuthType I -> options_get AuthType key = Own o ->
  store opts key (type o) v args = Return args' -> I args -> I args'.
Proof.
  intros HI Hget Hstore Hargs. unfold store in Hstore.
  destruct (type o) as [| | | | |values] eqn:Ht.
  - by injection Hstore as <-.
  - injection Hstore as <-. apply (HI key o); [done|by rewrite Ht|done].
  - injection Hstore as <-. apply (HI key o); [done|by rewrite Ht|done].
  - destruct (isNaN (Num.parseInt v)) eqn:Hnan; [discriminate|].
    injection Hstore as <-. apply (HI key o); [done|by rewrite Ht; simpl; rewrite Hnan|done].
  - injection Hstore as <-. apply (HI key o); [done|by rewrite Ht|done].
  - destruct (bool_decide (v ∈ values)) eqn:Hin; [|discriminate].
    injection Hstore as <-. apply (HI key o); [done|by rewrite Ht|done].
Qed.

Lemma parse_option_closed (I : Args -> Prop) (opts : option string) (arg : string)
    (next : option string) (args args' : Args) (consumed : bool) :
  typed_insert_closed AuthType I ->
  parse_option AuthType path_resolve opts arg next args = Return (args', consumed) ->
  I args -> I args'.
Proof.
  intros HI Hopt Hargs. unfold parse_option in Hopt.
  destruct (key_value AuthType arg) as [k inline].
  set (key := default EmptyString k) in *.
  destruct (negb (Str.truthy key) || _); [discriminate|].
  destruct (_ && _); [discriminate|].
  destruct (options_get AuthType key) as [o| |] eqn:Hget.
  - cbn [property_type] in Hopt.
    destruct (is_boolean (Some (type o))) eqn:Hb.
    + injection Hopt as <- _. apply (HI key o); [done| |done].
      by destruct (type o).
    + destruct (capture inline next) as [value c].
      unfold assign in Hopt. cbn [property_type property_path] in Hopt.
      destruct value as [[|ch v]|].
      * destruct (is_optional_string (Some (type o))) eqn:Hopt_s; [|discriminate].
        injection Hopt as <- _. apply (HI key o); [done| |done].
        by destruct (type o).
      * destruct (_ && _); [by injection Hopt as <- _|].
        destruct (store _ _ _ _ _) as [a|e] eqn:Hstore; [|discriminate].
        injection Hopt as <- _. by eapply store_closed.
      * destruct (is_optional_string (Some (type o))) eqn:Hopt_s; [|discriminate].
        injection Hopt as <- _. apply (HI key o); [done| |done].
        by destruct (type o).
  - cbn [property_type is_boolean] in Hopt.
    destruct (capture inline next) as [value c].
    unfold assign in Hopt. cbn [property_type property_path is_optional_string] in Hopt.
    by destruct value as [[|ch v]|].
  - cbn [property_type is_boolean] in Hopt.
    destruct (capture inline next) as [value c].
    unfold assign in Hopt. cbn [property_type property_path is_optional_string] in Hopt.
    by destruct value as [[|ch v]|].
Qed.

(** A property that every option token and every positional token preserve
    holds of the result of the loop when it holds at the start. *)
Lemma parse_loop_preserves (I : Args -> Prop) (opts : option string) :
  (forall arg next args args' consumed,
     parse_option AuthType path_resolve opts arg next args = Return (args', consumed) ->
     I args -> I args') ->
  (forall arg args, I args -> I (Args.push "_" arg args)) ->
  forall (argv : list string) (ended : bool) (args r : Args),
    parse_loop AuthType path_resolve opts argv ended args = Return r ->
    I args -> I r.
Proof.
  intros Hoption Hpush argv.
  cut ((forall ended args r,
          parse_loop AuthType path_resolve opts argv ended args = Return r -> I args -> I r)
       /\ (forall ended args r,
          parse_loop AuthType path_resolve opts (tail argv) ended args = Return r ->
          I args -> I r)); [tauto|].
  induction argv as [|arg rest [IHrest IHtail]].
  - split; intros ended args r [= <-]; done.
  - split; [|exact IHrest]. intros ended args r Hloop Hargs.
    cbn [parse_loop] in Hloop.
    destruct (negb ended && Str.eqb arg "--"); [by eapply IHrest|].
    destruct (negb ended && Str.startsWith arg "-").
    + destruct (parse_option _ _ _ _ _ _) as [[args' consumed]|e] eqn:Hopt;
        [|discriminate].
      pose proof (Hoption _ _ _ _ _ Hopt Hargs) as Hargs'.
      destruct rest as [|next rest']; [by eapply IHrest|].
      destruct consumed; [by eapply IHtail|by eapply IHrest].
    + eapply IHrest; [exact Hloop|]. by apply Hpush.
Qed.

(** So does a property that survives every typed assignment. *)
Lemma parse_loop_closed (I : Args -> Prop) (opts : option string) :
  typed_insert_closed AuthType I ->
  forall (argv : list string) (ended : bool) (args r : Args),
    parse_loop AuthType path_resolve opts argv ended args = Return r ->
    I args -> I r.
Proof.
  intros HI. apply parse_loop_preserves.
  - intros arg next args args' consumed. by apply parse_option_closed.
  - intros arg args. by apply (HI "_" (opt TStringList)).
Qed.

Lemma well_typed_closed : typed_insert_closed AuthType (well_typed AuthType).
Proof.
  intros key o v args Hget Hv Hargs. apply map_Forall_insert_2; [|done].
  by exists o.
Qed.

Lemma key_present_closed (k : string) :
  typed_insert_closed AuthType (fun args => is_Some (args !! k)).
Proof.
  intros key o v args _ _ Hk. rewrite lookup_insert_is_Some.
  destruct (decide (key = k)); [by left|by right].
Qed.

(** A boolean option that is set stays set. *)
Lemma boolean_set_closed (k : string) (ok : Option) :
  options_get AuthType k = Own ok -> type ok = TBoolean ->
  typed_insert_closed AuthType (fun args => args !! k = Some (VBoolean true)).
Proof.
  intros Hk Hb key o v args Hget Hv Hargs.
  destruct (decide (key = k)) as [->|Hne].
  - rewrite lookup_insert_eq. rewrite Hk in Hget. injection Hget as <-.
    rewrite Hb in Hv. by destruct v as [[]| | | |].
  - by rewrite lookup_insert_ne.
Qed.

(** The record that [parse] returns is well typed and holds the positional
    list. *)
Lemma parse_well_typed (argv : list string) (opts : option string) (args : Args) :
  parse AuthType path_resolve argv opts = Return args ->
  well_typed AuthType args /\ exists l, args !! "_" = Some (VStringList l).
Proof.
  intros Hparse. unfold parse in Hparse.
  assert (Hwt : well_typed AuthType args).
  { eapply (parse_loop_closed _ _ well_typed_closed); [exact Hparse|].
    apply map_Forall_singleton. by exists (opt TStringList). }
  split; [exact Hwt|].
  assert (Hin : is_Some (args !! "_")).
  { eapply (parse_loop_closed _ _ (key_present_closed "_")); [exact Hparse|].
    by rewrite lookup_singleton_eq. }
  destruct Hin as [v Hv]. destruct (Hwt _ _ Hv) as (o & Hget & Hty).
  vm_compute in Hget. injection Hget as <-.
  destruct v; try discriminate Hty. by eexists.
Qed.

(** In a well typed record a boolean option is truthy as soon as it is
    present. *)
Lemma well_typed_boolean_truthy (args : Args) (key : string) (o : Option) :
  well_typed AuthType args ->
  options_get AuthType key = Own o -> type o = TBoolean ->
  Args.truthy args key = bool_decide (is_Some (args !! key)).
Proof.
  intros Hwt Hget Hb. unfold Args.truthy.
  destruct (args !! key) as [v|] eqn:Hv.
  - rewrite bool_decide_eq_true_2 by by eexists.
    destruct (Hwt _ _ Hv) as (o' & Hget' & Hty).
    rewrite Hget in Hget'. injection Hget' as <-. rewrite Hb in Hty.
    by destruct v as [[]| | | |].
  - rewrite bool_decide_eq_false_2; [done|]. by intros [? ?].
Qed.

End Invariant.

(** ** Single options *)

Section Options.

Variable AuthType : list string.
Variable path_resolve : string -> string.

Lemma not_boolean_option (o : Option) :
  type o <> TBoolean -> is_boolean (Some (type o)) = false.
Proof. by destruct (type o). Qed.

Lemma boolean_not_password (key : string) (o : Option) :
  options_get AuthType key = Own o -> type o = TBoolean ->
  Str.eqb key "password" = false.
Proof.
  intros Hget Ht. unfold Str.eqb. apply bool_decide_eq_false_2. intros ->.
  vm_compute in Hget. injection Hget as <-. discriminate Ht.
Qed.

(** The long flag of a boolean option, with or without an inline value. *)
Lemma parse_loop_boolean (opts : option string) (key suffix : string) (o : Option)
    (rest : list string) (args : Args) :
  options_get AuthType key = Own o -> type o = TBoolean ->
  (exists inline, key_value AuthType ("--" +:+ key +:+ suffix) = (Some key, inline)) ->
  parse_loop AuthType path_resolve opts (("--" +:+ key +:+ suffix) :: rest) false args
  = parse_loop AuthType path_resolve opts rest false (<[key := VBoolean true]> args).
Proof.
  intros Hget Ht [inline Hkv].
  destruct (option_key_plain _ _ _ Hget) as [Hkey _].
  rewrite parse_loop_option;
    [|apply startsWith_dash|by apply long_flag_not_separator].
  rewrite (parse_option_long _ _ _ _ _ _ _ _ _ Hget Hkv).
  rewrite (boolean_not_password _ _ Hget Ht), Ht. reflexivity.
Qed.

(** The options that have a short flag are boolean. *)
Lemma options_find_short_boolean (s key : string) :
  options_find_short AuthType s = Some key ->
  s ∈ ["h"; "v"; "n"; "r"; "vvv"]
  /\ exists o, options_get AuthType key = Own o /\ type o = TBoolean.
Proof.
  unfold options_find_short.
  destruct (list_find _ _) as [[i [k o]]|] eqn:Hf; [|discriminate].
  intros [= ->]. apply list_find_Some in Hf as (Hi & Hs & _). simpl in Hs.
  do 34 (destruct i as [|i];
    [injection Hi as <- <-;
     first [discriminate Hs
           |injection Hs as <-;
            split; [set_solver|eexists; split; [vm_compute; reflexivity|reflexivity]]]|]).
  discriminate Hi.
Qed.

Lemma capture_dash_not_consumed (inline next : option string) :
  (next = None \/ exists n, next = Some n /\ Str.startsWith n "-" = true) ->
  (capture inline next).2 = false.
Proof.
  intros Hnext. destruct inline; [reflexivity|].
  destruct Hnext as [->|(n & -> & Hn)]; [reflexivity|].
  unfold capture. rewrite Hn. by destruct (Str.truthy n).
Qed.

Lemma parse_option_dash_not_consumed (opts : option string) (arg : string)
    (next : option string) (args args' : Args) (consumed : bool) :
  (next = None \/ exists n, next = Some n /\ Str.startsWith n "-" = true) ->
  parse_option AuthType path_resolve opts arg next args = Return (args', consumed) ->
  consumed = false.
Proof.
  intros Hnext. unfold parse_option.
  destruct (key_value AuthType arg) as [k inline].
  destruct (_ || _); [discriminate|]. destruct (_ && _); [discriminate|].
  destruct (is_boolean _); [by intros [= _ <-]|].
  pose proof (capture_dash_not_consumed inline next Hnext) as Hc.
  destruct (capture inline next) as [value c]. simpl in Hc. subst c.
  destruct (assign _ _ _ _ _ _); [by intros [= _ <-]|discriminate].
Qed.

Lemma configFileArgv_tokens (config : yaml) :
  configFileArgv config = map config_token (Yaml.entries config).
Proof.
  unfold configFileArgv. apply map_ext. intros [k y]. reflexivity.
Qed.

Lemma config_token_dash (entry : string * yaml) :
  Str.startsWith (config_token entry) "-" = true.
Proof. destruct entry as [k [| |[]| | | |]]; reflexivity. Qed.

Lemma config_token_not_separator (entry : string * yaml) :
  Str.truthy entry.1 = true -> config_token entry <> "--".
Proof.
  destruct entry as [[|c k] y]; [discriminate|]. intros _.
  destruct y as [| |[]| | | |]; intros [=].
Qed.

(** Among the tokens of a config mapping without empty keys, the token of a
    boolean entry sets its option, and the option stays set. *)
Lemma config_boolean_entry (opts : option string) (key : string) (o : Option)
    (b : bool) (entries : list (string * yaml)) :
  options_get AuthType key = Own o -> type o = TBoolean ->
  Forall (fun entry => Str.truthy entry.1 = true) entries ->
  forall args r : Args,
    parse_loop AuthType path_resolve opts (map config_token entries) false args
    = Return r ->
    (key, YBoolean b) ∈ entries \/ args !! key = Some (VBoolean true) ->
    r !! key = Some (VBoolean true).
Proof.
  intros Hget Ht Hkeys. induction Hkeys as [|entry entries Hentry _ IH];
    intros args r Hloop Hin.
  - injection Hloop as <-. destruct Hin as [Hin|Hin]; [|done].
    by apply elem_of_nil in Hin.
  - cbn [map] in Hloop.
    rewrite parse_loop_option in Hloop
      by (by apply config_token_dash || by apply config_token_not_separator).
    destruct (parse_option _ _ _ _ _ _) as [[args' consumed]|e] eqn:Hopt;
      [|discriminate].
    assert (consumed = false) as ->.
    { eapply parse_option_dash_not_consumed; [|exact Hopt].
      destruct entries as [|next entries']; [by left|right].
      eexists. split; [reflexivity|apply config_token_dash]. }
    apply (IH _ _ Hloop).
    destruct Hin as [[<-|Hin]%elem_of_cons|Hset]; [right|by left|right].
    + destruct (option_key_plain _ _ _ Hget) as [_ Heq].
      assert (Hkv : exists inline, key_value AuthType (config_token (key, YBoolean b))
                                   = (Some key, inline)).
      { destruct b; eexists; [by apply key_value_bare|by apply key_value_inline]. }
      destruct Hkv as [inline Hkv].
      rewrite (parse_option_long _ _ _ _ _ _ _ _ _ Hget Hkv) in Hopt.
      rewrite (boolean_not_password _ _ Hget Ht), Ht in Hopt.
      injection Hopt as <-. by rewrite lookup_insert_eq.
    + by eapply (parse_option_closed _ _ _ _ _ _ _ _ _
                   (boolean_set_closed _ _ _ Hget Ht) Hopt).
Qed.

(** C10, as the code has it.  Before option parsing has ended, a boolean
    option is set to [true] by its flag: by the long flag alone, by the long
    flag with any inline value (which is ignored), and by its short flag.  So
    the config entry [key: false], which becomes the token [--key=false],
    yields a record in which the option is [true]: alone in the document, and
    among other entries too, as long as no entry has the empty key (whose
    token [--] would end option parsing). *)
Theorem boolean_flag_ignores_value (opts : option string) (key : string) (o : Option)
    (rest : list string) (args : Args) :
  options_get AuthType key = Own o -> type o = TBoolean ->
  parse_loop AuthType path_resolve opts (("--" +:+ key) :: rest) false args
  = parse_loop AuthType path_resolve opts rest false (<[key := VBoolean true]> args)
  /\ (forall v : string,
       parse_loop AuthType path_resolve opts (("--" +:+ key +:+ "=" +:+ v) :: rest) false args
       = parse_loop AuthType path_resolve opts rest false (<[key := VBoolean true]> args))
  /\ (forall s : string,
       options_find_short AuthType s = Some key ->
       parse_loop AuthType path_resolve opts (("-" +:+ s) :: rest) false args
       = parse_loop AuthType path_resolve opts rest false (<[key := VBoolean true]> args))
  /\ configFileArgv (YMapping [(key, YBoolean false)]) = ["--" +:+ key +:+ "=false"]
  /\ (forall configPath : string,
       argsFromConfig AuthType path_resolve configPath (YMapping [(key, YBoolean false)])
       = Return (<["config" := VString configPath]>
                   (<[key := VBoolean true]> {[ "_" := VStringList [] ]})))
  /\ (forall (configPath : string) (entries : list (string * yaml)) (r : Args),
       (key, YBoolean false) ∈ entries ->
       Forall (fun entry => Str.truthy entry.1 = true) entries ->
       argsFromConfig AuthType path_resolve configPath (YMapping entries) = Return r ->
       r !! key = Some (VBoolean true)).
Proof.
  intros Hget Ht.
  destruct (option_key_plain _ _ _ Hget) as [Hkey Heq].
  assert (Hinline : forall opts rest args v,
    parse_loop AuthType path_resolve opts (("--" +:+ key +:+ "=" +:+ v) :: rest) false args
    = parse_loop AuthType path_resolve opts rest false (<[key := VBoolean true]> args)).
  { intros opts' rest' args' v.
    apply (parse_loop_boolean opts' key ("=" +:+ v) o); [done..|].
    eexists. by apply key_value_inline. }
  split; [|split; [apply Hinline|split; [|split; [reflexivity|split]]]].
  - rewrite parse_loop_option; [|apply startsWith_dash|].
    + rewrite (parse_option_long _ _ _ _ _ _ None _ _ Hget) by by apply key_value_bare.
      rewrite (boolean_not_password _ _ Hget Ht), Ht. reflexivity.
    + destruct key; [discriminate|]. intros [=].
  - intros s Hs.
    destruct (options_find_short_boolean _ _ Hs) as [Hin _].
    assert (Hkv : key_value AuthType ("-" +:+ s) = (Some key, None)).
    { unfold key_value.
      replace (Str.startsWith ("-" +:+ s) "--") with false; [by rewrite <- Hs|].
      repeat (apply elem_of_cons in Hin as [->|Hin]; [reflexivity|]).
      by apply elem_of_nil in Hin. }
    rewrite parse_loop_option.
    + rewrite (parse_option_long _ _ _ _ _ _ _ _ _ Hget Hkv).
      rewrite (boolean_not_password _ _ Hget Ht), Ht. reflexivity.
    + reflexivity.
    + repeat (apply elem_of_cons in Hin as [->|Hin]; [discriminate|]).
      by apply elem_of_nil in Hin.
  - intros configPath. unfold argsFromConfig. cbn [Yaml.truthy Yaml.is_string negb orb].
    unfold parse. cbn [configFileArgv Yaml.entries map Yaml.to_string].
    rewrite Hinline. reflexivity.
  - intros configPath entries r Hin Hkeys. unfold argsFromConfig.
    cbn [Yaml.truthy Yaml.is_string negb orb]. unfold parse.
    rewrite configFileArgv_tokens. cbn [Yaml.entries].
    destruct (parse_loop _ _ _ _ _ _) as [r'|e] eqn:Hloop; [|discriminate].
    intros [= <-]. rewrite lookup_insert_ne.
    + eapply config_boolean_entry; [exact Hget|exact Ht|exact Hkeys|exact Hloop|].
      by left.
    + intros <-. vm_compute in Hget. injection Hget as <-. discriminate Ht.
Qed.

End Options.

(** C10 fails as stated: after the token [--] a flag is a positional
    argument, and the config entry with the empty key and the value [true]
    becomes that token.  In the document [{"": true, json: false}] the entry
    [json: false] does become [--json=false], which lands in the positional
    list, and [json] is not set. *)
Lemma boolean_entry_after_empty_key_not_set :
  options_get Example.AuthType "json" = Own (opt TBoolean)
  /\ configFileArgv (YMapping [("", YBoolean true); ("json", YBoolean false)])
     = ["--"; "--json=false"]
  /\ Example.argsFromConfig "config.yaml"
       (YMapping [("", YBoolean true); ("json", YBoolean false)])
     = Return (<["config" := VString "config.yaml"]>
                 {[ "_" := VStringList ["--json=false"] ]})
  /\ (<["config" := VString "config.yaml"]>
        {[ "_" := VStringList ["--json=false"] ]} : Args) !! "json" = None
  /\ Example.parse ["--"; "--json"] None = Return {[ "_" := VStringList ["--json"] ]}.
Proof. repeat split; vm_compute; reflexivity. Qed.

Lemma boolean_flag_ignores_value_witness :
  Example.parse ["--json=false"; "-v"; "--open"] None
  = Return (<["open" := VBoolean true]>
              (<["version" := VBoolean true]>
                 (<["json" := VBoolean true]> {[ "_" := VStringList [] ]})))
  /\ Example.argsFromConfig "config.yaml" (YMapping [("json", YBoolean false)])
     = Return (<["config" := VString "config.yaml"]>
                 (<["json" := VBoolean true]> {[ "_" := VStringList [] ]})).
Proof.
  split.
  - unfold Example.parse, parse.
    destruct (boolean_flag_ignores_value Example.AuthType Example.path_resolve None
                "json" (opt TBoolean) ["-v"; "--open"] {[ "_" := VStringList [] ]}
                eq_refl eq_refl) as (_ & Hjson & _).
    specialize (Hjson "false").
    change ("--" +:+ "json" +:+ "=" +:+ "false") with "--json=false" in Hjson.
    rewrite Hjson.
    destruct (boolean_flag_ignores_value Example.AuthType Example.path_resolve None
                "version" (opt_short TBoolean "v") ["--open"]
                (<["json" := VBoolean true]> {[ "_" := VStringList [] ]})
                eq_refl eq_refl) as (_ & _ & Hv & _).
    specialize (Hv "v" eq_refl). change ("-" +:+ "v") with "-v" in Hv.
    rewrite Hv.
    destruct (boolean_flag_ignores_value Example.AuthType Example.path_resolve None
                "open" (opt TBoolean) []
                (<["version" := VBoolean true]>
                   (<["json" := VBoolean true]> {[ "_" := VStringList [] ]}))
                eq_refl eq_refl) as (Hopen & _).
    change ("--" +:+ "open") with "--open" in Hopen.
    rewrite Hopen. reflexivity.
  - apply (boolean_flag_ignores_value Example.AuthType Example.path_resolve None
             "json" (opt TBoolean) [] ∅ eq_refl eq_refl).
Defined.

(** ** Options that take a value *)

Section Values.

Variable AuthType : list string.
Variable path_resolve : string -> string.

Lemma capture_none (next : option string) :
  (next = None \/ exists n, next = Some n /\ Str.startsWith n "-" = true) ->
  capture None next = (None, false).
Proof.
  intros [->|(n & -> & Hn)]; [reflexivity|].
  unfold capture. rewrite Hn. by destruct (Str.truthy n).
Qed.

Lemma capture_next (n : string) :
  Str.truthy n = true -> Str.startsWith n "-" = false ->
  capture None (Some n) = (Some n, true).
Proof. intros Hn Hd. unfold capture. by rewrite Hn, Hd. Qed.

(** The only number option is [port], which is not a path. *)
Lemma number_option (key : string) (o : Option) :
  options_get AuthType key = Own o -> type o = TNumber ->
  key = "port" /\ o = opt TNumber.
Proof.
  intros H%options_get_Own Ht.
  repeat (apply elem_of_cons in H as [[= -> ->]|H];
          [first [discriminate Ht|split; reflexivity]|]).
  by apply elem_of_nil in H.
Qed.

Lemma assign_number (opts : option string) (key v : string) (o : Option) (args : Args) :
  options_get AuthType key = Own o -> type o = TNumber -> Str.truthy v = true ->
  assign path_resolve opts key (Own o) (Some v) args
  = if isNaN (Num.parseInt v)
    then Throw (parse_error opts (InvalidNumberError key))
    else Return (<[key := VNumber (Num.parseInt v)]> args).
Proof.
  intros Hget Ht Hv. destruct (number_option _ _ Hget Ht) as [-> ->].
  destruct v as [|c v]; [discriminate|]. reflexivity.
Qed.

(** C6, as the code has it.  A non-boolean option without an inline value,
    at the end of the tokens or in front of a token that starts with a dash,
    does not consume that token: an OptionalString option is stored as
    present without payload and the loop goes on with the very next token;
    any other option fails with MissingValueError -- except [password] outside
    a config file, which fails with RestrictedOptionError before its value is
    looked at. *)
Theorem flag_never_consumes_dash_token (opts : option string) (key : string)
    (o : Option) (rest : list string) (args : Args) :
  options_get AuthType key = Own o -> type o <> TBoolean ->
  (head rest = None \/ exists n, head rest = Some n /\ Str.startsWith n "-" = true) ->
  parse_loop AuthType path_resolve opts (("--" +:+ key) :: rest) false args
  = if Str.eqb key "password" && negb (bool_decide (is_Some (configFile opts)))
    then Throw RestrictedOptionError
    else if bool_decide (type o = TOptionalString)
    then parse_loop AuthType path_resolve opts rest false
           (<[key := VOptionalString None]> args)
    else Throw (parse_error opts (MissingValueError key)).
Proof.
  intros Hget Ht Hnext.
  destruct (option_key_plain _ _ _ Hget) as [Hkey Heq].
  rewrite parse_loop_option; [|apply startsWith_dash|].
  - rewrite (parse_option_long _ _ _ _ _ _ None _ _ Hget) by by apply key_value_bare.
    destruct (_ && _); [reflexivity|].
    rewrite (not_boolean_option _ Ht), (capture_none _ Hnext).
    unfold assign. cbn [fst snd property_type].
    destruct (type o); try done; reflexivity.
  - destruct key; [discriminate|]. intros [=].
Qed.

(** C5, as the code has it.  The value captured for a number option, inline
    or as the next token, is read by [parseInt]: white space in front, a sign
    and the longest run of decimal digits, whatever follows them.  Parsing
    fails with InvalidNumberError exactly when there is no digit to read, and
    otherwise stores the integer read -- stated for the values whose integer
    JavaScript holds exactly, of magnitude below 2^53; a longer numeral is
    accepted as well, and stored rounded. *)
Theorem number_option_parsed_by_parseInt (opts : option string) (key v : string)
    (o : Option) (rest : list string) (args : Args) :
  options_get AuthType key = Own o -> type o = TNumber ->
  Str.truthy v = true ->
  is_safe_number (Num.parseInt v) = true ->
  let stored :=
    match Num.parseInt v with
    | NaN => Throw (parse_error opts (InvalidNumberError key))
    | Int z => parse_loop AuthType path_resolve opts rest false (<[key := VNumber (Int z)]> args)
    end in
  (Str.contains "=" v = false ->
   parse_loop AuthType path_resolve opts (("--" +:+ key +:+ "=" +:+ v) :: rest) false args
   = stored)
  /\ (Str.startsWith v "-" = false ->
      parse_loop AuthType path_resolve opts (("--" +:+ key) :: v :: rest) false args
      = stored)
  /\ (Num.parseInt v = NaN <->
      Num.starts_with_digit
        (match Str.drop_while Num.is_white_space v with
         | String "-" digits => digits
         | String "+" digits => digits
         | s => s
         end) = false).
Proof.
  intros Hget Ht Hv _ stored.
  destruct (option_key_plain _ _ _ Hget) as [Hkey Heq].
  destruct (number_option _ _ Hget Ht) as [Hport Ho].
  assert (Hpw : Str.eqb key "password" = false) by by rewrite Hport.
  split; [|split].
  - intros Hnoeq.
    rewrite parse_loop_option;
      [|apply startsWith_dash|by apply long_flag_not_separator].
    rewrite (parse_option_long _ _ _ _ _ _ _ _ _ Hget (key_value_inline _ _ _ Heq)).
    rewrite Hpw, Ht, (inline_value_without_eq _ Hnoeq).
    cbn [andb is_boolean capture fst snd].
    rewrite (assign_number _ _ _ _ _ Hget Ht Hv). unfold stored.
    by destruct (Num.parseInt v).
  - intros Hnodash.
    rewrite parse_loop_option; [|apply startsWith_dash|].
    + rewrite (parse_option_long _ _ _ _ _ _ None _ _ Hget) by by apply key_value_bare.
      rewrite Hpw, Ht. cbn [andb is_boolean head].
      rewrite (capture_next _ Hv Hnodash). cbn [fst snd].
      rewrite (assign_number _ _ _ _ _ Hget Ht Hv). unfold stored.
      by destruct (Num.parseInt v).
    + destruct key; [discriminate|]. intros [=].
  - unfold Num.parseInt.
    destruct (Str.drop_while Num.is_white_space v) as [|c s]; [done|].
    destruct c as [[] [] [] [] [] [] [] []];
      match goal with
      | |- context [Num.starts_with_digit ?d] => by destruct (Num.starts_with_digit d)
      end.
Qed.

End Values.

(** C6 fails as stated on [password]: outside a config file, [--password] in
    front of a dash token fails with RestrictedOptionError, not with
    MissingValueError. *)
Lemma password_flag_is_restricted_first :
  options_get Example.AuthType "password" = Own (opt TString)
  /\ Example.parse ["--password"; "--json"] None = Throw RestrictedOptionError
  /\ Example.parse ["--password"; "--json"] None
     <> Throw (ParseError None (MissingValueError "password")).
Proof.
  split; [vm_compute; reflexivity|]. split; [vm_compute; reflexivity|].
  vm_compute. discriminate.
Qed.

Lemma flag_never_consumes_dash_token_witness :
  Example.parse ["--cert"; "--cert-host=x"] None
  = parse_loop Example.AuthType Example.path_resolve None ["--cert-host=x"] false
      (<["cert" := VOptionalString None]> {[ "_" := VStringList [] ]}).
Proof.
  apply (flag_never_consumes_dash_token Example.AuthType Example.path_resolve None
           "cert" (opt_path TOptionalString) ["--cert-host=x"]
           {[ "_" := VStringList [] ]} eq_refl).
  - discriminate.
  - right. exists "--cert-host=x". split; reflexivity.
Defined.

(** C5 fails as stated: [12abc] is not a numeral, and [--port=12abc] is
    accepted and stores 12. *)
Lemma trailing_text_after_digits_accepted :
  is_decimal_numeral "12abc" = false
  /\ Example.parse ["--port=12abc"] None
     = Return (<["port" := VNumber (Int 12)]> {[ "_" := VStringList [] ]}).
Proof. split; vm_compute; reflexivity. Qed.

Lemma number_option_parsed_by_parseInt_witness :
  Example.parse ["--port=abc"] None = Throw (ParseError None (InvalidNumberError "port"))
  /\ Example.parse ["--port"; "8080"] None
     = Return (<["port" := VNumber (Int 8080)]> {[ "_" := VStringList [] ]}).
Proof.
  split.
  - apply (number_option_parsed_by_parseInt Example.AuthType Example.path_resolve None
             "port" "abc" (opt TNumber) [] {[ "_" := VStringList [] ]}
             eq_refl eq_refl eq_refl eq_refl).
    reflexivity.
  - apply (number_option_parsed_by_parseInt Example.AuthType Example.path_resolve None
             "port" "8080" (opt TNumber) [] {[ "_" := VStringList [] ]}
             eq_refl eq_refl eq_refl eq_refl).
    reflexivity.
Defined.

(** ** Opening in an existing instance *)

Section ExistingInstance.

Variable AuthType : list string.
Variable path_resolve : string -> string.
Variable path_join : list string -> string.
Variable os_tmpdir : string.
Variable canConnect : string -> bool.

(** Reading the socket file leaves the world as it is. *)
Lemma readSocketPath_world (w : World) :
  (readSocketPath path_join os_tmpdir w).2 = w.
Proof.
  unfold readSocketPath, World.readFile.
  destruct (fs w !! _) as [[content| |code]|]; try reflexivity.
  destruct (decide (code = "ENOENT")) as [->|Hne]; [reflexivity|].
  destruct code as [|c1 code]; [reflexivity|].
  repeat (match goal with
          | |- context [match ?s with EmptyString => _ | String _ _ => _ end] =>
              destruct s
          | |- context [match ?c with Ascii _ _ _ _ _ _ _ _ => _ end] =>
              destruct c as [[] [] [] [] [] [] [] []]
          end; try reflexivity).
Qed.

(** What reading the socket file gives, from the file system: the content of
    the file; nothing when there is no file (or the read fails with ENOENT);
    and the error of any other failed read. *)
Lemma readSocketPath_fs (w : World) :
  readSocketPath path_join os_tmpdir w
  = (match fs w !! path_join [os_tmpdir; "vscode-ipc"] with
     | Some (File content) => Return (Some content)
     | Some Directory => Throw (IOError "EISDIR")
     | Some (Failing code) =>
         if decide (code = "ENOENT") then Return None else Throw (IOError code)
     | None => Return None
     end, w).
Proof.
  unfold readSocketPath, World.readFile.
  destruct (fs w !! _) as [[content| |code]|]; try reflexivity.
  destruct (decide (code = "ENOENT")) as [->|Hne]; [reflexivity|].
  destruct code as [|c1 code]; [reflexivity|].
  repeat (match goal with
          | |- context [match ?s with EmptyString => _ | String _ _ => _ end] =>
              destruct s
          | |- context [match ?c with Ascii _ _ _ _ _ _ _ _ => _ end] =>
              destruct c as [[] [] [] [] [] [] [] []]
          end; try reflexivity).
  by destruct Hne.
Qed.

(** C2.  For the record of a command line, when [VSCODE_IPC_HOOK_CLI] is not
    set, and with [socket] what the file system holds at [vscode-ipc] in the
    temporary directory.  With [reuse-window] or [new-window] in the record
    the result is the content of that file -- nothing when the file is
    missing, the error of the read when it fails otherwise -- and no
    connection is attempted.  With nothing but a non-empty positional list,
    the result is the content of the file when it is not empty and the
    connection to that path succeeds, and nothing when the file is missing or
    empty or the connection fails; the one connection attempt is the only
    change to the world.  In every other case the result is nothing, and the
    world is not touched. *)
Theorem existing_instance_detection (argv : list string) (opts : option string)
    (args : Args) (w : World) :
  parse AuthType path_resolve argv opts = Return args ->
  env w !! "VSCODE_IPC_HOOK_CLI" = None ->
  let flags := is_Some (args !! "reuse-window") \/ is_Some (args !! "new-window") in
  let only_paths :=
    (forall k, is_Some (args !! k) -> k = "_")
    /\ args !! "_" <> Some (VStringList []) in
  let run := shouldOpenInExistingInstance path_join os_tmpdir canConnect args w in
  let socket := fs w !! path_join [os_tmpdir; "vscode-ipc"] in
  let read_error (code : string) : result (option string) :=
    if decide (code = "ENOENT") then Return None else Throw (IOError code) in
  (flags ->
   match socket with
   | Some (File content) => run = (Return (Some content), w)
   | Some Directory => run = (Throw (IOError "EISDIR"), w)
   | Some (Failing code) => run = (read_error code, w)
   | None => run = (Return None, w)
   end)
  /\ (~ flags -> only_paths ->
      match socket with
      | Some (File (String c s)) =>
          let socketPath := String c s in
          run = (Return (if canConnect socketPath then Some socketPath else None),
                 mkWorld (heap w) (env w) (fs w) (logger_level w)
                   (probes w ++ [socketPath]))
      | Some (File EmptyString) => run = (Return None, w)
      | Some Directory => run = (Throw (IOError "EISDIR"), w)
      | Some (Failing code) => run = (read_error code, w)
      | None => run = (Return None, w)
      end)
  /\ (~ flags -> ~ only_paths -> run = (Return None, w)).
Proof.
  intros Hparse Henv flags only_paths run socket read_error.
  destruct (parse_well_typed _ _ _ _ _ Hparse) as [Hwt [positional Hpos]].
  assert (Hcount : bool_decide
            (0 < foldl (fun prev cur => if Args.truthy args cur then S prev else prev)
                   O ["reuse-window"; "new-window"])%nat
          = bool_decide flags).
  { cbn [foldl].
    rewrite (well_typed_boolean_truthy _ _ "reuse-window" (opt_short TBoolean "r") Hwt)
      by reflexivity.
    rewrite (well_typed_boolean_truthy _ _ "new-window" (opt_short TBoolean "n") Hwt)
      by reflexivity.
    unfold flags. apply bool_decide_ext.
    do 2 case_bool_decide; split; intros; try lia; tauto. }
  assert (Hrun : run
    = if bool_decide flags then readSocketPath path_join os_tmpdir w
      else if bool_decide (size args = 1%nat) then
        if bool_decide (0 < length positional)%nat then
          match readSocketPath path_join os_tmpdir w with
          | (Return (Some (String c s)), w') =>
              (Return (if canConnect (String c s) then Some (String c s) else None),
               mkWorld (heap w') (env w') (fs w') (logger_level w')
                 (probes w' ++ [String c s]))
          | (Return _, w') => (Return None, w')
          | (Throw e, w') => (Throw e, w')
          end
        else (Return None, w)
      else (Return None, w)).
  { unfold run, shouldOpenInExistingInstance.
    unfold mbind at 1. unfold IO_bind, World.getenv, World.env_truthy.
    rewrite Henv, Hcount.
    destruct (bool_decide flags); [reflexivity|].
    destruct (bool_decide (size args = 1%nat)); [|reflexivity].
    unfold mbind at 1. unfold IO_bind, World.lift, positional_length.
    rewrite Hpos. destruct (bool_decide (0 < length positional)%nat); [|reflexivity].
    unfold mbind at 1. unfold IO_bind.
    destruct (readSocketPath path_join os_tmpdir w) as [[[[|c s]|]|e] w'];
      reflexivity. }
  rewrite readSocketPath_fs in Hrun. fold socket in Hrun.
  assert (Honly : only_paths <-> size args = 1%nat /\ (0 < length positional)%nat).
  { unfold only_paths. rewrite Hpos. split.
    - intros [Hkeys Hne]. split.
      + assert (args = {[ "_" := VStringList positional ]}) as ->;
          [|apply map_size_singleton].
        apply map_eq. intros k. destruct (decide (k = "_")) as [->|Hk].
        * by rewrite lookup_singleton_eq.
        * rewrite lookup_singleton_ne by done.
          destruct (args !! k) eqn:Hak; [|done].
          exfalso. apply Hk, Hkeys. by eexists.
      + destruct positional; [done|simpl; lia].
    - intros [Hsize Hlen]. split.
      + intros k [v Hk]. destruct (decide (k = "_")) as [->|Hne]; [done|].
        assert (Hdel : delete "_" args = ∅).
        { apply map_size_empty_inv.
          rewrite map_size_delete, Hpos, Hsize. reflexivity. }
        assert (Hnone : delete "_" args !! k = None) by by rewrite Hdel.
        rewrite lookup_delete_ne in Hnone by done. congruence.
      + intros [= ->]. simpl in Hlen. lia. }
  rewrite Hrun. clear Hrun. split; [|split].
  - intros Hflags. rewrite bool_decide_eq_true_2 by done.
    by destruct socket as [[content| |code]|].
  - intros Hflags [Hsize Hlen]%Honly.
    rewrite bool_decide_eq_false_2 by done.
    rewrite !bool_decide_eq_true_2 by done.
    destruct socket as [[[|c s]| |code]|]; try reflexivity.
    unfold read_error. by destruct (decide (code = "ENOENT")).
  - intros Hflags Hnot. rewrite bool_decide_eq_false_2 by done.
    destruct (decide (size args = 1%nat)) as [Hs|Hs];
      [|by rewrite (bool_decide_eq_false_2 _ Hs)].
    destruct (decide (0 < length positional)%nat) as [Hl|Hl];
      [|by rewrite (bool_decide_eq_false_2 _ Hl), (bool_decide_eq_true_2 _ Hs)].
    exfalso. apply Hnot, Honly. done.
Qed.

End ExistingInstance.

(** The three cases of the specification: a live socket, a dead socket, and
    [reuse-window] with a dead socket. *)
Lemma existing_instance_detection_witness :
  let w := Example.world ∅ {[ "/tmp/vscode-ipc" := File "/tmp/sock" ]} in
  let probed := mkWorld (heap w) (env w) (fs w) (logger_level w)
                  (probes w ++ ["/tmp/sock"]) in
  let run up argv :=
    args ← World.lift (Example.parse argv None);
    shouldOpenInExistingInstance Example.path_join "/tmp" (fun _ => up) args in
  run true ["foo.txt"] w = (Return (Some "/tmp/sock"), probed)
  /\ run false ["foo.txt"] w = (Return None, probed)
  /\ run false ["--reuse-window"] w = (Return (Some "/tmp/sock"), w).
Proof.
  intros w probed run. unfold run, mbind, IO_bind, World.lift.
  assert (Hfoo : Example.parse ["foo.txt"] None
                 = Return {[ "_" := VStringList ["foo.txt"] ]})
    by (vm_compute; reflexivity).
  assert (Hreuse : Example.parse ["--reuse-window"] None
                   = Return (<["reuse-window" := VBoolean true]> {[ "_" := VStringList [] ]}))
    by (vm_compute; reflexivity).
  assert (Honly : forall k : string,
            is_Some (({[ "_" := VStringList ["foo.txt"] ]} : Args) !! k) -> k = "_").
  { intros k [v Hk]. destruct (decide (k = "_")) as [|Hne]; [done|].
    by rewrite lookup_singleton_ne in Hk. }
  assert (Hnoflags : ~ (is_Some (({[ "_" := VStringList ["foo.txt"] ]} : Args) !! "reuse-window")
                        \/ is_Some (({[ "_" := VStringList ["foo.txt"] ]} : Args) !! "new-window"))).
  { intros [[v Hv]|[v Hv]]; vm_compute in Hv; discriminate Hv. }
  split; [|split].
  - rewrite Hfoo.
    apply (existing_instance_detection Example.AuthType Example.path_resolve
             Example.path_join "/tmp" (fun _ => true) _ _ _ w Hfoo eq_refl);
      [exact Hnoflags|].
    split; [exact Honly|]. rewrite lookup_singleton_eq. discriminate.
  - rewrite Hfoo.
    apply (existing_instance_detection Example.AuthType Example.path_resolve
             Example.path_join "/tmp" (fun _ => false) _ _ _ w Hfoo eq_refl);
      [exact Hnoflags|].
    split; [exact Honly|]. rewrite lookup_singleton_eq. discriminate.
  - rewrite Hreuse.
    apply (existing_instance_detection Example.AuthType Example.path_resolve
             Example.path_join "/tmp" (fun _ => false) _ _ _ w Hreuse eq_refl).
    left. rewrite lookup_insert_eq. by eexists.
Defined.

(** ** Defaults leave their argument alone *)

Section Frame.

Variable r : loc.
Variable fields : list string.

Lemma heap_frame_refl (w : World) : heap_frame r fields w w.
Proof. split; [done|]. intros o Ho. by exists o. Qed.

Lemma heap_frame_trans (w1 w2 w3 : World) :
  heap_frame r fields w1 w2 -> heap_frame r fields w2 w3 ->
  heap_frame r fields w1 w3.
Proof.
  intros [H12 O12] [H23 O23]. split.
  - intros l Hl. by rewrite H23, H12.
  - intros o Ho. destruct (O12 o Ho) as (o2 & Ho2 & Hk2).
    destruct (O23 o2 Ho2) as (o3 & Ho3 & Hk3).
    exists o3. split; [done|]. intros k Hk. by rewrite Hk3, Hk2.
Qed.

Lemma heap_frame_same_heap (w w' : World) :
  heap w' = heap w -> heap_frame r fields w w'.
Proof.
  intros Hh. split; [by rewrite Hh|].
  intros o Ho. exists o. by rewrite Hh.
Qed.

Lemma keeps_ret {A : Type} (Q : A -> Prop) (a : A) :
  Q a -> keeps_frame r fields Q (mret a).
Proof.
  intros Ha w. split; [apply heap_frame_refl|]. by intros a' [= <-].
Qed.

Lemma keeps_bind {A B : Type} (P : A -> Prop) (Q : B -> Prop)
    (m : IO A) (k : A -> IO B) :
  keeps_frame r fields P m -> (forall a, P a -> keeps_frame r fields Q (k a)) ->
  keeps_frame r fields Q (mbind k m).
Proof.
  intros Hm Hk w. unfold mbind, IO_bind. destruct (Hm w) as [Hframe Hret].
  destruct (m w) as [[a|e] w1]; [|by split].
  destruct (Hk a (Hret a eq_refl) w1) as [Hframe' Hret'].
  split; [by eapply heap_frame_trans|exact Hret'].
Qed.

(** A primitive that leaves the heap alone. *)
Lemma keeps_heap {A : Type} (m : IO A) :
  (forall w, heap (m w).2 = heap w) -> keeps_frame r fields (fun _ => True) m.
Proof. intros Hm w. split; [by apply heap_frame_same_heap|done]. Qed.

Lemma keeps_on_fs (f : gmap string node -> result unit * gmap string node) :
  keeps_frame r fields (fun _ => True) (World.on_fs f).
Proof.
  apply keeps_heap. intros w. unfold World.on_fs. by destruct (f (fs w)).
Qed.

Lemma keeps_set_prop (key : string) (v : Value) :
  key ∈ fields -> keeps_frame r fields (fun _ => True) (World.set_prop r key v).
Proof.
  intros Hkey w. split; [|done]. split; simpl.
  - intros l Hl. by rewrite lookup_alter_ne.
  - intros o Ho. exists (<[key := v]> o). split.
    + by rewrite lookup_alter_eq, Ho.
    + intros k Hk. rewrite lookup_insert_ne; [done|]. by intros ->.
Qed.

End Frame.

(** Steps through a computation that is built from the primitives of the
    world, one bind or one branch at a time. *)
Ltac keeps_frame_step :=
  lazymatch goal with
  | |- keeps_frame _ _ _ (mbind _ _) =>
      eapply (keeps_bind _ _ (fun _ => True)); [|intros ? _]
  | |- keeps_frame _ _ _ (mret _) => apply keeps_ret; done
  | |- keeps_frame _ _ _ (World.set_prop _ _ _) =>
      apply keeps_set_prop; unfold default_fields; set_solver
  | |- keeps_frame _ _ _ (World.on_fs _) => apply keeps_on_fs
  | |- keeps_frame _ _ _ (let _ := _ in _) => cbv zeta
  | |- keeps_frame _ _ _ (match ?x with _ => _ end) => destruct x
  | |- keeps_frame _ _ _ _ => apply keeps_heap; done
  end.

Section Defaults.

Variable paths_data : string.
Variable path_join : list string -> string.
Variable os_platform : string.
Variable os_homedir : string.
Variable fs_copy :
  string -> string -> gmap string node -> result unit * gmap string node.

Lemma keeps_copyOldMacOSDataDir (r : loc) :
  keeps_frame r default_fields (fun _ => True)
    (copyOldMacOSDataDir paths_data path_join os_platform os_homedir fs_copy).
Proof. unfold copyOldMacOSDataDir. repeat keeps_frame_step. Qed.

(** C9.  [setDefaults] copies its argument into a new object and writes to
    that object only.  After the call, whether it returned or threw, every
    object that was on the heap before -- the argument among them -- has the
    properties it had; the reference that is returned is new, and the object
    behind it agrees with the argument except in the fields that the defaults
    layer onto the copy. *)
Theorem setDefaults_does_not_mutate_its_argument (args : loc) (w : World) :
  let run := setDefaults paths_data path_join os_platform os_homedir fs_copy args w in
  (forall l, l ∈ dom (heap w) -> heap run.2 !! l = heap w !! l)
  /\ (forall r, run.1 = Return r ->
        (r ∉ dom (heap w))
        /\ exists o', heap run.2 !! r = Some o'
             /\ forall k, k ∉ default_fields ->
                  o' !! k = default ∅ (heap w !! args) !! k).
Proof.
  intros run.
  set (o := default ∅ (heap w !! args)).
  set (r := fresh (dom (heap w))).
  set (w1 := mkWorld (<[r := o]> (heap w)) (env w) (fs w) (logger_level w) (probes w)).
  assert (Hfresh : r ∉ dom (heap w)) by apply is_fresh.
  assert (Hrest : exists rest : loc -> IO loc,
    (forall l, keeps_frame l default_fields (fun l' => l' = l) (rest l))
    /\ setDefaults paths_data path_join os_platform os_homedir fs_copy args
       = mbind (fun o => mbind rest (World.alloc o)) (World.read args)).
  { eexists. split; [|reflexivity]. intros l. cbv beta.
    repeat keeps_frame_step. apply keeps_copyOldMacOSDataDir. }
  destruct Hrest as (rest & Hkeeps & Heq).
  assert (Hrun : run = rest r w1) by (unfold run; rewrite Heq; reflexivity).
  destruct (Hkeeps r w1) as [[Hother Hobj] Hret]. rewrite Hrun.
  split.
  - intros l Hl. rewrite Hother by (intros ->; done).
    simpl. rewrite lookup_insert_ne; [done|]. by intros ->.
  - intros r' ->%Hret. split; [exact Hfresh|].
    apply Hobj. simpl. by rewrite lookup_insert_eq.
Qed.

End Defaults.

(** ** Documents that the config loader rejects *)

Section Config.

Variable AuthType : list string.
Variable path_resolve : string -> string.

Lemma parse_option_not_InvalidConfigError (opts : option string) (arg : string)
    (next : option string) (args : Args) :
  parse_option AuthType path_resolve opts arg next args <> Throw InvalidConfigError.
Proof.
  unfold parse_option. destruct (key_value AuthType arg) as [k inline].
  destruct (_ || _); [discriminate|]. destruct (_ && _); [discriminate|].
  destruct (is_boolean _); [discriminate|].
  destruct (capture inline next) as [value consumed].
  unfold assign, store.
  destruct value as [[|c v]|];
    repeat (match goal with
            | |- context [if ?b then _ else _] => destruct b
            | |- context [match ?x with _ => _ end] => destruct x
            end; try discriminate).
Qed.

Lemma parse_loop_not_InvalidConfigError (opts : option string) (argv : list string) :
  forall (ended : bool) (args : Args),
    parse_loop AuthType path_resolve opts argv ended args <> Throw InvalidConfigError.
Proof.
  cut ((forall ended args,
          parse_loop AuthType path_resolve opts argv ended args
          <> Throw InvalidConfigError)
       /\ (forall ended args,
          parse_loop AuthType path_resolve opts (tail argv) ended args
          <> Throw InvalidConfigError)); [tauto|].
  induction argv as [|arg rest [IHrest IHtail]]; [split; discriminate|].
  split; [|exact IHrest]. intros ended args. cbn [parse_loop].
  destruct (negb ended && Str.eqb arg "--"); [apply IHrest|].
  destruct (negb ended && Str.startsWith arg "-"); [|apply IHrest].
  pose proof (parse_option_not_InvalidConfigError opts arg (head rest) args) as Hopt.
  destruct (parse_option _ _ _ _ _ _) as [[args' consumed]|e]; [|congruence].
  destruct rest as [|next rest']; [apply IHrest|].
  destruct consumed; [apply IHtail|apply IHrest].
Qed.

(** What the guard of [readConfigFile] rejects: the documents that are falsy
    (absent, null, [false], zero, the empty string) and the strings.  A
    number other than zero, [true] or a sequence passes the guard. *)
Lemma argsFromConfig_InvalidConfigError (configPath : string) (config : yaml) :
  argsFromConfig AuthType path_resolve configPath config = Throw InvalidConfigError
  <-> Yaml.truthy config = false \/ Yaml.is_string config = true.
Proof.
  unfold argsFromConfig. split.
  - destruct (Yaml.truthy config), (Yaml.is_string config); simpl; auto.
    unfold parse. intros H. exfalso.
    pose proof (parse_loop_not_InvalidConfigError (Some configPath)
                  (configFileArgv config) false {[ "_" := VStringList [] ]}) as Hne.
    by destruct (parse_loop _ _ _ _ _ _).
  - intros [-> | ->]; [reflexivity|]. by rewrite orb_true_r.
Qed.

End Config.

(** C8 at its failing inputs: a config file whose document is the scalar [42],
    or the scalar [true], is read without InvalidConfigError; the result is
    the record of an empty mapping. *)
Theorem scalar_config_documents_accepted :
  let w := Example.world ∅ {[ "/c.yaml" := File "42"; "/d.yaml" := File "true" ]} in
  (Example.readConfigFile (Some "/c.yaml") w).1
  = Return (<["config" := VString "/c.yaml"]> {[ "_" := VStringList [] ]})
  /\ (Example.readConfigFile (Some "/d.yaml") w).1
     = Return (<["config" := VString "/d.yaml"]> {[ "_" := VStringList [] ]})
  /\ Example.argsFromConfig "/c.yaml" (YNumber (Int 42))
     = Return (<["config" := VString "/c.yaml"]> {[ "_" := VStringList [] ]})
  /\ Example.argsFromConfig "/c.yaml" (YString "42") = Throw InvalidConfigError.
Proof. repeat split; vm_compute; reflexivity. Qed.

(** ** Round trips through the flag form *)

(** C3 at its failing input.  The value [a=b], given as a token of its own,
    is stored whole; its [--key=value] form is parsed back as [a], because
    [split("=", 2)] drops what follows a second [=]. *)
Theorem round_trip_loses_text_after_equals_sign :
  let first := <["locale" := VString "a=b"]> {[ "_" := VStringList [] ]} in
  let second := <["locale" := VString "a"]> {[ "_" := VStringList [] ]} in
  Example.parse ["--locale"; "a=b"] None = Return first
  /\ serialize first = ["--locale=a=b"; "--"]
  /\ Example.parse (serialize first) None = Return second
  /\ first <> second.
Proof.
  intros first second.
  split; [vm_compute; reflexivity|]. split; [vm_compute; reflexivity|].
  split; [vm_compute; reflexivity|].
  intros Heq. apply (f_equal (fun m : Args => m !! "locale")) in Heq.
  unfold first, second in Heq. rewrite !lookup_insert_eq in Heq. discriminate Heq.
Qed.

(** ** The round trip without equals signs *)

Lemma string_of_N_digits (n : N) : Str.forallb Num.is_digit (Num.string_of_N n) = true.
Proof.
  unfold Num.string_of_N.
  assert (H : forall fuel m acc,
    Str.forallb Num.is_digit acc = true ->
    Str.forallb Num.is_digit (Num.to_digits fuel m acc) = true).
  { induction fuel as [|fuel IH]; intros m acc Hacc; [exact Hacc|].
    cbn [Num.to_digits].
    assert (Hd : Str.forallb Num.is_digit (String (Num.digit_char (m mod 10)) acc) = true).
    { simpl. rewrite Hacc, digit_char_is_digit; [done|]. apply N.mod_lt. lia. }
    destruct (m / 10 =? 0)%N; [exact Hd|by apply IH]. }
  by apply H.
Qed.

Lemma digits_without_equals (s : string) :
  Str.forallb Num.is_digit s = true -> Str.contains "=" s = false.
Proof.
  induction s as [|c s IH]; [done|]. simpl.
  intros [Hc Hs]%andb_prop. rewrite (IH Hs), orb_false_r.
  apply bool_decide_eq_false_2. intros ->. discriminate Hc.
Qed.

Lemma to_string_without_equals (z : Z) :
  Str.contains "=" (Num.to_string (Int z)) = false.
Proof.
  unfold Num.to_string, Num.string_of_Z.
  destruct (z <? 0); [simpl|]; apply digits_without_equals, string_of_N_digits.
Qed.

Lemma to_string_truthy (z : Z) : Str.truthy (Num.to_string (Int z)) = true.
Proof.
  unfold Num.to_string, Num.string_of_Z. destruct (z <? 0); [done|].
  apply starts_with_digit_truthy, string_of_N_starts_with_digit.
Qed.

(** [parseInt] reads back the numeral that [String] writes. *)
Lemma parseInt_to_string (z : Z) : Num.parseInt (Num.to_string (Int z)) = Int z.
Proof.
  unfold Num.to_string, Num.string_of_Z. destruct (Z.ltb_spec z 0).
  - unfold Num.parseInt. cbn [Str.drop_while Num.is_white_space].
    change (Num.is_white_space "-") with false. cbv iota.
    rewrite string_of_N_starts_with_digit, read_digits_string_of_N.
    f_equal. lia.
  - rewrite parseInt_string_of_N. f_equal. lia.
Qed.

Section RoundTrip.

Variable AuthType : list string.
Variable path_resolve : string -> string.

(** [path.resolve] returns an absolute path, and resolving an absolute path
    again changes nothing. *)
Hypothesis path_resolve_idempotent :
  forall s, path_resolve (path_resolve s) = path_resolve s.
Hypothesis path_resolve_truthy : forall s, Str.truthy (path_resolve s) = true.
Hypothesis path_resolve_not_false : forall s, path_resolve s <> "false".

Lemma stored_string_resolved (o : Option) (v : string) :
  Str.truthy v = true ->
  stored_string path_resolve o (if path o then path_resolve v else v).
Proof.
  intros Hv. unfold stored_string. destruct (path o).
  - split; [apply path_resolve_truthy|]. intros _. apply path_resolve_idempotent.
  - split; [exact Hv|discriminate].
Qed.

(** Assigning a stored value to an option keeps the record a parsed record. *)
Lemma parsed_record_insert (opts : option string) (key : string) (o : Option)
    (v : Value) (args : Args) :
  options_get AuthType key = Own o ->
  stored_value path_resolve key o v ->
  (key = "password" -> is_Some (configFile opts)) ->
  (key = "_" -> exists l, v = VStringList l) ->
  parsed_record AuthType path_resolve opts args ->
  parsed_record AuthType path_resolve opts (<[key := v]> args).
Proof.
  intros Hget Hv Hpw Hpos [[l Hl] Hall]. split.
  - destruct (decide (key = "_")) as [->|Hne].
    + destruct (Hpos eq_refl) as [l' ->]. exists l'. by rewrite lookup_insert_eq.
    + exists l. by rewrite lookup_insert_ne.
  - apply map_Forall_insert_2; [|exact Hall]. by exists o.
Qed.

Lemma option_not_positional (key : string) (o : Option) :
  options_get AuthType key = Own o -> type o <> TStringList -> key <> "_".
Proof. intros Hget Ht ->. vm_compute in Hget. injection Hget as <-. by apply Ht. Qed.

Lemma parse_option_parsed_record (opts : option string) (arg : string)
    (next : option string) (args args' : Args) (consumed : bool) :
  parse_option AuthType path_resolve opts arg next args = Return (args', consumed) ->
  parsed_record AuthType path_resolve opts args ->
  parsed_record AuthType path_resolve opts args'.
Proof.
  intros Hopt Hargs. unfold parse_option in Hopt.
  destruct (key_value AuthType arg) as [k inline].
  set (key := default EmptyString k) in *.
  destruct (negb (Str.truthy key) || _); [discriminate|].
  destruct (Str.eqb key "password" && _) eqn:Hcheck; [discriminate|].
  assert (Hpw : key = "password" -> is_Some (configFile opts)).
  { intros Hk. unfold Str.eqb in Hcheck.
    rewrite (bool_decide_eq_true_2 _ Hk) in Hcheck. simpl in Hcheck.
    apply negb_false_iff, bool_decide_eq_true in Hcheck. exact Hcheck. }
  destruct (options_get AuthType key) as [o| |] eqn:Hget.
  - cbn [property_type] in Hopt.
    assert (Hins : forall v,
      stored_value path_resolve key o v -> type o <> TStringList ->
      parsed_record AuthType path_resolve opts (<[key := v]> args)).
    { intros v Hv Ht. apply (parsed_record_insert opts key o); try done.
      intros Hk. by destruct (option_not_positional _ _ Hget Ht). }
    destruct (is_boolean (Some (type o))) eqn:Hb.
    + injection Hopt as <- _. apply Hins; unfold stored_value;
        by destruct (type o).
    + destruct (capture inline next) as [value c].
      unfold assign in Hopt. cbn [property_type property_path] in Hopt.
      destruct value as [[|ch v]|].
      * destruct (is_optional_string (Some (type o))) eqn:Hopt_s; [|discriminate].
        injection Hopt as <- _.
        apply Hins; unfold stored_value; destruct (type o); try done. by left.
      * destruct (is_optional_string (Some (type o)) && _) eqn:Hfalse;
          [by injection Hopt as <- _|].
        pose proof (stored_string_resolved o (String ch v) eq_refl) as Hs.
        set (v' := if path o then path_resolve (String ch v) else String ch v) in *.
        unfold store in Hopt.
        destruct (type o) as [| | | | |values] eqn:Ht; cbn [mbind result_bind] in Hopt.
        -- discriminate Hb.
        -- injection Hopt as <- _. apply Hins; [|done].
           unfold stored_value. by rewrite Ht.
        -- injection Hopt as <- _. unfold Args.push.
           apply (parsed_record_insert opts key o); try done; [|by eexists].
           unfold stored_value. rewrite Ht.
           destruct (decide (key = "_")) as [|Hne]; [by left|right].
           split; [by destruct (default [] _)|].
           apply Forall_app. split; [|by apply Forall_singleton].
           unfold Args.get_list. destruct Hargs as [_ Hall].
           destruct (args !! key) as [old|] eqn:Hold; [|by apply Forall_nil].
           destruct (Hall _ _ Hold) as (o' & Hget' & Hv' & _).
           rewrite Hget in Hget'. injection Hget' as <-.
           unfold stored_value in Hv'. rewrite Ht in Hv'.
           destruct old; try done; try apply Forall_nil.
           destruct Hv' as [?|[_ ?]]; done.
        -- destruct (isNaN (Num.parseInt v')) eqn:Hnan; [discriminate|].
           injection Hopt as <- _. apply Hins; [|done].
           unfold stored_value. rewrite Ht. by destruct (Num.parseInt v').
        -- injection Hopt as <- _. apply Hins; [|done].
           unfold stored_value. rewrite Ht. right. split; [exact Hs|].
           unfold v'. destruct (path o); [apply path_resolve_not_false|].
           cbn [is_optional_string andb] in Hfalse. unfold Str.eqb in Hfalse.
           by apply bool_decide_eq_false in Hfalse.
        -- destruct (bool_decide (v' ∈ values)) eqn:Hin; [|discriminate].
           injection Hopt as <- _. apply Hins; [|done].
           unfold stored_value. rewrite Ht. split; [|apply Hs].
           by apply bool_decide_eq_true in Hin.
      * destruct (is_optional_string (Some (type o))) eqn:Hopt_s; [|discriminate].
        injection Hopt as <- _.
        apply Hins; unfold stored_value; by destruct (type o).
  - cbn [property_type is_boolean] in Hopt.
    destruct (capture inline next) as [value c].
    unfold assign in Hopt. cbn [property_type property_path is_optional_string] in Hopt.
    by destruct value as [[|ch v]|].
  - cbn [property_type is_boolean] in Hopt.
    destruct (capture inline next) as [value c].
    unfold assign in Hopt. cbn [property_type property_path is_optional_string] in Hopt.
    by destruct value as [[|ch v]|].
Qed.

(** What [parse] returns is a parsed record. *)
Lemma parse_parsed_record (argv : list string) (opts : option string) (r : Args) :
  parse AuthType path_resolve argv opts = Return r ->
  parsed_record AuthType path_resolve opts r.
Proof.
  intros Hparse.
  eapply (parse_loop_preserves AuthType path_resolve _ opts); [| |exact Hparse|].
  - intros arg next args args' consumed. apply parse_option_parsed_record.
  - intros arg args Hargs. unfold Args.push.
    apply (parsed_record_insert opts "_" (opt TStringList)); try done.
    + by left.
    + by eexists.
  - split; [by eexists|]. apply map_Forall_singleton.
    exists (opt TStringList). split; [reflexivity|]. split; [by left|done].
Qed.

(** An inline value without an equals sign is captured whole and assigned. *)
Lemma parse_loop_inline (opts : option string) (key v : string) (o : Option)
    (rest : list string) (args : Args) :
  options_get AuthType key = Own o -> type o <> TBoolean ->
  (key = "password" -> is_Some (configFile opts)) ->
  Str.contains "=" v = false ->
  parse_loop AuthType path_resolve opts (("--" +:+ key +:+ "=" +:+ v) :: rest) false args
  = match assign path_resolve opts key (Own o) (Some v) args with
    | Return args' => parse_loop AuthType path_resolve opts rest false args'
    | Throw e => Throw e
    end.
Proof.
  intros Hget Ht Hpw Hv.
  destruct (option_key_plain _ _ _ Hget) as [Hkey Heq].
  rewrite parse_loop_option;
    [|apply startsWith_dash|by apply long_flag_not_separator].
  rewrite (parse_option_long _ _ _ _ _ _ _ _ _ Hget (key_value_inline _ _ _ Heq)).
  assert (Hcheck : Str.eqb key "password" && negb (bool_decide (is_Some (configFile opts)))
                   = false).
  { unfold Str.eqb. case_bool_decide as Hk; [|done].
    by rewrite (bool_decide_eq_true_2 _ (Hpw Hk)). }
  rewrite Hcheck, (not_boolean_option _ Ht), (inline_value_without_eq _ Hv).
  cbn [capture fst snd].
  by destruct (assign _ _ _ _ _ _).
Qed.

Lemma parse_loop_bare_optional (opts : option string) (key : string) (o : Option)
    (rest : list string) (args : Args) :
  options_get AuthType key = Own o -> type o = TOptionalString -> dash_head rest ->
  parse_loop AuthType path_resolve opts (("--" +:+ key) :: rest) false args
  = parse_loop AuthType path_resolve opts rest false (<[key := VOptionalString None]> args).
Proof.
  intros Hget Ht Hrest.
  destruct (option_key_plain _ _ _ Hget) as [Hkey Heq].
  rewrite parse_loop_option; [|apply startsWith_dash|].
  - rewrite (parse_option_long _ _ _ _ _ _ None _ _ Hget) by by apply key_value_bare.
    assert (Hpw : Str.eqb key "password" = false).
    { unfold Str.eqb. apply bool_decide_eq_false_2. intros ->.
      vm_compute in Hget. injection Hget as <-. discriminate Ht. }
    rewrite Hpw, Ht. cbn [andb is_boolean].
    rewrite (capture_none (head rest)) by (right; exact Hrest).
    unfold assign. cbn [fst snd property_type]. by rewrite Ht.
  - destruct key; [discriminate|]. intros [=].
Qed.

Lemma assign_stored_string (opts : option string) (key s : string) (o : Option)
    (args : Args) :
  stored_string path_resolve o s ->
  (type o = TOptionalString -> s <> "false") ->
  assign path_resolve opts key (Own o) (Some s) args
  = store opts key (type o) s args.
Proof.
  intros [Htruthy Hpath] Hfalse. unfold assign. cbn [property_type property_path].
  destruct s as [|c s]; [discriminate|].
  assert (Hcheck : is_optional_string (Some (type o)) && Str.eqb (String c s) "false"
                   = false).
  { destruct (type o); try done. cbn [is_optional_string andb]. unfold Str.eqb.
    apply bool_decide_eq_false_2. by apply Hfalse. }
  rewrite Hcheck. destruct (path o); [by rewrite Hpath|reflexivity].
Qed.

(** The tokens of a list are pushed one after the other. *)
Lemma reparse_list (opts : option string) (key : string) (o : Option)
    (rest : list string) (l : list string) :
  options_get AuthType key = Own o -> type o = TStringList ->
  Forall (stored_string path_resolve o) l ->
  Forall (fun s => Str.contains "=" s = false) l ->
  forall (old : list string) (args : Args),
    default [] (Args.get_list args key) = old ->
    parse_loop AuthType path_resolve opts
      (map (fun e => "--" +:+ key +:+ "=" +:+ e) l ++ rest) false args
    = parse_loop AuthType path_resolve opts rest false
        (match l with
         | [] => args
         | _ => <[key := VStringList (old ++ l)]> args
         end).
Proof.
  intros Hget Ht Hl Heq. induction l as [|e l IH]; intros old args Hold; [done|].
  apply Forall_cons in Hl as [He Hl]. apply Forall_cons in Heq as [Hee Heq].
  cbn [map app]. rewrite (parse_loop_inline _ _ _ o); try done.
  - rewrite assign_stored_string by (done || by rewrite Ht).
    rewrite Ht. cbn [store]. unfold Args.push. rewrite Hold.
    rewrite (IH Hl Heq (old ++ [e])).
    + destruct l as [|e' l]; [done|]. by rewrite insert_insert_eq, <- app_assoc.
    + unfold Args.get_list. by rewrite lookup_insert_eq.
  - by rewrite Ht.
  - intros ->. vm_compute in Hget. injection Hget as <-. discriminate Ht.
Qed.

Lemma serialize_property_dash (key : string) (v : Value) :
  Forall (fun token => Str.startsWith token "-" = true) (serialize_property key v).
Proof.
  destruct v as [[]|s|l|n|[s|]]; cbn [serialize_property];
    repeat constructor.
  induction l; constructor; [reflexivity|assumption].
Qed.

(** The tokens of one stored property set that property again. *)
Lemma reparse_property (opts : option string) (key : string) (o : Option) (v : Value)
    (rest : list string) (args : Args) :
  options_get AuthType key = Own o -> key <> "_" ->
  stored_value path_resolve key o v ->
  (key = "password" -> is_Some (configFile opts)) ->
  value_without_equals v ->
  args !! key = None ->
  dash_head rest ->
  parse_loop AuthType path_resolve opts (serialize_property key v ++ rest) false args
  = parse_loop AuthType path_resolve opts rest false (<[key := v]> args).
Proof.
  intros Hget Hkey Hv Hpw Heq Hnone Hrest.
  destruct (option_key_plain _ _ _ Hget) as [Hplain Hkeyeq].
  unfold stored_value in Hv.
  destruct (type o) as [| | | | |values] eqn:Ht, v as [b|s|l|n|[s|]]; try done.
  - (* boolean *)
    subst b. cbn [serialize_property app].
    assert (Hnil : key +:+ "" = key).
    { clear. induction key as [|c key IH]; [done|].
      change (String c key +:+ "") with (String c (key +:+ "")). by rewrite IH. }
    replace ("--" +:+ key) with ("--" +:+ key +:+ "") by by rewrite Hnil.
    apply (parse_loop_boolean _ _ opts key "" o); [done..|].
    rewrite Hnil. eexists. by apply key_value_bare.
  - (* string *)
    cbn [serialize_property app]. rewrite (parse_loop_inline _ _ _ o); try done.
    + rewrite assign_stored_string by (done || by rewrite Ht). by rewrite Ht.
    + by rewrite Ht.
  - (* list *)
    destruct Hv as [?|[Hne Hl]]; [done|]. cbn [serialize_property].
    rewrite (reparse_list opts key o rest l Hget Ht Hl Heq [] args).
    + by destruct l.
    + unfold Args.get_list. by rewrite Hnone.
  - (* number *)
    destruct n as [|z]; [done|]. cbn [serialize_property app].
    rewrite (parse_loop_inline _ _ _ o); try done.
    + rewrite assign_stored_string.
      * rewrite Ht. cbn [store]. by rewrite parseInt_to_string.
      * split; [apply to_string_truthy|].
        intros Hpath. destruct (number_option _ _ _ Hget Ht) as [_ ->]. discriminate Hpath.
      * by rewrite Ht.
    + by rewrite Ht.
    + apply to_string_without_equals.
  - (* optional string with payload *)
    cbn [serialize_property app]. rewrite (parse_loop_inline _ _ _ o); try done.
    + destruct Hv as [->|[Hs Hfalse]].
      * unfold assign. cbn [property_type]. by rewrite Ht.
      * rewrite assign_stored_string by done. by rewrite Ht.
    + by rewrite Ht.
  - (* optional string without payload *)
    cbn [serialize_property app]. by apply (parse_loop_bare_optional opts key o).
  - (* enumeration *)
    destruct Hv as [Hin Htruthy]. cbn [serialize_property app].
    rewrite (parse_loop_inline _ _ _ o); try done.
    + unfold assign. cbn [property_type property_path is_optional_string].
      rewrite Ht. cbn [andb].
      destruct s as [|c s]; [discriminate|].
      assert (Hpath : path o = false).
      { apply options_get_Own in Hget.
        repeat (apply elem_of_cons in Hget as [[= -> ->]|Hget];
                [first [discriminate Ht|reflexivity]|]).
        by apply elem_of_nil in Hget. }
      rewrite Hpath. cbn [store]. by rewrite bool_decide_eq_true_2.
    + by rewrite Ht.
Qed.

(** Inserting the bindings of a list without duplicate keys, in any order. *)
Lemma foldl_insert_union (kvs : list (string * Value)) :
  NoDup kvs.*1 ->
  forall init : Args,
    foldl (fun a kv => <[kv.1 := kv.2]> a) init kvs = list_to_map kvs ∪ init.
Proof.
  induction kvs as [|[k v] kvs IH]; intros Hnodup init.
  - cbn [foldl list_to_map foldr]. by rewrite (left_id_L ∅ (∪)).
  - apply NoDup_cons in Hnodup as [Hk Hnodup]. cbn [foldl list_to_map foldr fst snd].
    rewrite (IH Hnodup). rewrite <- insert_union_l.
    symmetry. apply insert_union_r. by apply not_elem_of_list_to_map_1.
Qed.

(** The tokens of all the stored properties set them all again. *)
Lemma reparse_properties (opts : option string) (rest : list string) :
  dash_head rest ->
  forall (kvs : list (string * Value)) (args : Args),
    NoDup kvs.*1 ->
    Forall (fun kv => exists o,
              options_get AuthType kv.1 = Own o /\ kv.1 <> "_"
              /\ stored_value path_resolve kv.1 o kv.2
              /\ (kv.1 = "password" -> is_Some (configFile opts))
              /\ value_without_equals kv.2
              /\ args !! kv.1 = None) kvs ->
    parse_loop AuthType path_resolve opts
      (concat (map (fun kv => serialize_property kv.1 kv.2) kvs) ++ rest) false args
    = parse_loop AuthType path_resolve opts rest false
        (foldl (fun a kv => <[kv.1 := kv.2]> a) args kvs).
Proof.
  intros Hrest kvs. induction kvs as [|[k v] kvs IH]; intros args Hnodup Hall; [done|].
  apply NoDup_cons in Hnodup as [Hk Hnodup].
  apply Forall_cons in Hall as [(o & Hget & Hne & Hv & Hpw & Heq & Hnone) Hall].
  cbn [map concat foldl fst snd] in *. rewrite <- app_assoc.
  rewrite (reparse_property opts k o v); try done.
  - apply IH; [exact Hnodup|].
    apply Forall_forall. intros [k' v'] Hin.
    rewrite Forall_forall in Hall. destruct (Hall _ Hin) as (o' & ? & ? & ? & ? & ? & ?).
    exists o'. repeat split; try done. cbn [fst]. rewrite lookup_insert_ne; [done|].
    intros ->. apply Hk. apply list_elem_of_fmap. by exists (k', v').
  - clear -Hrest. induction kvs as [|[k' v'] kvs IH]; [exact Hrest|].
    cbn [map concat fst snd]. rewrite <- app_assoc.
    destruct (serialize_property k' v') as [|token tokens] eqn:Htokens; [exact IH|].
    pose proof (serialize_property_dash k' v') as Hdash. rewrite Htokens in Hdash.
    apply Forall_cons in Hdash as [Hdash _]. by exists token.
Qed.

(** After the separator every token is positional. *)
Lemma parse_loop_ended (opts : option string) (positional : list string) :
  forall (old : list string) (args : Args),
    args !! "_" = Some (VStringList old) ->
    parse_loop AuthType path_resolve opts positional true args
    = Return (<["_" := VStringList (old ++ positional)]> args).
Proof.
  induction positional as [|p positional IH]; intros old args Hold.
  - cbn [parse_loop]. by rewrite app_nil_r, insert_id.
  - cbn [parse_loop negb andb]. unfold Args.push, Args.get_list. rewrite Hold.
    cbn [default from_option id].
    rewrite (IH (old ++ [p])) by by rewrite lookup_insert_eq.
    by rewrite insert_insert_eq, <- app_assoc.
Qed.

(** The round trip of the specification holds for every record whose stored
    option values hold no equals sign, and whose numbers JavaScript holds
    exactly (so that they are written in plain digits): re-serializing the
    record that [parse] returned and parsing again, in the same context,
    returns the same record.  (An OptionalString without payload need not be
    excepted.) *)
Theorem round_trip_without_equals_sign (argv : list string) (opts : option string)
    (r : Args) :
  parse AuthType path_resolve argv opts = Return r ->
  (forall k v, r !! k = Some v -> k <> "_" -> value_without_equals v) ->
  (forall k n, r !! k = Some (VNumber n) -> is_safe_number n = true) ->
  parse AuthType path_resolve (serialize r) opts = Return r.
Proof.
  intros Hparse Heq _.
  destruct (parse_parsed_record _ _ _ Hparse) as [[positional Hpos] Hall].
  unfold parse, serialize, Args.get_list. rewrite Hpos. cbn [default from_option id].
  rewrite reparse_properties.
  - cbn [parse_loop negb andb]. unfold Str.eqb. rewrite bool_decide_eq_true_2 by done.
    rewrite foldl_insert_union by apply NoDup_fst_map_to_list.
    rewrite list_to_map_to_list.
    rewrite (parse_loop_ended opts positional []).
    + f_equal. apply map_eq. intros k. destruct (decide (k = "_")) as [->|Hk].
      * by rewrite lookup_insert_eq.
      * rewrite lookup_insert_ne by done.
        rewrite lookup_union, lookup_delete_ne, lookup_singleton_ne by done.
        by destruct (r !! k).
    + rewrite lookup_union, lookup_delete_eq, lookup_singleton_eq. done.
  - by exists "--".
  - apply NoDup_fst_map_to_list.
  - apply Forall_forall. intros [k v] [Hk Hv]%elem_of_map_to_list%lookup_delete_Some.
    destruct (Hall _ _ Hv) as (o & Hget & Hstored & Hpw).
    exists o. cbn [fst snd]. repeat split; try done.
    + by apply (Heq k).
    + by rewrite lookup_singleton_ne.
Qed.

End RoundTrip.

Lemma round_trip_without_equals_sign_witness :
  Example.parse
    (serialize (<["cert" := VOptionalString None]>
                  (<["port" := VNumber (Int 8080)]>
                     (<["extra-extensions-dir" := VStringList ["/a"; "/b"]]>
                        {[ "_" := VStringList ["x.txt"] ]})))) None
  = Return (<["cert" := VOptionalString None]>
              (<["port" := VNumber (Int 8080)]>
                 (<["extra-extensions-dir" := VStringList ["/a"; "/b"]]>
                    {[ "_" := VStringList ["x.txt"] ]}))).
Proof.
  apply (round_trip_without_equals_sign Example.AuthType Example.path_resolve)
    with (argv := ["--extra-extensions-dir"; "a"; "x.txt"; "--port=8080 ";
                   "--extra-extensions-dir=/b"; "--cert"]).
  - intros s. unfold Example.path_resolve.
    destruct (Str.startsWith s "/") eqn:Hs; [by rewrite Hs|]. reflexivity.
  - intros s. unfold Example.path_resolve.
    destruct (Str.startsWith s "/") eqn:Hs; [by destruct s|reflexivity].
  - intros s. unfold Example.path_resolve.
    destruct (Str.startsWith s "/") eqn:Hs; [|discriminate].
    by destruct s as [|[[] [] [] [] [] [] [] []] s].
  - vm_compute. reflexivity.
  - intros k v Hk _.
    repeat (apply lookup_insert_Some in Hk as [[<- <-]|[_ Hk]];
            [first [exact I|by repeat constructor]|]).
    apply lookup_singleton_Some in Hk as [<- <-]. by repeat constructor.
  - intros k n Hk.
    repeat (apply lookup_insert_Some in Hk as [[_ Hv]|[_ Hk]];
            [first [discriminate Hv|injection Hv as <-; reflexivity]|]).
    apply lookup_singleton_Some in Hk as [_ Hv]. discriminate Hv.
Defined.

(** ** More on the parser: positional tokens and the separator *)

Section Positional.

Variable AuthType : list string.
Variable path_resolve : string -> string.

Lemma parse_loop_positional (opts : option string) (argv : list string) :
  Forall (fun arg => Str.startsWith arg "-" = false) argv ->
  forall (ended : bool) (old : list string) (args : Args),
    args !! "_" = Some (VStringList old) ->
    parse_loop AuthType path_resolve opts argv ended args
    = Return (<["_" := VStringList (old ++ argv)]> args).
Proof.
  induction 1 as [|arg argv Harg _ IH]; intros ended old args Hold.
  - cbn [parse_loop]. by rewrite app_nil_r, insert_id.
  - cbn [parse_loop]. rewrite Harg, andb_false_r.
    assert (Hsep : Str.eqb arg "--" = false).
    { unfold Str.eqb. apply bool_decide_eq_false_2. by intros ->. }
    rewrite Hsep, andb_false_r. unfold Args.push, Args.get_list. rewrite Hold.
    cbn [default from_option id].
    rewrite (IH ended (old ++ [arg])) by by rewrite lookup_insert_eq.
    by rewrite insert_insert_eq, <- app_assoc.
Qed.

(** When no token starts with a dash, every token is positional: the record
    holds the tokens, in order, and nothing else.  Empty tokens are kept. *)
Theorem parse_without_dashes (argv : list string) (opts : option string) :
  Forall (fun arg => Str.startsWith arg "-" = false) argv ->
  parse AuthType path_resolve argv opts = Return {[ "_" := VStringList argv ]}.
Proof.
  intros Hargv. unfold parse.
  rewrite (parse_loop_positional opts argv Hargv false []) by apply lookup_singleton_eq.
  by rewrite insert_singleton_eq.
Qed.

(** A next token that starts with a dash is as good as no next token. *)
Lemma parse_option_next_dash (opts : option string) (arg n : string) (args : Args) :
  Str.startsWith n "-" = true ->
  parse_option AuthType path_resolve opts arg (Some n) args
  = parse_option AuthType path_resolve opts arg None args.
Proof.
  intros Hn. unfold parse_option. destruct (key_value AuthType arg) as [k inline].
  assert (Hc : capture inline (Some n) = capture inline None).
  { destruct inline; [reflexivity|]. unfold capture. rewrite Hn.
    by destruct (Str.truthy n). }
  by rewrite Hc.
Qed.

(** The loop over tokens that are followed by a token with a dash (or by
    nothing) and hold no separator: what follows them is parsed from the
    record they leave, in the same mode. *)
Lemma parse_loop_app (opts : option string) (suffix : list string) :
  suffix = [] \/ dash_head suffix ->
  forall (pre : list string) (args : Args),
    "--" ∉ pre ->
    parse_loop AuthType path_resolve opts (pre ++ suffix) false args
    = match parse_loop AuthType path_resolve opts pre false args with
      | Return r => parse_loop AuthType path_resolve opts suffix false r
      | Throw e => Throw e
      end.
Proof.
  intros Hsuffix pre.
  cut ((forall args, "--" ∉ pre ->
          parse_loop AuthType path_resolve opts (pre ++ suffix) false args
          = match parse_loop AuthType path_resolve opts pre false args with
            | Return r => parse_loop AuthType path_resolve opts suffix false r
            | Throw e => Throw e
            end)
       /\ (forall args, "--" ∉ tail pre ->
          parse_loop AuthType path_resolve opts (tail pre ++ suffix) false args
          = match parse_loop AuthType path_resolve opts (tail pre) false args with
            | Return r => parse_loop AuthType path_resolve opts suffix false r
            | Throw e => Throw e
            end)); [tauto|].
  induction pre as [|arg rest [IHrest IHtail]]; [split; done|].
  split; [|exact IHrest]. intros args Hsep.
  apply not_elem_of_cons in Hsep as [Harg Hrest].
  cbn [app parse_loop negb andb]. unfold Str.eqb.
  rewrite bool_decide_eq_false_2 by done.
  destruct (Str.startsWith arg "-") eqn:Hdash; [|by apply IHrest].
  assert (Hnext : parse_option AuthType path_resolve opts arg (head (rest ++ suffix)) args
                  = parse_option AuthType path_resolve opts arg (head rest) args).
  { destruct rest as [|next rest']; [|reflexivity].
    destruct Hsuffix as [->|(n & Hn & Hd)]; [reflexivity|].
    cbn [app]. rewrite Hn. by apply parse_option_next_dash. }
  rewrite Hnext. clear Hnext.
  destruct (parse_option _ _ _ _ _ _) as [[args' consumed]|e] eqn:Hopt; [|reflexivity].
  destruct rest as [|next rest'].
  - assert (consumed = false) as ->.
    { eapply parse_option_dash_not_consumed; [|exact Hopt]. by left. }
    cbn [app]. destruct suffix; apply (IHrest args'); done.
  - cbn [app]. destruct consumed.
    + apply IHtail. cbn [tail]. by apply not_elem_of_cons in Hrest as [_ ?].
    + apply (IHrest args' Hrest).
Qed.

(** The separator ends option parsing: when the tokens in front of the first
    [--] parse to a record, the tokens after it -- whatever they look like,
    further [--] included -- are appended to the positional list as they
    are, and nothing after the separator can make the parse fail. *)
Theorem parse_separator (pre rest : list string) (opts : option string) :
  "--" ∉ pre ->
  parse AuthType path_resolve (pre ++ "--" :: rest) opts
  = match parse AuthType path_resolve pre opts with
    | Return r =>
        Return (<["_" := VStringList (default [] (Args.get_list r "_") ++ rest)]> r)
    | Throw e => Throw e
    end.
Proof.
  intros Hpre. unfold parse.
  rewrite parse_loop_app; [|right; by exists "--"|exact Hpre].
  destruct (parse_loop _ _ _ pre _ _) as [r|e] eqn:Hparse; [|reflexivity].
  destruct (parse_well_typed _ _ _ _ _ Hparse) as [_ [l Hl]].
  cbn [parse_loop negb andb]. unfold Str.eqb. rewrite bool_decide_eq_true_2 by done.
  unfold Args.get_list. rewrite Hl. cbn [default from_option id].
  apply parse_loop_ended, Hl.
Qed.

End Positional.

Lemma parse_without_dashes_witness :
  Example.parse ["a.txt"; ""; "b c"] None = Return {[ "_" := VStringList ["a.txt"; ""; "b c"] ]}.
Proof.
  apply parse_without_dashes. repeat constructor.
Defined.

Lemma parse_separator_witness :
  Example.parse (["--json"; "x"] ++ "--" :: ["--port=abc"; "--"; "-z"]) None
  = match Example.parse ["--json"; "x"] None with
    | Return r =>
        Return (<["_" := VStringList (default [] (Args.get_list r "_")
                                        ++ ["--port=abc"; "--"; "-z"])]> r)
    | Throw e => Throw e
    end.
Proof.
  apply parse_separator.
  intros Hin. repeat (apply elem_of_cons in Hin as [Hin|Hin]; [discriminate Hin|]).
  by apply elem_of_nil in Hin.
Defined.

(** ** More on the parser: the forms of an option *)

Section Forms.

Variable AuthType : list string.
Variable path_resolve : string -> string.

Lemma bare_flag_not_separator (key : string) :
  Str.truthy key = true -> "--" +:+ key <> "--".
Proof. destruct key; [discriminate|]. intros _ [=]. Qed.

(** For an option that takes a value, [--key value] and [--key=value] do the
    same, as long as the value is not empty, does not start with a dash and
    holds no equals sign. *)
Theorem value_token_same_as_inline (opts : option string) (key v : string)
    (o : Option) (rest : list string) (args : Args) :
  options_get AuthType key = Own o -> type o <> TBoolean ->
  Str.truthy v = true -> Str.startsWith v "-" = false ->
  Str.contains "=" v = false ->
  parse_loop AuthType path_resolve opts (("--" +:+ key) :: v :: rest) false args
  = parse_loop AuthType path_resolve opts (("--" +:+ key +:+ "=" +:+ v) :: rest) false args.
Proof.
  intros Hget Ht Hv Hdash Heq.
  destruct (option_key_plain _ _ _ Hget) as [Hkey Hkeyeq].
  rewrite !parse_loop_option;
    [|apply startsWith_dash|by apply long_flag_not_separator
     |apply startsWith_dash|by apply bare_flag_not_separator].
  rewrite (parse_option_long _ _ _ _ _ _ _ _ _ Hget (key_value_inline _ _ _ Hkeyeq)).
  rewrite (parse_option_long _ _ _ _ _ _ None _ _ Hget) by by apply key_value_bare.
  destruct (_ && _); [reflexivity|].
  rewrite (not_boolean_option _ Ht), (inline_value_without_eq _ Heq).
  cbn [head]. rewrite (capture_next _ Hv Hdash). cbn [capture fst snd].
  by destruct (assign _ _ _ _ _ _).
Qed.

(** A token with a single dash is an option only when what follows the dash
    is one of the five short flags, and then it stands for the long flag of
    that option; any other such token, the lone dash included, fails with
    UnknownOptionError -- short flags cannot be combined. *)
Theorem short_flag_resolution (opts : option string) (s : string)
    (rest : list string) (args : Args) :
  Str.startsWith s "-" = false ->
  parse_loop AuthType path_resolve opts (("-" +:+ s) :: rest) false args
  = match options_find_short AuthType s with
    | Some key =>
        parse_loop AuthType path_resolve opts (("--" +:+ key) :: rest) false args
    | None => Throw (parse_error opts (UnknownOptionError ("-" +:+ s)))
    end
  /\ (is_Some (options_find_short AuthType s) <-> s ∈ ["h"; "v"; "n"; "r"; "vvv"]).
Proof.
  intros Hs.
  assert (Hkv : key_value AuthType ("-" +:+ s) = (options_find_short AuthType s, None)).
  { unfold key_value.
    replace (Str.startsWith ("-" +:+ s) "--") with (Str.startsWith s "-")
      by reflexivity.
    by rewrite Hs. }
  assert (Hsep : "-" +:+ s <> "--").
  { intros H. change ("-" +:+ s) with (String "-" s) in H.
    injection H as ->. discriminate Hs. }
  split.
  - rewrite parse_loop_option; [|reflexivity|exact Hsep].
    destruct (options_find_short AuthType s) as [key|] eqn:Hfind.
    + destruct (options_find_short_boolean _ _ _ Hfind) as [_ (o & Hget & Ht)].
      destruct (option_key_plain _ _ _ Hget) as [Hkey Hkeyeq].
      rewrite (parse_option_long _ _ _ _ _ _ _ _ _ Hget Hkv).
      rewrite parse_loop_option; [|apply startsWith_dash|by apply bare_flag_not_separator].
      rewrite (parse_option_long _ _ _ _ _ _ None _ _ Hget) by by apply key_value_bare.
      by rewrite (boolean_not_password _ _ _ Hget Ht), Ht.
    + unfold parse_option. by rewrite Hkv.
  - split.
    + intros [key Hfind]. by destruct (options_find_short_boolean _ _ _ Hfind).
    + intros Hin.
      repeat (apply elem_of_cons in Hin as [->|Hin]; [by eexists|]).
      by apply elem_of_nil in Hin.
Qed.



Lemma optional_string_not_password (key : string) (o : Option) :
  options_get AuthType key = Own o -> type o = TOptionalString ->
  Str.eqb key "password" = false.
Proof.
  intros Hget Ht. unfold Str.eqb. apply bool_decide_eq_false_2. intros ->.
  vm_compute in Hget. injection Hget as <-. discriminate Ht.
Qed.

(** The value [false] of an OptionalString option ([cert], [link]) is
    swallowed: inline or as the next token, it leaves the record exactly as
    it was -- unset if the option was unset, and with its earlier value if it
    had one.  So the config entry [cert: false] sets nothing. *)
Theorem optional_string_false_skipped (opts : option string) (key : string)
    (o : Option) (rest : list string) (args : Args) :
  options_get AuthType key = Own o -> type o = TOptionalString ->
  parse_loop AuthType path_resolve opts (("--" +:+ key +:+ "=" +:+ "false") :: rest) false args
  = parse_loop AuthType path_resolve opts rest false args
  /\ parse_loop AuthType path_resolve opts (("--" +:+ key) :: "false" :: rest) false args
     = parse_loop AuthType path_resolve opts rest false args
  /\ (forall configPath : string,
        argsFromConfig AuthType path_resolve configPath (YMapping [(key, YBoolean false)])
        = Return (<["config" := VString configPath]> {[ "_" := VStringList [] ]})).
Proof.
  intros Hget Ht.
  destruct (option_key_plain _ _ _ Hget) as [Hkey Hkeyeq].
  assert (Hinline : forall opts rest args,
    parse_loop AuthType path_resolve opts (("--" +:+ key +:+ "=" +:+ "false") :: rest) false args
    = parse_loop AuthType path_resolve opts rest false args).
  { intros opts' rest' args'.
    rewrite parse_loop_option; [|apply startsWith_dash|by apply long_flag_not_separator].
    rewrite (parse_option_long _ _ _ _ _ _ _ _ _ Hget (key_value_inline _ _ _ Hkeyeq)).
    rewrite (optional_string_not_password _ _ Hget Ht), Ht.
    cbn [andb is_boolean]. unfold inline_value. cbn [Str.split bool_decide head default].
    cbn [capture fst snd]. unfold assign. cbn [property_type]. rewrite Ht.
    reflexivity. }
  split; [apply Hinline|split].
  - rewrite parse_loop_option; [|apply startsWith_dash|by apply bare_flag_not_separator].
    rewrite (parse_option_long _ _ _ _ _ _ None _ _ Hget) by by apply key_value_bare.
    rewrite (optional_string_not_password _ _ Hget Ht), Ht.
    cbn [andb is_boolean head capture Str.truthy Str.startsWith negb fst snd].
    unfold assign. cbn [property_type]. rewrite Ht. reflexivity.
  - intros configPath. unfold argsFromConfig. cbn [Yaml.truthy Yaml.is_string negb orb].
    unfold parse. cbn [configFileArgv Yaml.entries map Yaml.to_string].
    by rewrite Hinline.
Qed.

End Forms.

Lemma value_token_same_as_inline_witness :
  parse_loop Example.AuthType Example.path_resolve None
    ["--bind-addr"; "0.0.0.0:9000"; "x"] false {[ "_" := VStringList [] ]}
  = parse_loop Example.AuthType Example.path_resolve None
      ["--bind-addr=0.0.0.0:9000"; "x"] false {[ "_" := VStringList [] ]}.
Proof.
  apply (value_token_same_as_inline Example.AuthType Example.path_resolve None
           "bind-addr" "0.0.0.0:9000" (opt TString) ["x"] {[ "_" := VStringList [] ]}
           eq_refl); [discriminate|reflexivity..].
Defined.

Lemma short_flag_resolution_witness :
  Example.parse ["-vvv"] None = Example.parse ["--verbose"] None
  /\ Example.parse ["-vh"] None = Throw (ParseError None (UnknownOptionError "-vh")).
Proof.
  split.
  - apply (short_flag_resolution Example.AuthType Example.path_resolve None "vvv" []
             {[ "_" := VStringList [] ]} eq_refl).
  - apply (short_flag_resolution Example.AuthType Example.path_resolve None "vh" []
             {[ "_" := VStringList [] ]} eq_refl).
Defined.


Lemma optional_string_false_skipped_witness :
  Example.parse ["--cert=/x"; "--cert"; "false"] None = Example.parse ["--cert=/x"] None.
Proof.
  unfold Example.parse, parse.
  change ["--cert=/x"; "--cert"; "false"] with (["--cert=/x"] ++ ["--cert"; "false"]).
  rewrite parse_loop_app; [|right; by exists "--cert"|].
  - destruct (parse_loop _ _ _ ["--cert=/x"] _ _) as [r|e]; [|reflexivity].
    apply (optional_string_false_skipped Example.AuthType Example.path_resolve None
             "cert" (opt_path TOptionalString) [] r eq_refl eq_refl).
  - intros Hin. apply elem_of_cons in Hin as [Hin|Hin]; [discriminate Hin|].
    by apply elem_of_nil in Hin.
Defined.

(** ** More on the parser: errors and what a record can hold *)

Section Errors.

Variable AuthType : list string.
Variable path_resolve : string -> string.

(** Every error of the loop is an error of one option token. *)
Lemma parse_loop_throws (P : error -> Prop) (opts : option string) :
  (forall arg next args e,
     parse_option AuthType path_resolve opts arg next args = Throw e -> P e) ->
  forall (argv : list string) (ended : bool) (args : Args) (e : error),
    parse_loop AuthType path_resolve opts argv ended args = Throw e -> P e.
Proof.
  intros Hoption argv.
  cut ((forall ended args e,
          parse_loop AuthType path_resolve opts argv ended args = Throw e -> P e)
       /\ (forall ended args e,
          parse_loop AuthType path_resolve opts (tail argv) ended args = Throw e -> P e));
    [tauto|].
  induction argv as [|arg rest [IHrest IHtail]]; [split; discriminate|].
  split; [|exact IHrest]. intros ended args e. cbn [parse_loop].
  destruct (negb ended && Str.eqb arg "--"); [apply IHrest|].
  destruct (negb ended && Str.startsWith arg "-"); [|apply IHrest].
  destruct (parse_option _ _ _ _ _ _) as [[args' consumed]|e'] eqn:Hopt.
  - destruct rest as [|next rest']; [apply IHrest|].
    destruct consumed; [apply IHtail|apply IHrest].
  - intros [= <-]. by eapply Hoption.
Qed.

Lemma parse_option_errors (opts : option string) (arg : string) (next : option string)
    (args : Args) (e : error) :
  parse_option AuthType path_resolve opts arg next args = Throw e ->
  (exists k, e = ParseError (configFile opts) k)
  \/ (e = RestrictedOptionError /\ configFile opts = None)
  \/ e = TypeError.
Proof.
  unfold parse_option. destruct (key_value AuthType arg) as [k inline].
  destruct (_ || _); [intros [= <-]; left; by eexists|].
  destruct (Str.eqb _ _ && negb (bool_decide (is_Some (configFile opts)))) eqn:Hcheck.
  { intros [= <-]. right. left. split; [done|].
    apply andb_prop in Hcheck as [_ Hc%negb_true_iff%bool_decide_eq_false].
    destruct (configFile opts); [|done]. exfalso. apply Hc. by eexists. }
  destruct (is_boolean _); [discriminate|].
  destruct (capture inline next) as [value consumed].
  unfold assign, store, parse_error.
  destruct value as [[|c v]|];
    repeat (match goal with
            | |- context [if ?b then _ else _] => destruct b
            | |- context [match ?x with _ => _ end] => destruct x
            end; cbn [mbind result_bind]; try discriminate);
    intros [= <-]; eauto.
Qed.

(** The errors of [parse]: an error built by its [error] function, which
    carries the config file when there is one; the restricted-option error,
    only outside a config file; or the TypeError of the runtime.  In the
    context of a config file, [password] is therefore never refused. *)
Theorem parse_error_kinds (argv : list string) (opts : option string) (e : error) :
  parse AuthType path_resolve argv opts = Throw e ->
  (exists k, e = ParseError (configFile opts) k)
  \/ (e = RestrictedOptionError /\ configFile opts = None)
  \/ e = TypeError.
Proof.
  unfold parse.
  apply (parse_loop_throws
           (fun e => (exists k, e = ParseError (configFile opts) k)
                     \/ (e = RestrictedOptionError /\ configFile opts = None)
                     \/ e = TypeError) opts).
  intros arg next args e'. apply parse_option_errors.
Qed.

(** The record that an option token leaves differs from the one it found in
    at most the property of its own key. *)
Lemma parse_option_writes_own_key (opts : option string) (arg : string)
    (next : option string) (args args' : Args) (consumed : bool) :
  parse_option AuthType path_resolve opts arg next args = Return (args', consumed) ->
  exists key : string,
    (key = "password" -> is_Some (configFile opts))
    /\ forall k, k <> key -> args' !! k = args !! k.
Proof.
  unfold parse_option. destruct (key_value AuthType arg) as [k inline].
  set (key := default EmptyString k).
  destruct (_ || _); [discriminate|].
  destruct (Str.eqb key "password" && _) eqn:Hcheck; [discriminate|].
  intros Hopt. exists key. split.
  { intros Hk. unfold Str.eqb in Hcheck.
    rewrite (bool_decide_eq_true_2 _ Hk) in Hcheck. simpl in Hcheck.
    by apply negb_false_iff, bool_decide_eq_true in Hcheck. }
  intros k' Hne.
  destruct (is_boolean _); [injection Hopt as <- _; by rewrite lookup_insert_ne|].
  destruct (capture inline next) as [value c].
  destruct (assign _ _ _ _ _ _) as [a|] eqn:Hassign; [|discriminate].
  injection Hopt as <- _. revert Hassign. unfold assign, store, Args.push.
  destruct value as [[|ch v]|];
    repeat (match goal with
            | |- context [if ?b then _ else _] => destruct b
            | |- context [match ?x with _ => _ end] => destruct x
            end; try discriminate);
    intros [= <-]; by rewrite ?lookup_insert_ne.
Qed.

(** Outside a config file no record holds a password: the command line
    cannot set it. *)
Theorem password_never_from_command_line (argv : list string) (opts : option string)
    (r : Args) :
  configFile opts = None ->
  parse AuthType path_resolve argv opts = Return r ->
  r !! "password" = None.
Proof.
  intros Hopts Hparse. unfold parse in Hparse.
  eapply (parse_loop_preserves _ _ (fun args => args !! "password" = None));
    [| |exact Hparse|].
  - intros arg next args args' consumed Hopt Hargs.
    destruct (parse_option_writes_own_key _ _ _ _ _ _ Hopt) as (key & Hpw & Hother).
    rewrite Hother; [exact Hargs|].
    intros <-. rewrite Hopts in Hpw. by destruct Hpw.
  - intros arg args Hargs. unfold Args.push. by rewrite lookup_insert_ne.
  - by rewrite lookup_singleton_ne.
Qed.

(** Every record that [parse] returns holds the positional list, and each of
    its keys is an option of the catalog with a value of the type of that
    option: a boolean is [true], a number is not [NaN], the value of an
    enumeration is one of its values. *)
Theorem parse_record_typed (argv : list string) (opts : option string) (r : Args) :
  parse AuthType path_resolve argv opts = Return r ->
  (exists positional, r !! "_" = Some (VStringList positional))
  /\ forall k v, r !! k = Some v ->
       exists o, options_get AuthType k = Own o /\ value_has_type (type o) v = true.
Proof.
  intros Hparse. destruct (parse_well_typed _ _ _ _ _ Hparse) as [Hwt Hpos].
  split; [exact Hpos|]. intros k v Hk. exact (Hwt k v Hk).
Qed.


(** The names that [options] inherits from [Object.prototype] pass the test
    for unknown options: such a flag fails with MissingValueError when it
    comes without a value, and with the TypeError of the runtime when it
    comes with one. *)
Theorem prototype_name_not_unknown (opts : option string) (key : string)
    (rest : list string) (args : Args) :
  key ∈ object_prototype_names ->
  (head rest = None \/ exists n, head rest = Some n /\ Str.startsWith n "-" = true) ->
  options_get AuthType key = Inherited
  /\ parse_loop AuthType path_resolve opts (("--" +:+ key) :: rest) false args
     = Throw (parse_error opts (MissingValueError key))
  /\ forall v, Str.truthy (inline_value v) = true ->
       parse_loop AuthType path_resolve opts (("--" +:+ key +:+ "=" +:+ v) :: rest) false args
       = Throw TypeError.
Proof.
  intros Hin Hnext.
  assert (Hget : options_get AuthType key = Inherited
                 /\ Str.truthy key = true /\ Str.contains "=" key = false
                 /\ Str.eqb key "password" = false).
  { unfold object_prototype_names in Hin.
    repeat (apply elem_of_cons in Hin as [->|Hin]; [by vm_compute|]).
    by apply elem_of_nil in Hin. }
  destruct Hget as (Hget & Hkey & Heq & Hpw). split; [exact Hget|]. split.
  - rewrite parse_loop_option; [|apply startsWith_dash|by apply bare_flag_not_separator].
    unfold parse_option. rewrite (key_value_bare _ _ Heq).
    cbn [default from_option]. unfold id. rewrite Hkey, Hget, Hpw.
    cbn [negb orb andb property_type is_boolean].
    rewrite bool_decide_eq_false_2 by discriminate.
    by rewrite (capture_none _ Hnext).
  - intros v Hv.
    rewrite parse_loop_option; [|apply startsWith_dash|by apply long_flag_not_separator].
    unfold parse_option. rewrite (key_value_inline _ _ _ Heq).
    cbn [default from_option]. unfold id. rewrite Hkey, Hget, Hpw.
    cbn [negb orb andb property_type is_boolean capture].
    rewrite bool_decide_eq_false_2 by discriminate.
    unfold assign. cbn [property_type is_optional_string andb property_path].
    by destruct (inline_value v).
Qed.



End Errors.

Lemma parse_error_kinds_witness :
  (exists k, ParseError (Some "c.yaml") (InvalidNumberError "port")
             = ParseError (configFile (Some "c.yaml")) k)
  \/ (ParseError (Some "c.yaml") (InvalidNumberError "port") = RestrictedOptionError
      /\ configFile (Some "c.yaml") = None)
  \/ ParseError (Some "c.yaml") (InvalidNumberError "port") = TypeError.
Proof.
  apply (parse_error_kinds Example.AuthType Example.path_resolve
           ["--password=x"; "--port=abc"] (Some "c.yaml")).
  vm_compute. reflexivity.
Defined.

Lemma password_never_from_command_line_witness :
  (<["json" := VBoolean true]> {[ "_" := VStringList ["x"] ]} : Args) !! "password" = None.
Proof.
  apply (password_never_from_command_line Example.AuthType Example.path_resolve
           ["--json"; "x"] None); [reflexivity|].
  vm_compute. reflexivity.
Defined.

Lemma parse_record_typed_witness :
  (exists positional,
     (<["port" := VNumber (Int 80)]> {[ "_" := VStringList ["x"] ]} : Args) !! "_"
     = Some (VStringList positional))
  /\ forall k v,
       (<["port" := VNumber (Int 80)]> {[ "_" := VStringList ["x"] ]} : Args) !! k = Some v ->
       exists o, options_get Example.AuthType k = Own o
                 /\ value_has_type (type o) v = true.
Proof.
  apply (parse_record_typed Example.AuthType Example.path_resolve ["--port"; "80"; "x"] None).
  vm_compute. reflexivity.
Defined.


Lemma prototype_name_not_unknown_witness :
  Example.parse ["--constructor"] None
  = Throw (ParseError None (MissingValueError "constructor"))
  /\ Example.parse ["--toString=1"] None = Throw TypeError.
Proof.
  split.
  - apply (prototype_name_not_unknown Example.AuthType Example.path_resolve None
             "constructor" [] {[ "_" := VStringList [] ]}); [set_solver|by left].
  - apply (prototype_name_not_unknown Example.AuthType Example.path_resolve None
             "toString" [] {[ "_" := VStringList [] ]}); [set_solver|by left|reflexivity].
Defined.


(** ** More on the bind address *)

Section Resolution.

Variable host_parse : string -> option string.

(** The resolved host, when both bind addresses parse: the [host] of the CLI
    record, else the host of its [bind-addr], else the [host] of the config
    record, else the host of its [bind-addr], else [localhost].  Neither
    [PORT] nor a [port] field has a say in it. *)
Theorem resolved_host_precedence (w : World) (cliArgs configArgs : Args) :
  bind_addr_parses host_parse configArgs ->
  bind_addr_parses host_parse cliArgs ->
  fst <$> (match bindAddrFromAllSources host_parse w cliArgs configArgs with
           | Return hp => Some hp
           | Throw _ => None
           end)
  = Some (first_of [truthy_string cliArgs "host";
                    fst <$> bind_addr_of host_parse cliArgs;
                    truthy_string configArgs "host";
                    fst <$> bind_addr_of host_parse configArgs] "localhost").
Proof.
  intros Hcfg Hcli. unfold bindAddrFromAllSources.
  rewrite (bindAddrFromArgs_resolved host_parse w _ _ Hcfg). cbn [mbind result_bind].
  rewrite (bindAddrFromArgs_resolved host_parse w _ _ Hcli). cbn [mbind result_bind host].
  reflexivity.
Qed.

(** The resolved port, when both bind addresses parse: the [port] of the CLI
    record, else the value of [PORT], else the port of the CLI [bind-addr],
    else the [port] of the config record, else the port of the config
    [bind-addr], else 8080.  The value of [PORT] is the number that [parseInt]
    reads from it, for a [PORT] whose number JavaScript holds exactly. *)
Theorem resolved_port_precedence (w : World) (cliArgs configArgs : Args) :
  (forall p, World.env_truthy "PORT" w = Some p ->
             is_safe_number (Num.parseInt p) = true) ->
  bind_addr_parses host_parse configArgs ->
  bind_addr_parses host_parse cliArgs ->
  snd <$> (match bindAddrFromAllSources host_parse w cliArgs configArgs with
           | Return hp => Some hp
           | Throw _ => None
           end)
  = Some (first_of [Args.get_number cliArgs "port";
                    Num.parseInt <$> World.env_truthy "PORT" w;
                    snd <$> bind_addr_of host_parse cliArgs;
                    Args.get_number configArgs "port";
                    snd <$> bind_addr_of host_parse configArgs] (Int 8080)).
Proof.
  intros _ Hcfg Hcli. unfold bindAddrFromAllSources.
  rewrite (bindAddrFromArgs_resolved host_parse w _ _ Hcfg). cbn [mbind result_bind].
  rewrite (bindAddrFromArgs_resolved host_parse w _ _ Hcli). cbn [mbind result_bind port].
  cbn [fmap option_fmap option_map snd first_of]. f_equal.
  destruct (Args.get_number cliArgs "port"); [reflexivity|].
  destruct (World.env_truthy "PORT" w); [reflexivity|].
  destruct (bind_addr_of host_parse cliArgs) as [[h p]|]; [reflexivity|].
  by destruct (Args.get_number configArgs "port").
Qed.

(** Resolution fails exactly when the [bind-addr] of one of the two records
    is rejected by the URL parser, and then with its TypeError; hosts, ports
    and [PORT] cannot make it fail. *)
Theorem resolution_fails_on_bad_bind_addr (w : World) (cliArgs configArgs : Args) :
  (forall e, bindAddrFromAllSources host_parse w cliArgs configArgs = Throw e ->
             e = TypeError)
  /\ ((exists e, bindAddrFromAllSources host_parse w cliArgs configArgs = Throw e)
      <-> ~ (bind_addr_parses host_parse configArgs
             /\ bind_addr_parses host_parse cliArgs)).
Proof.
  assert (Hone : forall addr args,
    (bind_addr_parses host_parse args /\ exists a, bindAddrFromArgs host_parse w addr args = Return a)
    \/ (~ bind_addr_parses host_parse args
        /\ bindAddrFromArgs host_parse w addr args = Throw TypeError)).
  { intros addr args. unfold bind_addr_parses, bindAddrFromArgs, parseBindAddr.
    destruct (Args.get_string args "bind-addr") as [[|c s]|];
      try (left; split; [done|by eexists]).
    destruct (URL.parse_http host_parse (String c s)) as [u|].
    - left. split; [by eexists|by eexists].
    - right. split; [by intros [? ?]|reflexivity]. }
  unfold bindAddrFromAllSources.
  destruct (Hone (mkAddr "localhost" (Int 8080)) configArgs) as [[Hcfg [a1 ->]]|[Hcfg ->]];
    cbn [mbind result_bind].
  - destruct (Hone a1 cliArgs) as [[Hcli [a2 ->]]|[Hcli ->]]; cbn [mbind result_bind].
    + split; [discriminate|]. split; [by intros [? ?]|]. intros H. by destruct H.
    + split; [by intros e [= <-]|]. split; [tauto|]. by eexists.
  - split; [by intros e [= <-]|]. split; [tauto|]. by eexists.
Qed.

End Resolution.

Lemma resolved_host_precedence_witness :
  fst <$> (match Example.bindAddrFromAllSources (Example.world {[ "PORT" := "1" ]} ∅)
                   {[ "_" := VStringList []; "bind-addr" := VString "cli.example:1000" ]}
                   {[ "_" := VStringList []; "host" := VString "cfg.example";
                      "port" := VNumber (Int 3) ]} with
           | Return hp => Some hp
           | Throw _ => None
           end)
  = Some "cli.example".
Proof.
  etrans.
  - apply (resolved_host_precedence URL.simple_host_parse).
    + vm_compute. exact I.
    + vm_compute. by eexists.
  - vm_compute. reflexivity.
Defined.

Lemma resolved_port_precedence_witness :
  snd <$> (match Example.bindAddrFromAllSources (Example.world {[ "PORT" := "7777" ]} ∅)
                   {[ "_" := VStringList []; "bind-addr" := VString "cli.example:1000" ]}
                   {[ "_" := VStringList []; "host" := VString "cfg.example";
                      "port" := VNumber (Int 3) ]} with
           | Return hp => Some hp
           | Throw _ => None
           end)
  = Some (Int 7777).
Proof.
  etrans.
  - apply (resolved_port_precedence URL.simple_host_parse).
    + intros p Hp. vm_compute in Hp. injection Hp as <-. reflexivity.
    + vm_compute. exact I.
    + vm_compute. by eexists.
  - vm_compute. reflexivity.
Defined.

(** ** A bind address with an explicit port *)

Lemma string_app_nil_r (s : string) : s +:+ "" = s.
Proof.
  induction s as [|c s IH]; [done|].
  change (String c s +:+ "") with (String c (s +:+ "")). by rewrite IH.
Qed.

Lemma rev_onto_rev_onto (s a b : string) :
  Str.rev_onto (Str.rev_onto s a) b = Str.rev_onto a (s +:+ b).
Proof.
  revert a b. induction s as [|c s IH]; intros a b; [reflexivity|].
  cbn [Str.rev_onto]. by rewrite IH.
Qed.

Lemma rev_involutive (s : string) : Str.rev (Str.rev s) = s.
Proof. unfold Str.rev. rewrite rev_onto_rev_onto. apply string_app_nil_r. Qed.

Lemma forallb_rev_onto (q : ascii -> bool) (s acc : string) :
  Str.forallb q (Str.rev_onto s acc) = Str.forallb q s && Str.forallb q acc.
Proof.
  revert acc. induction s as [|c s IH]; intros acc; [reflexivity|].
  cbn [Str.rev_onto Str.forallb]. rewrite IH. cbn [Str.forallb].
  destruct (q c), (Str.forallb q s), (Str.forallb q acc); reflexivity.
Qed.

Lemma forallb_app (q : ascii -> bool) (a b : string) :
  Str.forallb q (a +:+ b) = Str.forallb q a && Str.forallb q b.
Proof.
  induction a as [|c a IH]; [reflexivity|].
  change (String c a +:+ b) with (String c (a +:+ b)). cbn [Str.forallb].
  rewrite IH. by destruct (q c).
Qed.

Lemma forallb_impl (p q : ascii -> bool) (s : string) :
  (forall c, p c = true -> q c = true) ->
  Str.forallb p s = true -> Str.forallb q s = true.
Proof.
  intros Hpq. induction s as [|c s IH]; [done|]. cbn [Str.forallb].
  intros [Hc Hs]%andb_prop. by rewrite (Hpq c Hc), (IH Hs).
Qed.

Lemma drop_while_none (p : ascii -> bool) (s : string) :
  Str.forallb (fun c => negb (p c)) s = true -> Str.drop_while p s = s.
Proof.
  destruct s as [|c s]; [done|]. cbn [Str.forallb Str.drop_while].
  intros [Hc _]%andb_prop. by apply negb_true_iff in Hc as ->.
Qed.

Lemma take_while_all (q : ascii -> bool) (s : string) :
  Str.forallb q s = true -> Str.take_while q s = s.
Proof.
  induction s as [|c s IH]; [done|]. cbn [Str.forallb Str.take_while].
  intros [-> Hs]%andb_prop. by rewrite (IH Hs).
Qed.

Lemma filter_all (q : ascii -> bool) (s : string) :
  Str.forallb q s = true -> Str.filter q s = s.
Proof.
  induction s as [|c s IH]; [done|]. cbn [Str.forallb Str.filter].
  intros [-> Hs]%andb_prop. by rewrite (IH Hs).
Qed.

Lemma after_last_at_none (s : string) :
  Str.forallb (fun c => negb (bool_decide (c = "@"%char))) s = true ->
  URL.after_last_at s = None.
Proof.
  induction s as [|c s IH]; [done|]. cbn [Str.forallb URL.after_last_at].
  intros [Hc Hs]%andb_prop. rewrite (IH Hs).
  by apply negb_true_iff in Hc as ->.
Qed.

Lemma split_host_plain (b rest : string) :
  Str.forallb is_plain_host_char b = true ->
  URL.split_host false (b +:+ String ":" rest) = (b, Some rest).
Proof.
  induction b as [|c b IH].
  - intros _. reflexivity.
  - cbn [Str.forallb]. intros [Hc Hb]%andb_prop.
    change (String c b +:+ String ":" rest) with (String c (b +:+ String ":" rest)).
    cbn [URL.split_host].
    assert (Hcs : bool_decide (c = ":"%char) = false
                  /\ bool_decide (c = "["%char) = false
                  /\ bool_decide (c = "]"%char) = false).
    { repeat split; apply bool_decide_eq_false_2; intros ->; discriminate Hc. }
    destruct Hcs as (-> & -> & ->). cbn [andb]. by rewrite (IH Hb).
Qed.

(** The characters that pass through the preparation of the input and the
    scan of the authority untouched. *)
Lemma plain_address_chars (b digits : string) :
  Str.forallb is_plain_host_char b = true ->
  Str.forallb Num.is_digit digits = true ->
  forall q : ascii -> bool,
    (forall c, is_plain_host_char c = true -> q c = true) ->
    q ":"%char = true ->
    (forall c, Num.is_digit c = true -> q c = true) ->
    Str.forallb q (b +:+ String ":" digits) = true.
Proof.
  intros Hb Hd q Hplain Hcolon Hdigit. rewrite forallb_app. cbn [Str.forallb].
  rewrite (forallb_impl _ _ _ Hplain Hb), Hcolon, (forallb_impl _ _ _ Hdigit Hd).
  reflexivity.
Qed.

Lemma plain_char_cases (c : ascii) :
  is_plain_host_char c = true \/ c = ":"%char \/ Num.is_digit c = true ->
  negb (URL.is_c0_control_or_space c) = true
  /\ negb (URL.is_tab_or_newline c) = true
  /\ negb (URL.is_slash c) = true
  /\ negb (URL.is_authority_end c) = true
  /\ negb (bool_decide (c = "@"%char)) = true.
Proof.
  destruct c as [[] [] [] [] [] [] [] []];
    intros [H|[H|H]]; try discriminate H; repeat split; reflexivity.
Qed.

Lemma host_and_port_plain (b digits : string) :
  is_plain_host b = true -> Str.forallb Num.is_digit digits = true ->
  URL.host_and_port (b +:+ ":" +:+ digits) = Some (b, Some digits).
Proof.
  intros [Htruthy Hb]%andb_prop Hd.
  change (b +:+ ":" +:+ digits) with (b +:+ String ":" digits).
  assert (Hall : forall q : ascii -> bool,
    (forall c, is_plain_host_char c = true \/ c = ":"%char \/ Num.is_digit c = true ->
               q c = true) ->
    Str.forallb q (b +:+ String ":" digits) = true).
  { intros q Hq. apply plain_address_chars; auto. }
  unfold URL.host_and_port, URL.authority, URL.preprocess.
  rewrite (drop_while_none URL.is_c0_control_or_space).
  2:{ unfold Str.rev. rewrite forallb_rev_onto, andb_true_r.
      apply Hall. intros c Hc. by destruct (plain_char_cases c Hc). }
  rewrite rev_involutive.
  rewrite filter_all
    by (apply Hall; intros c Hc; by destruct (plain_char_cases c Hc) as (_ & ? & _)).
  rewrite (drop_while_none URL.is_slash)
    by (apply Hall; intros c Hc; by destruct (plain_char_cases c Hc) as (_ & _ & ? & _)).
  rewrite take_while_all
    by (apply Hall; intros c Hc; by destruct (plain_char_cases c Hc) as (_ & _ & _ & ? & _)).
  rewrite after_last_at_none
    by (apply Hall; intros c Hc; by destruct (plain_char_cases c Hc) as (_ & _ & _ & _ & ?)).
  cbn [mbind option_bind]. by rewrite split_host_plain.
Qed.

(** [parseBindAddr] on a plain host, a colon and decimal digits: the port is
    the value of the digits -- leading zeros are dropped, and 80 comes back
    as 80 although the URL keeps no default port -- unless that value is
    above 65535, which fails. *)
Theorem parseBindAddr_explicit_port (host_parse : string -> option string)
    (b h digits : string) :
  is_plain_host b = true -> host_parse b = Some h ->
  Str.truthy digits = true -> Str.forallb Num.is_digit digits = true ->
  parseBindAddr host_parse (b +:+ ":" +:+ digits)
  = if (Num.read_digits digits 0 <=? 65535)%N
    then Return (h, Int (Z.of_N (Num.read_digits digits 0)))
    else Throw TypeError.
Proof.
  intros Hb Hh Htruthy Hd. unfold parseBindAddr, URL.parse_http.
  rewrite (host_and_port_plain _ _ Hb Hd). cbn [mbind option_bind].
  destruct b as [|c b]; [discriminate|]. rewrite Hh. cbn [mbind option_bind].
  unfold URL.parse_port. rewrite Hd. destruct digits as [|d digits]; [discriminate|].
  set (p := Num.read_digits (String d digits) 0).
  destruct (N.leb_spec p 65535) as [Hle|Hgt].
  - rewrite (proj2 (N.ltb_ge 65535 p)) by lia.
    destruct (N.eqb_spec p 80) as [->|Hne]; cbn [mbind option_bind URL.port URL.hostname].
    + reflexivity.
    + rewrite (starts_with_digit_truthy _ (string_of_N_starts_with_digit p)).
      by rewrite parseInt_string_of_N.
  - by rewrite (proj2 (N.ltb_lt 65535 p)) by lia.
Qed.

Lemma parseBindAddr_explicit_port_witness :
  parseBindAddr URL.simple_host_parse "example.com:0080" = Return ("example.com", Int 80)
  /\ parseBindAddr URL.simple_host_parse "127.0.0.1:65536" = Throw TypeError.
Proof.
  split.
  - apply (parseBindAddr_explicit_port URL.simple_host_parse "example.com" "example.com"
             "0080"); reflexivity.
  - apply (parseBindAddr_explicit_port URL.simple_host_parse "127.0.0.1" "127.0.0.1"
             "65536"); reflexivity.
Defined.

(** ** More on existing instances and on the extension commands *)

Section Instance.

Variable path_join : list string -> string.
Variable os_tmpdir : string.
Variable canConnect : string -> bool.

(** Whatever the record, [shouldOpenInExistingInstance] writes nothing: the
    heap, the environment, the file system and the logger are as before.  It
    attempts at most one connection, and only to the path that the socket
    file holds; and when [VSCODE_IPC_HOOK_CLI] is set (and not empty) it
    returns that value without reading the file or connecting at all. *)
Theorem existing_instance_effects (args : Args) (w : World) :
  let run := shouldOpenInExistingInstance path_join os_tmpdir canConnect args w in
  (heap run.2 = heap w /\ env run.2 = env w /\ fs run.2 = fs w
   /\ logger_level run.2 = logger_level w)
  /\ (probes run.2 = probes w
      \/ exists p, (readSocketPath path_join os_tmpdir w).1 = Return (Some p)
                   /\ probes run.2 = probes w ++ [p])
  /\ (forall hook, World.env_truthy "VSCODE_IPC_HOOK_CLI" w = Some hook ->
                   run = (Return (Some hook), w)).
Proof.
  intros run. subst run.
  unfold shouldOpenInExistingInstance, mbind, IO_bind, mret, IO_ret,
    World.getenv, World.lift, World.probe.
  destruct (World.env_truthy "VSCODE_IPC_HOOK_CLI" w) as [hook|].
  { split; [done|]. split; [by left|]. by intros ? [= <-]. }
  pose proof (readSocketPath_world path_join os_tmpdir w) as Hw.
  destruct (bool_decide _).
  { rewrite Hw. split; [done|]. split; [by left|discriminate]. }
  destruct (bool_decide _); [|split; [done|]; split; [by left|discriminate]].
  destruct (positional_length args) as [n|e];
    [|split; [done|]; split; [by left|discriminate]].
  destruct (bool_decide _); [|split; [done|]; split; [by left|discriminate]].
  destruct (readSocketPath path_join os_tmpdir w) as [[[[|c s]|]|e] w'];
    simpl in Hw; subst w'; try (split; [done|]; split; [by left|discriminate]).
  split; [done|]. split; [|discriminate]. right. by eexists.
Qed.

End Instance.

Section Commands.

Variable AuthType : list string.
Variable path_resolve : string -> string.

(** In a well typed record a list option is truthy as soon as it is
    present. *)
Lemma well_typed_list_truthy (args : Args) (key : string) (o : Option) :
  well_typed AuthType args ->
  options_get AuthType key = Own o -> type o = TStringList ->
  Args.truthy args key = bool_decide (is_Some (args !! key)).
Proof.
  intros Hwt Hget Hl. unfold Args.truthy.
  destruct (args !! key) as [v|] eqn:Hv.
  - rewrite bool_decide_eq_true_2 by by eexists.
    destruct (Hwt _ _ Hv) as (o' & Hget' & Hty).
    rewrite Hget in Hget'. injection Hget' as <-. rewrite Hl in Hty.
    by destruct v.
  - rewrite bool_decide_eq_false_2; [done|]. by intros [? ?].
Qed.

(** For the record of a command line, [shouldRunVsCodeCli] holds exactly
    when [--list-extensions], [--install-extension] or
    [--uninstall-extension] was given. *)
Theorem shouldRunVsCodeCli_on_parsed (argv : list string) (opts : option string)
    (args : Args) :
  parse AuthType path_resolve argv opts = Return args ->
  shouldRunVsCodeCli args = true
  <-> is_Some (args !! "list-extensions") \/ is_Some (args !! "install-extension")
      \/ is_Some (args !! "uninstall-extension").
Proof.
  intros Hparse. destruct (parse_well_typed _ _ _ _ _ Hparse) as [Hwt _].
  unfold shouldRunVsCodeCli.
  rewrite (well_typed_boolean_truthy _ _ "list-extensions" (opt TBoolean) Hwt)
    by reflexivity.
  rewrite (well_typed_list_truthy _ "install-extension" (opt TStringList) Hwt)
    by reflexivity.
  rewrite (well_typed_list_truthy _ "uninstall-extension" (opt TStringList) Hwt)
    by reflexivity.
  rewrite !orb_true_iff, !bool_decide_eq_true. tauto.
Qed.

End Commands.

Lemma shouldRunVsCodeCli_on_parsed_witness :
  shouldRunVsCodeCli
    (<["install-extension" := VStringList ["a.b"]]> {[ "_" := VStringList [] ]}) = true
  <-> is_Some ((<["install-extension" := VStringList ["a.b"]]>
                  {[ "_" := VStringList [] ]} : Args) !! "list-extensions")
      \/ is_Some ((<["install-extension" := VStringList ["a.b"]]>
                     {[ "_" := VStringList [] ]} : Args) !! "install-extension")
      \/ is_Some ((<["install-extension" := VStringList ["a.b"]]>
                     {[ "_" := VStringList [] ]} : Args) !! "uninstall-extension").
Proof.
  apply (shouldRunVsCodeCli_on_parsed Example.AuthType Example.path_resolve
           ["--install-extension"; "a.b"] None).
  vm_compute. reflexivity.
Defined.

(** ** More on the config file *)

Section Config.

Variable AuthType : list string.
Variable path_resolve : string -> string.

Lemma config_entry_throw (configPath : string) (e : error)
    (entries : list (string * yaml)) :
  foldl (config_entry AuthType path_resolve configPath) (Throw e) entries = Throw e.
Proof. induction entries as [|entry entries IH]; [reflexivity|exact IH]. Qed.

(** The loop over the tokens of config entries handles the entries one by
    one. *)
Lemma parse_loop_config (configPath : string) (entries : list (string * yaml)) :
  Forall (fun entry => Str.truthy entry.1 = true) entries ->
  forall args : Args,
    parse_loop AuthType path_resolve (Some configPath) (map config_token entries)
      false args
    = foldl (config_entry AuthType path_resolve configPath) (Return args) entries.
Proof.
  induction 1 as [|entry entries Hkey _ IH]; intros args; [reflexivity|].
  cbn [map foldl].
  rewrite parse_loop_option
    by (first [apply config_token_dash|by apply config_token_not_separator]).
  assert (Hnext : head (map config_token entries) = None
                  \/ exists n, head (map config_token entries) = Some n
                               /\ Str.startsWith n "-" = true).
  { destruct entries as [|entry' entries']; [by left|].
    right. eexists. split; [reflexivity|apply config_token_dash]. }
  assert (Hsame : parse_option AuthType path_resolve (Some configPath)
                    (config_token entry) (head (map config_token entries)) args
                  = parse_option AuthType path_resolve (Some configPath)
                      (config_token entry) None args).
  { destruct Hnext as [->|(n & -> & Hn)]; [reflexivity|].
    by apply parse_option_next_dash. }
  rewrite Hsame.
  assert (Hentry : config_entry AuthType path_resolve configPath (Return args) entry
                   = match parse_option AuthType path_resolve (Some configPath)
                             (config_token entry) None args with
                     | Return r => Return r.1
                     | Throw e => Throw e
                     end) by reflexivity.
  rewrite Hentry. clear Hentry Hsame.
  destruct (parse_option _ _ _ _ None args) as [[args' consumed]|e] eqn:Hopt;
    cbn [fst].
  - assert (consumed = false) as ->
      by (eapply parse_option_dash_not_consumed; [by left|exact Hopt]).
    apply IH.
  - by rewrite config_entry_throw.
Qed.

(** The entries of a config document are independent.  When no key is empty,
    the arguments of the document are what comes of handling its entries in
    order, each one as the single token [--key=value] (or [--key] for
    [true]) with nothing after it: no entry takes its value from the next
    one, and the first entry that fails is the error of the document. *)
Theorem config_entries_independent (configPath : string)
    (entries : list (string * yaml)) :
  Forall (fun entry => Str.truthy entry.1 = true) entries ->
  argsFromConfig AuthType path_resolve configPath (YMapping entries)
  = (args ← foldl (config_entry AuthType path_resolve configPath)
              (Return {[ "_" := VStringList [] ]}) entries;
     Return (<["config" := VString configPath]> args)).
Proof.
  intros Hkeys. unfold argsFromConfig, parse. cbn [Yaml.truthy Yaml.is_string negb orb].
  rewrite configFileArgv_tokens. cbn [Yaml.entries].
  by rewrite parse_loop_config.
Qed.


Variable paths_config : string.
Variable path_join : list string -> string.
Variable yaml_safeLoad : string -> result yaml.
Variable generatePassword : string.
Variable fs_outputFile :
  string -> string -> gmap string node -> result unit * gmap string node.

Lemma config_path_eq (configPath : option string) (w : World) :
  match configPath with
  | Some (String c s) => String c s
  | _ => default (path_join [paths_config; "config.yaml"])
           (World.env_truthy "CODE_SERVER_CONFIG" w)
  end = config_path paths_config path_join configPath w.
Proof.
  unfold config_path. destruct configPath as [[|c s]|];
    by destruct (World.env_truthy "CODE_SERVER_CONFIG" w).
Qed.

(** [readConfigFile] never overwrites a file.  When something exists at the
    path it settles on, it leaves the world as it is.  When nothing exists
    there, its only effect is one [fs.outputFile] of the default text at that
    path, and a failure of that write is the failure of the call. *)
Theorem readConfigFile_creates_only_missing_file (configPath : option string)
    (w : World) :
  let read := readConfigFile AuthType path_resolve paths_config path_join
                yaml_safeLoad generatePassword fs_outputFile configPath in
  let p := config_path paths_config path_join configPath w in
  let written := fs_outputFile p (defaultConfigFile generatePassword) (fs w) in
  (is_Some (fs w !! p) -> (read w).2 = w)
  /\ (fs w !! p = None ->
      (read w).2 = mkWorld (heap w) (env w) written.2 (logger_level w) (probes w)
      /\ forall e, written.1 = Throw e -> (read w).1 = Throw e).
Proof.
  intros read p written.
  unfold read, readConfigFile, mbind, IO_bind, mret, IO_ret,
    World.getenv, World.pathExists, World.on_fs, World.readFile, World.lift.
  rewrite config_path_eq. fold p. split.
  - intros Hsome. rewrite bool_decide_eq_true_2 by exact Hsome.
    destruct Hsome as [n Hn]. rewrite Hn.
    destruct n as [content| |code]; try reflexivity.
    destruct (yaml_safeLoad content); reflexivity.
  - intros Hnone. rewrite bool_decide_eq_false_2 by (rewrite Hnone; by intros [? ?]).
    fold written. destruct written as [[[]|e] f']; cbn [fst snd fs].
    + split; [|discriminate].
      destruct (f' !! p) as [[content| |code]|]; try reflexivity.
      destruct (yaml_safeLoad content); reflexivity.
    + split; [reflexivity|]. by intros e' [= <-].
Qed.

(** The record that [readConfigFile] returns names, in [config], the path
    that was read -- also when the document has a [config] entry of its
    own. *)
Theorem readConfigFile_records_path (configPath : option string) (w : World)
    (r : Args) :
  (readConfigFile AuthType path_resolve paths_config path_join yaml_safeLoad
     generatePassword fs_outputFile configPath w).1 = Return r ->
  r !! "config" = Some (VString (config_path paths_config path_join configPath w)).
Proof.
  unfold readConfigFile, mbind, IO_bind, mret, IO_ret,
    World.getenv, World.pathExists, World.on_fs, World.readFile, World.lift.
  rewrite config_path_eq. set (p := config_path _ _ _ _).
  assert (Hargs : forall config,
            argsFromConfig AuthType path_resolve p config = Return r ->
            r !! "config" = Some (VString p)).
  { intros config. unfold argsFromConfig. destruct (_ || _); [discriminate|].
    destruct (parse _ _ _ _) as [args|e]; [|discriminate].
    intros [= <-]. apply lookup_insert_eq. }
  assert (Hload : forall f : gmap string node,
            (match
               (match f !! p with
                | Some (File content) => Return content
                | Some Directory => Throw (IOError "EISDIR")
                | Some (Failing code) => Throw (IOError code)
                | None => Throw (IOError "ENOENT")
                end) with
             | Return content =>
                 match yaml_safeLoad content with
                 | Return config => argsFromConfig AuthType path_resolve p config
                 | Throw e => Throw e
                 end
             | Throw e => Throw e
             end) = Return r ->
            r !! "config" = Some (VString p)).
  { intros f. destruct (f !! p) as [[content| |code]|]; try discriminate.
    destruct (yaml_safeLoad content) as [config|e]; [apply Hargs|discriminate]. }
  destruct (bool_decide (is_Some (fs w !! p))).
  - intros Hret. apply (Hload (fs w)). revert Hret.
    destruct (fs w !! p) as [[content| |code]|]; cbn [fst]; try discriminate.
    by destruct (yaml_safeLoad content).
  - destruct (fs_outputFile p (defaultConfigFile generatePassword) (fs w))
      as [[[]|e] f']; cbn [fs fst]; [|discriminate].
    intros Hret. apply (Hload f'). revert Hret.
    destruct (f' !! p) as [[content| |code]|]; cbn [fst]; try discriminate.
    by destruct (yaml_safeLoad content).
Qed.

End Config.

Lemma config_entries_independent_witness :
  Example.argsFromConfig "/c.yaml"
    (YMapping [("auth", YString "none"); ("cert", YBoolean true); ("port", YNumber (Int 80))])
  = (args ← foldl (config_entry Example.AuthType Example.path_resolve "/c.yaml")
              (Return {[ "_" := VStringList [] ]})
              [("auth", YString "none"); ("cert", YBoolean true); ("port", YNumber (Int 80))];
     Return (<["config" := VString "/c.yaml"]> args)).
Proof.
  apply config_entries_independent. repeat constructor.
Defined.


Lemma readConfigFile_records_path_witness :
  (<["config" := VString "/etc/cs.yaml"]> {[ "_" := VStringList [] ]} : Args) !! "config"
  = Some (VString (config_path "/config" Example.path_join (Some "/etc/cs.yaml")
                     (Example.world {[ "CODE_SERVER_CONFIG" := "/other.yaml" ]}
                        {[ "/etc/cs.yaml" := File "true" ]}))).
Proof.
  apply (readConfigFile_records_path Example.AuthType Example.path_resolve "/config"
           Example.path_join Example.yaml_safeLoad "secret" Example.fs_outputFile).
  vm_compute. reflexivity.
Defined.

(** ** What the defaults are *)

Lemma bind_returns {A B : Type} (m : IO A) (k : A -> IO B) (w : World) (a : A)
    (w' : World) :
  m w = (Return a, w') -> mbind k m w = k a w'.
Proof. intros Hm. unfold mbind, IO_bind. by rewrite Hm. Qed.

Lemma bind_throws {A B : Type} (m : IO A) (k : A -> IO B) (w : World) (e : error)
    (w' : World) :
  m w = (Throw e, w') -> mbind k m w = (Throw e, w').
Proof. intros Hm. unfold mbind, IO_bind. by rewrite Hm. Qed.

(** One step of a computation whose first part returns [a] and leaves [w']. *)
Ltac io_returns a w' tac :=
  etrans; [apply (bind_returns _ _ _ a w'); tac|cbv beta].

Lemma read_run (r : loc) (x : Args) (h : gmap loc Args) (e : gmap string string)
    (f : gmap string node) (l : Level) (p : list string) :
  World.read r (mkWorld (<[r := x]> h) e f l p)
  = (Return x, mkWorld (<[r := x]> h) e f l p).
Proof. unfold World.read. cbn [heap]. by rewrite lookup_insert_eq. Qed.

Lemma set_prop_run (r : loc) (key : string) (v : Value) (x : Args)
    (h : gmap loc Args) (e : gmap string string) (f : gmap string node)
    (l : Level) (p : list string) :
  World.set_prop r key v (mkWorld (<[r := x]> h) e f l p)
  = (Return tt, mkWorld (<[r := <[key := v]> x]> h) e f l p).
Proof.
  unfold World.set_prop. cbn [heap env fs logger_level probes].
  by rewrite alter_insert_eq.
Qed.

Lemma truthy_lookup (o o' : Args) (k : string) :
  o' !! k = o !! k -> Args.truthy o' k = Args.truthy o k.
Proof. intros H. unfold Args.truthy. by rewrite H. Qed.

Lemma get_string_lookup (o o' : Args) (k : string) :
  o' !! k = o !! k -> Args.get_string o' k = Args.get_string o k.
Proof. intros H. unfold Args.get_string. by rewrite H. Qed.

Lemma with_user_data_dir_lookup (paths_data : string) (o : Args) (k : string) :
  k <> "user-data-dir" -> with_user_data_dir paths_data o !! k = o !! k.
Proof.
  intros Hk. unfold with_user_data_dir.
  destruct (Args.truthy o _); [done|]. by rewrite lookup_insert_ne.
Qed.

Lemma with_extensions_dir_lookup (path_join : list string -> string) (o : Args)
    (k : string) :
  k <> "extensions-dir" -> with_extensions_dir path_join o !! k = o !! k.
Proof.
  intros Hk. unfold with_extensions_dir.
  destruct (Args.truthy o _); [done|]. by rewrite lookup_insert_ne.
Qed.

Lemma with_log_lookup (w : World) (o : Args) (k : string) :
  k <> "log" -> with_log w o !! k = o !! k.
Proof.
  intros Hk. unfold with_log.
  destruct (Args.truthy o _); [by rewrite lookup_insert_ne|].
  destruct (World.env_truthy _ _); [|done].
  destruct (_ && _); [|done]. by rewrite lookup_insert_ne.
Qed.

Lemma with_verbose_lookup (o : Args) (k : string) :
  k <> "verbose" -> with_verbose o !! k = o !! k.
Proof.
  intros Hk. unfold with_verbose.
  destruct (log_case _) as [[lvl v]|]; [|done]. by rewrite lookup_insert_ne.
Qed.

(** The five levels are the only texts with a case in the [switch]. *)
Lemma log_case_Some (x : option string) (level : Level) (verbose : bool) :
  log_case x = Some (level, verbose) ->
  exists s, x = Some s /\ s ∈ LogLevel /\ verbose = Str.eqb s "trace".
Proof.
  destruct x as [s|]; [|discriminate]. intros H. exists s. split; [done|].
  revert H. unfold log_case.
  repeat (match goal with
          | |- context [match ?s with EmptyString => _ | String _ _ => _ end] =>
              destruct s
          | |- context [match ?c with Ascii _ _ _ _ _ _ _ _ => _ end] =>
              destruct c as [[] [] [] [] [] [] [] []]
          end; try discriminate);
    intros [= <- <-]; (split; [|reflexivity]); unfold LogLevel;
    repeat first [apply list_elem_of_here|apply list_elem_of_further].
Qed.

Lemma env_truthy_Some (key : string) (w : World) (v : string) :
  World.env_truthy key w = Some v -> env w !! key = Some v /\ Str.truthy v = true.
Proof.
  unfold World.env_truthy. destruct (env w !! key) as [v'|]; [|discriminate].
  destruct (Str.truthy v') eqn:Hv; [|discriminate]. by intros [= <-].
Qed.

Section DefaultsRun.

Variable paths_data : string.
Variable path_join : list string -> string.
Variable os_platform : string.
Variable os_homedir : string.
Variable fs_copy :
  string -> string -> gmap string node -> result unit * gmap string node.

(** The blocks of [setDefaults] after the one for [user-data-dir], on a world
    whose object at [r] has the properties [o]. *)
Lemma setDefaults_rest (r : loc) (o : Args) (h : gmap loc Args)
    (e : gmap string string) (f : gmap string node) (l : Level) (p : list string) :
  let w := mkWorld (<[r := o]> h) e f l p in
  let o3 := with_log w (with_extensions_dir path_join o) in
  (o ← World.read r;
   (if negb (Args.truthy o "extensions-dir")
    then
      let dir := default EmptyString (Args.get_string o "user-data-dir") in
      World.set_prop r "extensions-dir" (VString (path_join [dir; "extensions"]))
    else mret tt);;
   o ← World.read r;
   LOG_LEVEL ← World.getenv "LOG_LEVEL";
   (if Args.truthy o "verbose"
    then World.set_prop r "log" (VString "trace")
    else
      match LOG_LEVEL with
      | Some level =>
          if negb (Args.truthy o "log") && bool_decide (level ∈ LogLevel)
          then World.set_prop r "log" (VString level)
          else mret tt
      | None => mret tt
      end);;
   o ← World.read r;
   (if Args.truthy o "log"
    then World.setenv "LOG_LEVEL" (default EmptyString (Args.get_string o "log"))
    else mret tt);;
   match log_case (Args.get_string o "log") with
   | Some (level, verbose) =>
       World.set_logger_level level;;
       World.set_prop r "verbose" (VBoolean verbose)
   | None => mret tt
   end;;
   mret r) w
  = (Return r,
     mkWorld (<[r := with_verbose o3]> h)
       (if Args.truthy o3 "log"
        then <["LOG_LEVEL" := default EmptyString (Args.get_string o3 "log")]> e
        else e)
       f
       (match log_case (Args.get_string o3 "log") with
        | Some (level, _) => level
        | None => l
        end)
       p).
Proof.
  intros w o3. unfold w.
  io_returns o w ltac:(apply read_run).
  io_returns tt (mkWorld (<[r := with_extensions_dir path_join o]> h) e f l p)
    ltac:(unfold with_extensions_dir; destruct (Args.truthy o "extensions-dir");
          [reflexivity|apply set_prop_run]).
  io_returns (with_extensions_dir path_join o)
    (mkWorld (<[r := with_extensions_dir path_join o]> h) e f l p)
    ltac:(apply read_run).
  io_returns (World.env_truthy "LOG_LEVEL" w)
    (mkWorld (<[r := with_extensions_dir path_join o]> h) e f l p)
    ltac:(reflexivity).
  io_returns tt (mkWorld (<[r := o3]> h) e f l p)
    ltac:(unfold o3, with_log;
          destruct (Args.truthy _ "verbose"); [apply set_prop_run|];
          destruct (World.env_truthy "LOG_LEVEL" w) as [level|]; [|reflexivity];
          destruct (_ && _); [apply set_prop_run|reflexivity]).
  io_returns o3 (mkWorld (<[r := o3]> h) e f l p) ltac:(apply read_run).
  io_returns tt
    (mkWorld (<[r := o3]> h)
       (if Args.truthy o3 "log"
        then <["LOG_LEVEL" := default EmptyString (Args.get_string o3 "log")]> e
        else e) f l p)
    ltac:(destruct (Args.truthy o3 "log"); reflexivity).
  unfold with_verbose.
  destruct (log_case (Args.get_string o3 "log")) as [[level verbose]|];
    [|reflexivity].
  io_returns tt
    (mkWorld (<[r := <["verbose" := VBoolean verbose]> o3]> h)
       (if Args.truthy o3 "log"
        then <["LOG_LEVEL" := default EmptyString (Args.get_string o3 "log")]> e
        else e) f level p)
    ltac:(etrans; [apply bind_returns; reflexivity|apply set_prop_run]).
  reflexivity.
Qed.

Lemma copyOldMacOSDataDir_run (w : World) :
  copyOldMacOSDataDir paths_data path_join os_platform os_homedir fs_copy w
  = if Str.eqb os_platform "darwin"
       && negb (bool_decide (is_Some (fs w !! paths_data)))
       && bool_decide
            (is_Some (fs w !! path_join [os_homedir; "Library/Application Support";
                                         "code-server"]))
    then World.on_fs
           (fs_copy (path_join [os_homedir; "Library/Application Support"; "code-server"])
              paths_data) w
    else (Return tt, w).
Proof.
  unfold copyOldMacOSDataDir. destruct (Str.eqb os_platform "darwin"); [|reflexivity].
  cbn [negb andb]. unfold mbind, IO_bind, World.pathExists.
  destruct (bool_decide (is_Some (fs w !! paths_data))); [reflexivity|].
  cbn [negb andb]. by destruct (bool_decide _).
Qed.

(** One run of [setDefaults], in full. *)
Lemma setDefaults_run (args : loc) (w : World) :
  let run := setDefaults paths_data path_join os_platform os_homedir fs_copy args w in
  let o := default ∅ (heap w !! args) in
  let copied :=
    if migrates paths_data path_join os_platform os_homedir o w
    then fs_copy (path_join [os_homedir; "Library/Application Support"; "code-server"])
           paths_data (fs w)
    else (Return tt, fs w) in
  let o3 := with_log w (with_extensions_dir path_join (with_user_data_dir paths_data o)) in
  run
  = match copied.1 with
    | Throw e =>
        (Throw e,
         mkWorld (<[fresh (dom (heap w)) := o]> (heap w)) (env w) copied.2
           (logger_level w) (probes w))
    | Return _ =>
        (Return (fresh (dom (heap w))),
         mkWorld (<[fresh (dom (heap w)) := with_verbose o3]> (heap w))
           (if Args.truthy o3 "log"
            then <["LOG_LEVEL" := default EmptyString (Args.get_string o3 "log")]> (env w)
            else env w)
           copied.2
           (match log_case (Args.get_string o3 "log") with
            | Some (level, _) => level
            | None => logger_level w
            end)
           (probes w))
    end.
Proof.
  intros run o copied o3. unfold run, setDefaults.
  set (r := fresh (dom (heap w))).
  set (w0 := mkWorld (<[r := o]> (heap w)) (env w) (fs w) (logger_level w) (probes w)).
  io_returns o w ltac:(reflexivity).
  io_returns r w0 ltac:(reflexivity).
  io_returns o w0 ltac:(apply read_run).
  unfold copied, migrates, o3, with_user_data_dir.
  destruct (Args.truthy o "user-data-dir") eqn:Hudd; cbn [negb andb fst snd].
  { io_returns tt w0 ltac:(reflexivity).
    exact (setDefaults_rest r o (heap w) (env w) (fs w) (logger_level w) (probes w)). }
  assert (Hcopy := copyOldMacOSDataDir_run w0).
  unfold World.on_fs in Hcopy. unfold w0 at 2 3 4 5 6 7 8 in Hcopy.
  cbn [heap env fs logger_level probes] in Hcopy.
  destruct (Str.eqb os_platform "darwin" && _ && _).
  - destruct (fs_copy _ _ (fs w)) as [[[]|err] f']; cbn [fst snd].
    + io_returns tt
        (mkWorld (<[r := <["user-data-dir" := VString paths_data]> o]> (heap w))
           (env w) f' (logger_level w) (probes w))
        ltac:(etrans; [apply bind_returns; exact Hcopy|apply set_prop_run]).
      exact (setDefaults_rest r _ (heap w) (env w) f' (logger_level w) (probes w)).
    + apply bind_throws. apply bind_throws. exact Hcopy.
  - cbn [fst snd].
    io_returns tt
      (mkWorld (<[r := <["user-data-dir" := VString paths_data]> o]> (heap w))
         (env w) (fs w) (logger_level w) (probes w))
      ltac:(etrans; [apply bind_returns; exact Hcopy|apply set_prop_run]).
    exact (setDefaults_rest r _ (heap w) (env w) (fs w) (logger_level w) (probes w)).
Qed.

(** The world after a run that returns. *)
Lemma setDefaults_returns (args : loc) (w : World) (r : loc) :
  let run := setDefaults paths_data path_join os_platform os_homedir fs_copy args w in
  let o3 := with_log w (with_extensions_dir path_join
                          (with_user_data_dir paths_data (default ∅ (heap w !! args)))) in
  run.1 = Return r ->
  default ∅ (heap run.2 !! r) = with_verbose o3
  /\ env run.2
     = (if Args.truthy o3 "log"
        then <["LOG_LEVEL" := default EmptyString (Args.get_string o3 "log")]> (env w)
        else env w)
  /\ logger_level run.2
     = match log_case (Args.get_string o3 "log") with
       | Some (level, _) => level
       | None => logger_level w
       end.
Proof.
  intros run o3. pose proof (setDefaults_run args w) as Hrun.
  cbv zeta in Hrun. fold run o3 in Hrun.
  rewrite Hrun. destruct (fst _); [|discriminate].
  intros [= <-]. cbn [snd heap env logger_level].
  by rewrite lookup_insert_eq.
Qed.

(** When [setDefaults] returns, the directories of the result are these:
    [user-data-dir] is the one given, or else [paths.data]; [extensions-dir]
    is the one given, or else [extensions] under the [user-data-dir] of the
    result -- so a given [user-data-dir] moves the default for the extensions
    with it. *)
Theorem setDefaults_directories (args : loc) (w : World) (r : loc) :
  let run := setDefaults paths_data path_join os_platform os_homedir fs_copy args w in
  let o := default ∅ (heap w !! args) in
  let o' := default ∅ (heap run.2 !! r) in
  run.1 = Return r ->
  o' !! "user-data-dir"
  = (if Args.truthy o "user-data-dir" then o !! "user-data-dir"
     else Some (VString paths_data))
  /\ o' !! "extensions-dir"
     = (if Args.truthy o "extensions-dir" then o !! "extensions-dir"
        else Some (VString (path_join
                              [default EmptyString (Args.get_string o' "user-data-dir");
                               "extensions"]))).
Proof.
  intros run o o' Hret.
  destruct (setDefaults_returns args w r Hret) as (Hobj & _).
  fold run o o' in Hobj.
  assert (Hudd : o' !! "user-data-dir"
                 = with_user_data_dir paths_data o !! "user-data-dir").
  { rewrite Hobj.
    by rewrite with_verbose_lookup, with_log_lookup, with_extensions_dir_lookup. }
  split.
  - rewrite Hudd. unfold with_user_data_dir.
    destruct (Args.truthy o "user-data-dir"); [done|apply lookup_insert_eq].
  - rewrite (get_string_lookup _ _ _ Hudd), Hobj.
    rewrite with_verbose_lookup, with_log_lookup by done.
    unfold with_extensions_dir.
    rewrite (truthy_lookup o (with_user_data_dir paths_data o) "extensions-dir")
      by by apply with_user_data_dir_lookup.
    destruct (Args.truthy o "extensions-dir").
    + by apply with_user_data_dir_lookup.
    + apply lookup_insert_eq.
Qed.

(** [--verbose] takes priority over [--log], and [--log] over the
    environment: when [setDefaults] returns, [log] is ["trace"] if [verbose]
    was set; or else the environment's [LOG_LEVEL] if [log] was not set and
    that value is one of the five levels; or else what it was. *)
Theorem setDefaults_log_precedence (args : loc) (w : World) (r : loc) :
  let run := setDefaults paths_data path_join os_platform os_homedir fs_copy args w in
  let o := default ∅ (heap w !! args) in
  let o' := default ∅ (heap run.2 !! r) in
  run.1 = Return r ->
  o' !! "log"
  = (if Args.truthy o "verbose" then Some (VString "trace")
     else if Args.truthy o "log" then o !! "log"
     else match World.env_truthy "LOG_LEVEL" w with
          | Some level =>
              if bool_decide (level ∈ LogLevel) then Some (VString level)
              else o !! "log"
          | None => o !! "log"
          end).
Proof.
  intros run o o' Hret.
  destruct (setDefaults_returns args w r Hret) as (Hobj & _).
  fold run o o' in Hobj. rewrite Hobj, with_verbose_lookup by done.
  set (o2 := with_extensions_dir path_join (with_user_data_dir paths_data o)).
  assert (Hsame : forall k, k <> "user-data-dir" -> k <> "extensions-dir" ->
                            o2 !! k = o !! k).
  { intros k Hk1 Hk2. unfold o2.
    by rewrite with_extensions_dir_lookup, with_user_data_dir_lookup. }
  unfold with_log.
  rewrite (truthy_lookup o o2 "verbose"), (truthy_lookup o o2 "log")
    by by apply Hsame.
  destruct (Args.truthy o "verbose"); [apply lookup_insert_eq|].
  destruct (Args.truthy o "log"); cbn [negb andb].
  { destruct (World.env_truthy "LOG_LEVEL" w); by apply Hsame. }
  destruct (World.env_truthy "LOG_LEVEL" w) as [level|]; [|by apply Hsame].
  destruct (bool_decide (level ∈ LogLevel)); [apply lookup_insert_eq|by apply Hsame].
Qed.

(** [setDefaults] leaves [log], [verbose], the environment and the logger in
    agreement.  When it returns with one of the five levels in [log], then
    [verbose] is [true] for ["trace"] and [false] for the others, the logger
    is at the level of that name and [LOG_LEVEL] holds it; any other
    non-empty text in [log] still goes to [LOG_LEVEL]; and with [log] unset,
    the environment, the logger and [verbose] are what they were. *)
Theorem setDefaults_log_synchronised (args : loc) (w : World) (r : loc) :
  let run := setDefaults paths_data path_join os_platform os_homedir fs_copy args w in
  let o := default ∅ (heap w !! args) in
  let o' := default ∅ (heap run.2 !! r) in
  run.1 = Return r ->
  (forall s, o' !! "log" = Some (VString s) -> Str.truthy s = true ->
             env run.2 = <["LOG_LEVEL" := s]> (env w))
  /\ (forall s, o' !! "log" = Some (VString s) -> s ∈ LogLevel ->
                o' !! "verbose" = Some (VBoolean (Str.eqb s "trace"))
                /\ log_case (Some s) = Some (logger_level run.2, Str.eqb s "trace"))
  /\ (Args.truthy o' "log" = false ->
      env run.2 = env w /\ logger_level run.2 = logger_level w
      /\ o' !! "verbose" = o !! "verbose").
Proof.
  intros run o o' Hret.
  destruct (setDefaults_returns args w r Hret) as (Hobj & Henv & Hlvl).
  fold run o o' in Hobj. fold run o in Henv. fold run o in Hlvl.
  set (o3 := with_log w (with_extensions_dir path_join
                           (with_user_data_dir paths_data o))) in *.
  assert (Hlog : o' !! "log" = o3 !! "log")
    by (rewrite Hobj; by apply with_verbose_lookup).
  split; [|split].
  - intros s Hs Htruthy. rewrite Hlog in Hs. rewrite Henv.
    unfold Args.truthy, Args.get_string. by rewrite Hs, Htruthy.
  - intros s Hs Hin. rewrite Hlog in Hs.
    assert (Hget : Args.get_string o3 "log" = Some s)
      by (unfold Args.get_string; by rewrite Hs).
    rewrite Hlvl, Hobj. unfold with_verbose. rewrite Hget.
    repeat (apply elem_of_cons in Hin as [->|Hin];
            [cbn [log_case]; by rewrite lookup_insert_eq|]).
    by apply elem_of_nil in Hin.
  - intros Hfalse. rewrite (truthy_lookup _ _ _ Hlog) in Hfalse.
    rewrite Henv, Hlvl, Hobj, Hfalse. unfold with_verbose.
    assert (Hcase : log_case (Args.get_string o3 "log") = None).
    { revert Hfalse. unfold Args.truthy, Args.get_string.
      destruct (o3 !! "log") as [[| [|c s] | | |]|]; try reflexivity.
      discriminate. }
    rewrite Hcase. split; [done|]. split; [done|].
    unfold o3. rewrite with_log_lookup by done.
    by rewrite with_extensions_dir_lookup, with_user_data_dir_lookup.
Qed.

(** [setDefaults] touches the file system only to copy the old macOS data
    directory, and only when there is no [user-data-dir], the platform is
    macOS, nothing is at [paths.data] and the old directory exists.  A failure
    of that copy is the only way for [setDefaults] to fail.  It never
    attempts a connection. *)
Theorem setDefaults_migration (args : loc) (w : World) :
  let run := setDefaults paths_data path_join os_platform os_homedir fs_copy args w in
  let old := path_join [os_homedir; "Library/Application Support"; "code-server"] in
  let migrating :=
    migrates paths_data path_join os_platform os_homedir
      (default ∅ (heap w !! args)) w in
  fs run.2 = (if migrating then (fs_copy old paths_data (fs w)).2 else fs w)
  /\ (forall e, run.1 = Throw e
                <-> migrating = true /\ (fs_copy old paths_data (fs w)).1 = Throw e)
  /\ probes run.2 = probes w.
Proof.
  intros run old migrating. pose proof (setDefaults_run args w) as Hrun.
  cbv zeta in Hrun. fold run old migrating in Hrun. rewrite Hrun.
  destruct migrating.
  - destruct (fs_copy old paths_data (fs w)) as [[[]|err] f']; cbn [fst snd fs probes].
    + split; [done|]. split; [|done]. intros e. split; [discriminate|].
      by intros [_ [=]].
    + split; [done|]. split; [|done]. intros e. split.
      * by intros [= <-].
      * by intros [_ [= <-]].
  - cbn [fst snd fs probes]. split; [done|]. split; [|done].
    intros e. split; [discriminate|]. by intros [[=] _].
Qed.

(** The layers find nothing to do on what they have made. *)
Lemma layers_idempotent (w w1 : World) (o : Args) :
  let o3 := with_log w (with_extensions_dir path_join (with_user_data_dir paths_data o)) in
  Str.truthy paths_data = true ->
  env w1 = (if Args.truthy o3 "log"
            then <["LOG_LEVEL" := default EmptyString (Args.get_string o3 "log")]> (env w)
            else env w) ->
  with_log w1 (with_extensions_dir path_join
                 (with_user_data_dir paths_data (with_verbose o3)))
  = with_verbose o3
  /\ Args.truthy (with_verbose o3) "user-data-dir" = true.
Proof.
  intros o3 Hdata Henv.
  set (o1 := with_user_data_dir paths_data o).
  set (o2 := with_extensions_dir path_join o1).
  set (o4 := with_verbose o3).
  assert (H41 : forall k, k <> "verbose" -> k <> "log" -> k <> "extensions-dir" ->
                          o4 !! k = o1 !! k).
  { intros k Hk1 Hk2 Hk3. unfold o4, o3.
    by rewrite with_verbose_lookup, with_log_lookup, with_extensions_dir_lookup. }
  assert (H42 : forall k, k <> "verbose" -> k <> "log" -> o4 !! k = o2 !! k).
  { intros k Hk1 Hk2. unfold o4, o3.
    by rewrite with_verbose_lookup, with_log_lookup. }
  assert (H43 : forall k, k <> "verbose" -> o4 !! k = o3 !! k).
  { intros k Hk. unfold o4. by rewrite with_verbose_lookup. }
  assert (H32 : forall k, k <> "log" -> o3 !! k = o2 !! k).
  { intros k Hk. unfold o3. by rewrite with_log_lookup. }
  assert (Hudd : Args.truthy o4 "user-data-dir" = true).
  { rewrite (truthy_lookup o1 o4) by by apply H41.
    unfold o1, with_user_data_dir.
    destruct (Args.truthy o "user-data-dir") eqn:Ho; [exact Ho|].
    unfold Args.truthy. by rewrite lookup_insert_eq. }
  split; [|exact Hudd].
  assert (L1 : with_user_data_dir paths_data o4 = o4)
    by (unfold with_user_data_dir; by rewrite Hudd).
  rewrite L1.
  assert (L2 : with_extensions_dir path_join o4 = o4).
  { unfold with_extensions_dir.
    destruct (Args.truthy o4 "extensions-dir") eqn:Hed; [reflexivity|].
    apply insert_id. rewrite H42 by done.
    rewrite (get_string_lookup o1 o4) by by apply H41.
    rewrite (truthy_lookup o2 o4) in Hed by by apply H42.
    revert Hed. unfold o2, with_extensions_dir.
    destruct (Args.truthy o1 "extensions-dir") eqn:Hed1; [by rewrite Hed1|].
    intros _. apply lookup_insert_eq. }
  rewrite L2.
  unfold with_log.
  destruct (log_case (Args.get_string o3 "log")) as [[level verbose]|] eqn:Hcase.
  - destruct (log_case_Some _ _ _ Hcase) as (s & Hs & Hin & ->).
    assert (Hlog3 : o3 !! "log" = Some (VString s)).
    { revert Hs. unfold Args.get_string.
      destruct (o3 !! "log") as [[]|]; try discriminate. by intros [= ->]. }
    assert (Htruthy : Str.truthy s = true).
    { clear -Hin. repeat (apply elem_of_cons in Hin as [->|Hin]; [reflexivity|]).
      by apply elem_of_nil in Hin. }
    assert (Hverbose : o4 !! "verbose" = Some (VBoolean (Str.eqb s "trace"))).
    { unfold o4, with_verbose. rewrite Hcase. apply lookup_insert_eq. }
    assert (Hv : Args.truthy o4 "verbose" = Str.eqb s "trace")
      by (unfold Args.truthy; by rewrite Hverbose).
    rewrite Hv. destruct (Str.eqb s "trace") eqn:Htrace.
    + apply insert_id. rewrite H43 by done. rewrite Hlog3.
      unfold Str.eqb in Htrace. by apply bool_decide_eq_true in Htrace as ->.
    + assert (Hl : Args.truthy o4 "log" = true).
      { rewrite (truthy_lookup o3 o4) by by apply H43.
        unfold Args.truthy. by rewrite Hlog3. }
      rewrite Hl. cbn [negb andb]. by destruct (World.env_truthy "LOG_LEVEL" w1).
  - assert (H4 : o4 = o3) by (unfold o4, with_verbose; by rewrite Hcase).
    rewrite H4.
    assert (Hv2 : Args.truthy o2 "verbose" = false).
    { destruct (Args.truthy o2 "verbose") eqn:Hv; [|reflexivity].
      assert (Hget : Args.get_string o3 "log" = Some "trace").
      { unfold o3, with_log. fold o1 o2. rewrite Hv.
        unfold Args.get_string. by rewrite lookup_insert_eq. }
      rewrite Hget in Hcase. discriminate Hcase. }
    rewrite (truthy_lookup o2 o3 "verbose") by by apply H32.
    rewrite Hv2.
    destruct (Args.truthy o3 "log") eqn:Hl3.
    { cbn [negb andb]. by destruct (World.env_truthy "LOG_LEVEL" w1). }
    assert (Hsame : World.env_truthy "LOG_LEVEL" w1 = World.env_truthy "LOG_LEVEL" w)
      by (unfold World.env_truthy; by rewrite Henv).
    rewrite Hsame.
    destruct (World.env_truthy "LOG_LEVEL" w) as [level|] eqn:Hlevel; [|reflexivity].
    cbn [negb andb].
    destruct (bool_decide (level ∈ LogLevel)) eqn:Hin; [|reflexivity].
    exfalso. revert Hl3. unfold o3, with_log. fold o1 o2. rewrite Hv2, Hlevel, Hin.
    destruct (Args.truthy o2 "log") eqn:Hl2; cbn [negb andb].
    + by rewrite Hl2.
    + unfold Args.truthy. rewrite lookup_insert_eq.
      destruct (env_truthy_Some _ _ _ Hlevel) as [_ ->]. discriminate.
Qed.

(** [setDefaults] is idempotent.  With a non-empty [paths.data], a second
    call on the result of a first one always returns; its record has the same
    properties as the first result, and the environment, the file system and
    the logger are left as the first call left them. *)
Theorem setDefaults_idempotent (args : loc) (w : World) (r : loc) :
  let setDefaults := setDefaults paths_data path_join os_platform os_homedir fs_copy in
  let run := setDefaults args w in
  let again := setDefaults r run.2 in
  Str.truthy paths_data = true ->
  run.1 = Return r ->
  exists r', again.1 = Return r'
             /\ default ∅ (heap again.2 !! r') = default ∅ (heap run.2 !! r)
             /\ env again.2 = env run.2
             /\ fs again.2 = fs run.2
             /\ logger_level again.2 = logger_level run.2.
Proof.
  intros setDefaults' run again Hdata Hret.
  destruct (setDefaults_returns args w r Hret) as (Hobj & Henv & Hlevel).
  fold setDefaults' in Hobj, Henv, Hlevel. fold run in Hobj, Henv, Hlevel.
  set (o3 := with_log w (with_extensions_dir path_join
                           (with_user_data_dir paths_data (default ∅ (heap w !! args)))))
    in *.
  destruct (layers_idempotent w run.2 (default ∅ (heap w !! args)) Hdata Henv)
    as [Hlayers Hudd].
  fold o3 in Hlayers, Hudd.
  pose proof (setDefaults_run r run.2) as Hagain. cbv zeta in Hagain.
  fold setDefaults' in Hagain. fold again in Hagain.
  rewrite Hobj, Hlayers in Hagain.
  unfold migrates in Hagain. rewrite Hudd in Hagain. cbn [negb andb fst snd] in Hagain.
  assert (Hlog : Args.truthy (with_verbose o3) "log" = Args.truthy o3 "log")
    by (apply truthy_lookup; by apply with_verbose_lookup).
  assert (Hget : Args.get_string (with_verbose o3) "log" = Args.get_string o3 "log")
    by (apply get_string_lookup; by apply with_verbose_lookup).
  rewrite Hlog, Hget in Hagain.
  exists (fresh (dom (heap run.2))). rewrite Hagain.
  cbn [fst snd heap env fs logger_level]. rewrite lookup_insert_eq. cbn [default from_option].
  split; [done|]. split; [|split; [|split; [done|]]].
  - rewrite Hobj. unfold id, with_verbose at 1. rewrite Hget. unfold with_verbose.
    destruct (log_case (Args.get_string o3 "log")) as [[level verbose]|];
      [|done]. apply insert_insert_eq.
  - rewrite Henv. destruct (Args.truthy o3 "log"); [|done]. apply insert_insert_eq.
  - rewrite Hlevel. by destruct (log_case (Args.get_string o3 "log")) as [[level verbose]|].
Qed.

End DefaultsRun.

Lemma setDefaults_directories_witness :
  default ∅ (heap (ExampleDefaults.setDefaults 1%positive ExampleDefaults.world).2
             !! 2%positive) !! "user-data-dir"
  = (if Args.truthy (default ∅ (heap ExampleDefaults.world !! 1%positive)) "user-data-dir"
     then default ∅ (heap ExampleDefaults.world !! 1%positive) !! "user-data-dir"
     else Some (VString "/data"))
  /\ default ∅ (heap (ExampleDefaults.setDefaults 1%positive ExampleDefaults.world).2
                !! 2%positive) !! "extensions-dir"
     = (if Args.truthy (default ∅ (heap ExampleDefaults.world !! 1%positive)) "extensions-dir"
        then default ∅ (heap ExampleDefaults.world !! 1%positive) !! "extensions-dir"
        else Some (VString
                     (Example.path_join
                        [default EmptyString
                           (Args.get_string
                              (default ∅
                                 (heap (ExampleDefaults.setDefaults 1%positive
                                          ExampleDefaults.world).2 !! 2%positive))
                              "user-data-dir");
                         "extensions"]))).
Proof.
  apply (setDefaults_directories "/data" Example.path_join "darwin" "/home/u"
           Example.fs_copy 1%positive ExampleDefaults.world 2%positive).
  vm_compute. reflexivity.
Defined.

Lemma setDefaults_log_precedence_witness :
  default ∅ (heap (ExampleDefaults.setDefaults 1%positive ExampleDefaults.world).2
             !! 2%positive) !! "log"
  = (if Args.truthy (default ∅ (heap ExampleDefaults.world !! 1%positive)) "verbose"
     then Some (VString "trace")
     else if Args.truthy (default ∅ (heap ExampleDefaults.world !! 1%positive)) "log"
     then default ∅ (heap ExampleDefaults.world !! 1%positive) !! "log"
     else match World.env_truthy "LOG_LEVEL" ExampleDefaults.world with
          | Some level =>
              if bool_decide (level ∈ LogLevel) then Some (VString level)
              else default ∅ (heap ExampleDefaults.world !! 1%positive) !! "log"
          | None => default ∅ (heap ExampleDefaults.world !! 1%positive) !! "log"
          end).
Proof.
  apply (setDefaults_log_precedence "/data" Example.path_join "darwin" "/home/u"
           Example.fs_copy 1%positive ExampleDefaults.world 2%positive).
  vm_compute. reflexivity.
Defined.

Lemma setDefaults_log_synchronised_witness :
  env (ExampleDefaults.setDefaults 1%positive ExampleDefaults.world).2
  = <["LOG_LEVEL" := "trace"]> (env ExampleDefaults.world)
  /\ default ∅ (heap (ExampleDefaults.setDefaults 1%positive ExampleDefaults.world).2
                !! 2%positive) !! "verbose"
     = Some (VBoolean (Str.eqb "trace" "trace"))
  /\ log_case (Some "trace")
     = Some (logger_level (ExampleDefaults.setDefaults 1%positive ExampleDefaults.world).2,
             Str.eqb "trace" "trace").
Proof.
  destruct (setDefaults_log_synchronised "/data" Example.path_join "darwin" "/home/u"
              Example.fs_copy 1%positive ExampleDefaults.world 2%positive)
    as (Henv & Hlevel & _); [vm_compute; reflexivity|].
  split.
  - apply Henv; vm_compute; reflexivity.
  - apply Hlevel; [vm_compute; reflexivity|]. apply elem_of_cons. left. reflexivity.
Defined.

Lemma setDefaults_idempotent_witness :
  exists r',
    (ExampleDefaults.setDefaults 2%positive
       (ExampleDefaults.setDefaults 1%positive ExampleDefaults.world).2).1 = Return r'
    /\ default ∅ (heap (ExampleDefaults.setDefaults 2%positive
                          (ExampleDefaults.setDefaults 1%positive
                             ExampleDefaults.world).2).2 !! r')
       = default ∅ (heap (ExampleDefaults.setDefaults 1%positive
                            ExampleDefaults.world).2 !! 2%positive)
    /\ env (ExampleDefaults.setDefaults 2%positive
              (ExampleDefaults.setDefaults 1%positive ExampleDefaults.world).2).2
       = env (ExampleDefaults.setDefaults 1%positive ExampleDefaults.world).2
    /\ fs (ExampleDefaults.setDefaults 2%positive
             (ExampleDefaults.setDefaults 1%positive ExampleDefaults.world).2).2
       = fs (ExampleDefaults.setDefaults 1%positive ExampleDefaults.world).2
    /\ logger_level (ExampleDefaults.setDefaults 2%positive
                       (ExampleDefaults.setDefaults 1%positive ExampleDefaults.world).2).2
       = logger_level (ExampleDefaults.setDefaults 1%positive ExampleDefaults.world).2.
Proof.
  apply (setDefaults_idempotent "/data" Example.path_join "darwin" "/home/u"
           Example.fs_copy 1%positive ExampleDefaults.world 2%positive).
  - reflexivity.
  - vm_compute. reflexivity.
Defined.
